(** * puncc: calibration-and-aggregation engine

    A shallow embedding of the weighted empirical quantile
    ([puncc/utils.py]), of the conformal predictor and its cross-validation
    aggregator ([deel/puncc/conformalization.py]) and of the bootstrap
    ensemble [EnbPI] ([deel/puncc/regression.py]).

    Conventions.
    - Floating point numbers are idealised as rationals ([Q]) and the
      comparisons of the source are the exact comparisons on [Q], except
      where the outcome of a call hangs on a rounding: the sums of the
      weights in [quantile] are added in binary64, round to nearest.
    - A Python call either returns a value or raises: [result A] with
      [Ok] and [Raise].  A returned exception object is an ordinary value
      and is modelled as such.
    - Dictionaries keyed by fold index are [gmap nat _].
    - Python lists that are mutated in place live in a store of list
      objects addressed by locations. *)

From stdpp Require Import gmap strings list sorting.
From Stdlib Require Import QArith Qabs Qround Lqa.

Close Scope Q_scope.

(** ** Exceptions and results *)

Inductive exn : Type :=
  | ValueError
  | NotImplementedError
  | RuntimeError
  | IndexError
  | TypeError
  | ZeroDivisionError
  | KeyError
  | AttributeError
  | AssertionError
  | SystemError.

Inductive result (A : Type) : Type :=
  | Ok (a : A)
  | Raise (e : exn).
Arguments Ok {A} a.
Arguments Raise {A} e.

(** Sequencing: an exception raised by [r] propagates. *)
#[global] Instance result_bind : MBind result := fun A B k r =>
  match r with
  | Ok a => k a
  | Raise e => Raise e
  end.

#[global] Instance result_ret : MRet result := fun A a => Ok a.

(** The three exception classes raised by the explicit sanity checks of
    [quantile]. *)
Definition validation_error {A : Type} (r : result A) : Prop :=
  r = Raise ValueError \/ r = Raise NotImplementedError \/ r = Raise RuntimeError.

Definition returns {A : Type} (r : result A) : Prop := exists v, r = Ok v.

(** ** Arrays *)

(** A numpy array of rationals, by number of dimensions: a 0-d scalar, a
    1-d vector, or an array with at least two dimensions (first two
    extents, remaining extents, flattened contents). *)
Inductive ndarray : Type :=
  | Arr0 (x : Q)
  | Arr1 (xs : list Q)
  | ArrN (d0 d1 : nat) (ds : list nat) (flat : list Q).

Definition ndim (a : ndarray) : nat :=
  match a with
  | Arr0 _ => 0
  | Arr1 _ => 1
  | ArrN _ _ ds _ => S (S (length ds))
  end.

(** Python's [len]: a [TypeError] on a 0-d array, else the first extent. *)
Definition len (a : ndarray) : result nat :=
  match a with
  | Arr0 _ => Raise TypeError
  | Arr1 xs => Ok (length xs)
  | ArrN d0 _ _ _ => Ok d0
  end.

Module Quantile.
Local Open Scope Q_scope.

(** *** numpy primitives used by [quantile] *)

(** Sums in exact arithmetic: what [np.sum] and [np.cumsum] return where
    no addition rounds. *)
Fixpoint Qsum (l : list Q) : Q :=
  match l with
  | [] => 0
  | x :: l' => x + Qsum l'
  end.

Fixpoint cumsum_from (acc : Q) (l : list Q) : list Q :=
  match l with
  | [] => []
  | x :: l' => (acc + x) :: cumsum_from (acc + x) l'
  end.

Definition cumsum (l : list Q) : list Q := cumsum_from 0 l.

(** [x[i]] on a 1-d array or a list, [IndexError] out of range. *)
Definition getitem {A : Type} (xs : list A) (i : nat) : result A :=
  match xs !! i with
  | Some x => Ok x
  | None => Raise IndexError
  end.

(** A comprehension [[f x for x in l]] whose body may raise. *)
Fixpoint mapR {A B : Type} (f : A -> result B) (l : list A) : result (list B) :=
  match l with
  | [] => Ok []
  | x :: l' =>
      y ← f x;
      r ← mapR f l';
      Ok (y :: r)
  end.

(** [x[idxs]] with an integer index array. *)
Definition fancy_index {A : Type} (xs : list A) (idxs : list nat) : result (list A) :=
  mapR (getitem xs) idxs.

(** [x[mask]] with a boolean mask of the same length: the entries whose
    mask bit is set, in order. *)
Fixpoint boolean_index {A : Type} (xs : list A) (mask : list bool) : list A :=
  match xs, mask with
  | x :: xs', b :: mask' =>
      if b then x :: boolean_index xs' mask' else boolean_index xs' mask'
  | _, _ => []
  end.

(** A stable sort of the indices of [a] by value: the indices are
    inserted from the last to the first, an index going in front of every
    index whose value is not smaller, so that equal values keep their
    index order. *)
Definition key (a : list Q) (i : nat) : Q := nth i a 0.

Fixpoint insert_idx (a : list Q) (i : nat) (l : list nat) : list nat :=
  match l with
  | [] => [i]
  | j :: l' =>
      if Qle_bool (key a i) (key a j) then i :: l else j :: insert_idx a i l'
  end.

Definition argsort_of (a : list Q) (idxs : list nat) : list nat :=
  foldr (insert_idx a) [] idxs.

Definition argsort (a : list Q) : list nat := argsort_of a (seq 0 (length a)).

(** Index [i] comes no later than [j] in the order of the values. *)
Definition key_le (a : list Q) (i j : nat) : Prop := key a i <= key a j.

(** *** binary64

    The weights are added in floating point, and the outcome of
    [quantile] depends on how the sums round.  A finite binary64 number
    is a rational; the sum of two of them is the exact sum rounded to the
    nearest binary64 number, ties to even, or an infinity.  The entries
    of an array range over all rationals, those that binary64 represents
    among them. *)

(** The nearest integer, ties to even. *)
Definition rne (x : Q) : Z :=
  let f := Qfloor x in
  match Qcompare (x - inject_Z f) (1 # 2) with
  | Lt => f
  | Gt => (f + 1)%Z
  | Eq => if Z.even f then f else (f + 1)%Z
  end.

(** Every finite binary64 number is a multiple of [2^-1074]. *)
Definition grid : Q := inject_Z (2 ^ 1074).

(** A non-negative rational, rounded to 53 significant bits: counted in
    units of [2^-1074], a number of [52 + e] bits and more is rounded to
    a multiple of [2^e]; below that (the subnormal numbers and the first
    binade) to an integer.  The result is in lowest terms. *)
Definition round_pos (x : Q) : Q :=
  let X := x * grid in
  let e := Z.max (Z.log2 (Qfloor X) - 52) 0 in
  Qred (inject_Z (rne (X / inject_Z (2 ^ e)) * 2 ^ e) / grid).

Definition round_finite (x : Q) : Q :=
  if Qle_bool 0 x then round_pos x else - round_pos (- x).

Inductive float64 : Type :=
  | Num (q : Q)
  | PInf
  | NInf
  | Nan.

Definition overflow : Q := inject_Z (2 ^ 1024).

Definition round (x : Q) : float64 :=
  let r := round_finite x in
  if Qle_bool overflow r then PInf
  else if Qle_bool r (- overflow) then NInf
  else Num r.

(** [x + y] on binary64 numbers. *)
Definition fl_add (x y : float64) : float64 :=
  match x, y with
  | Num a, Num b => round (a + b)
  | Nan, _ | _, Nan => Nan
  | PInf, NInf | NInf, PInf => Nan
  | PInf, _ | _, PInf => PInf
  | NInf, _ | _, NInf => NInf
  end.

(** [x >= y] for a finite [y]. *)
Definition fl_ge (x : float64) (y : Q) : bool :=
  match x with
  | Num a => Qle_bool y a
  | PInf => true
  | NInf | Nan => false
  end.

(** [np.cumsum]: the first entry, then each running sum plus the next
    entry, rounded. *)
Fixpoint np_cumsum_from (acc : float64) (l : list Q) : list float64 :=
  match l with
  | [] => []
  | x :: l' =>
      let acc' := fl_add acc (Num x) in
      acc' :: np_cumsum_from acc' l'
  end.

Definition np_cumsum (l : list Q) : list float64 :=
  match l with
  | [] => []
  | x :: l' => Num x :: np_cumsum_from (Num x) l'
  end.

(** [np.isclose(x, y, atol=atol)] with numpy's default [rtol = 1e-05],
    as it is computed: [|x - y| <= atol + rtol * |y|] with every
    constant and every operation rounded; an infinite or undefined [x] is
    not close to a finite [y]. *)
Definition rtol_default : Q := 1 # 100000.

Definition tolerance (y atol : Q) : Q :=
  round_finite (round_finite atol
                + round_finite (round_finite rtol_default * Qabs y)).

Definition np_isclose (x : float64) (y atol : Q) : bool :=
  match x with
  | Num s => Qle_bool (Qabs (round_finite (s - y))) (tolerance y atol)
  | PInf | NInf | Nan => false
  end.

(** *** Library calls whose result is not determined by their arguments

    [np.sum] adds in an order of its own (pairwise, in blocks), and
    [np.argsort] with its default sort orders equal entries as it
    pleases: both are parameters.  Of [np.sum] nothing is assumed;
    [np.argsort] returns a permutation of the indices along which the
    values ascend. *)

Class Numpy : Type := {
  np_sum : list Q -> float64;
  np_argsort : list Q -> list nat;
  np_argsort_perm : forall a, np_argsort a ≡ₚ seq 0 (length a);
  np_argsort_sorted : forall a, StronglySorted (key_le a) (np_argsort a)
}.

(** The contents of an array, flattened. *)
Definition data (a : ndarray) : list Q :=
  match a with
  | Arr0 x => [x]
  | Arr1 xs => xs
  | ArrN _ _ _ flat => flat
  end.

(** [np.quantile(a, alpha, method="higher")] on a 0-d or 1-d array: the
    sorted value at index [ceil(alpha * (n - 1))]; numpy indexes an empty
    array there and raises [IndexError]. *)
Definition np_quantile_higher (a : list Q) (alpha : Q) : result Q :=
  match a with
  | [] => Raise IndexError
  | _ =>
      let n := length a in
      let pos := Z.to_nat (Qceiling (alpha * inject_Z (Z.of_nat (n - 1)))) in
      match argsort a !! pos with
      | Some i => getitem a i
      | None => Raise IndexError
      end
  end.

Definition atol : Q := 1 # 1000000.

Section Numpy.
Context {np : Numpy}.

(** *** [quantile] *)

Definition quantile (a : ndarray) (alpha : Q) (w : option ndarray) : result Q :=
  (* Sanity checks *)
  if Qle_bool alpha 0 || Qle_bool 1 alpha then Raise ValueError
  else if (1 <? ndim a)%nat then Raise NotImplementedError
  else if match w with Some w' => (1 <? ndim w')%nat | None => false end
  then Raise NotImplementedError
  else
    match w with
    | None => np_quantile_higher (data a) alpha
    | Some w' =>
        lw ← len w';
        la ← len a;
        if negb (lw =? la)%nat then Raise RuntimeError
        else if negb (np_isclose (np_sum (data w')) 1 atol) then Raise RuntimeError
        else
          let sorted_idxs := np_argsort (data a) in
          ws ← fancy_index (data w') sorted_idxs;
          let sorted_cumsum_w := np_cumsum ws in
          let mask := map (fun c => fl_ge c alpha) sorted_cumsum_w in
          match boolean_index sorted_idxs mask with
          | [] => Raise IndexError
          | weighted_quantile_idxs :: _ => getitem (data a) weighted_quantile_idxs
          end
    end.

(** *** Notions used to state the properties of [quantile] *)

(** The weight accumulated up to and including sorted position [k]. *)
Definition cum_weight (w : list Q) (idxs : list nat) (k : nat) : Q :=
  Qsum (map (key w) (take (S k) idxs)).

(** The weight of the residuals that satisfy [P], over the indices
    [idxs]. *)
Definition mass (P : Q -> bool) (a w : list Q) (idxs : list nat) : Q :=
  Qsum (map (fun i => if P (key a i) then key w i else 0) idxs).

(** The weight of the residuals up to [v], and of those below [v]. *)
Definition mass_upto (v : Q) (a w : list Q) : Q :=
  mass (fun x => Qle_bool x v) a w (seq 0 (length a)).

Definition mass_below (v : Q) (a w : list Q) : Q :=
  mass (fun x => negb (Qle_bool v x)) a w (seq 0 (length a)).

(** Every running sum of [np.cumsum], over the weights in the order the
    sort gives, is the exact running sum: no addition has rounded. *)
Definition is_num (f : float64) (q : Q) : Prop :=
  match f with
  | Num s => s == q
  | PInf | NInf | Nan => False
  end.

Definition sums_exact (a w : list Q) : Prop :=
  Forall2 is_num (np_cumsum (map (key w) (np_argsort a)))
                 (cumsum (map (key w) (np_argsort a))).

(** Some running sum of [np.cumsum] reaches [alpha]; none does. *)
Definition reached (a w : list Q) (alpha : Q) : Prop :=
  Exists (fun c => fl_ge c alpha = true)
         (np_cumsum (map (key w) (np_argsort a))).

Definition unreached (a w : list Q) (alpha : Q) : Prop :=
  Forall (fun c => fl_ge c alpha = false)
         (np_cumsum (map (key w) (np_argsort a))).

(** The rejected inputs as the specification lists them: [alpha] not
    strictly between 0 and 1, [a] not one-dimensional, [w] given with a
    length other than that of [a], [w] given with a sum outside 1 ± 1e-6. *)
Definition spec_invalid (a : ndarray) (alpha : Q) (w : option ndarray) : Prop :=
  ~ (0 < alpha /\ alpha < 1) \/
  ndim a <> 1%nat \/
  (exists w', w = Some w' /\ len w' <> len a) \/
  (exists w', w = Some w' /\ ~ Qabs (Qsum (data w') - 1) <= atol).

(** The error behaviour as the specification states it. *)
Definition spec_errors (a : ndarray) (alpha : Q) (w : option ndarray) : Prop :=
  (validation_error (quantile a alpha w) <-> spec_invalid a alpha w) /\
  (~ spec_invalid a alpha w -> returns (quantile a alpha w)).

(** The sum [np.sum] has returned is further than [tol] from 1 (an
    infinite or undefined sum is); it is within [tol] of 1. *)
Definition sum_off (tol : Q) (s : float64) : Prop :=
  match s with
  | Num q => tol < Qabs (q - 1)
  | PInf | NInf | Nan => True
  end.

Definition sum_within (tol : Q) (s : float64) : Prop :=
  match s with
  | Num q => Qabs (q - 1) <= tol
  | PInf | NInf | Nan => False
  end.

(** The only inputs on which a validation error is raised: [alpha] out
    of range, [a] not one-dimensional, [w] with more than one dimension,
    with another length than [a], or with a sum further than 1e-6 from
    1. *)
Definition rejectable (a : ndarray) (alpha : Q) (w : option ndarray) : Prop :=
  alpha <= 0 \/ 1 <= alpha \/
  ndim a <> 1%nat \/
  (exists w', w = Some w' /\ (1 < ndim w')%nat) \/
  (exists xs ws, a = Arr1 xs /\ w = Some (Arr1 ws) /\ length ws <> length xs) \/
  (exists xs ws, a = Arr1 xs /\ w = Some (Arr1 ws) /\ sum_off atol (np_sum ws)).

(** Inputs on which a validation error is raised for certain: [alpha]
    out of range, [a] or [w] with more than one dimension, lengths that
    differ, a sum further than 1.2e-5 from 1. *)
Definition rejected (a : ndarray) (alpha : Q) (w : option ndarray) : Prop :=
  alpha <= 0 \/ 1 <= alpha \/
  (1 < ndim a)%nat \/
  (exists w', w = Some w' /\ (1 < ndim w')%nat) \/
  (exists xs ws, a = Arr1 xs /\ w = Some (Arr1 ws) /\ length ws <> length xs) \/
  (exists xs ws, a = Arr1 xs /\ w = Some (Arr1 ws) /\
     sum_off (12 # 1000000) (np_sum ws)).

(** Inputs on which [quantile] answers: a non-empty one-dimensional [a],
    [alpha] in range and either no weights, or one-dimensional weights of
    the same length whose sum is within 1e-6 of 1 and of which some
    running sum reaches [alpha]. *)
Definition accepted (a : ndarray) (alpha : Q) (w : option ndarray) : Prop :=
  0 < alpha /\ alpha < 1 /\
  exists xs, a = Arr1 xs /\ xs <> [] /\
    (w = None \/
     exists ws, w = Some (Arr1 ws) /\ length ws = length xs /\
       sum_within atol (np_sum ws) /\ reached xs ws alpha).

End Numpy.

End Quantile.

(** ** Conformal predictor and cross-validation aggregator *)

Module Conformalization.

(** Python's [sub in s] on strings: [sub] occurs in [s] as a substring. *)
Fixpoint str_in (sub s : string) : bool :=
  String.prefix sub s ||
  match s with
  | EmptyString => false
  | String _ s' => str_in sub s'
  end.

(** The collaborators, by the interface the canvas consumes: a predictor
    answers [(y_pred, y_pred_lo, y_pred_hi, var_pred)], the last three
    possibly [None]; a calibrator stores residuals and turns a prediction
    into an interval; [CvPlusCalibrator] (module [calibration]) turns the
    fold calibrators and predictors into an interval. *)
Class Collaborators : Type := {
  Features : Type;
  Labels : Type;
  Residuals : Type;
  Weights : Type;
  Predictor : Type;
  Calibrator : Type;
  Splitter : Type;
  predictor_predict :
    Predictor -> Features ->
    result (Labels * option Labels * option Labels * option Labels);
  calibrator_calibrate :
    Calibrator -> Features -> Q (* alpha *) -> Labels (* y_pred *) ->
    option Labels (* var_pred *) -> option Labels (* y_pred_lo *) ->
    option Labels (* y_pred_hi *) -> result (Labels * Labels);
  calibrator_residuals : Calibrator -> Residuals;
  calibrator_get_weights : Calibrator -> Weights;
  CvPlusCalibrator_calibrate :
    gmap nat Calibrator -> Features -> gmap nat Predictor -> Q ->
    result (Labels * Labels)
}.

Section Canvas.
Context `{Collaborators}.

(** What a method of the canvas hands back: [None], the prediction tuple,
    a dictionary keyed by fold, or an exception object returned as a
    value. *)
Inductive value : Type :=
  | PyNone
  | Prediction (y_pred : option Labels) (y_lo y_hi : Labels) (var_pred : option Labels)
  | ResidualsDict (d : gmap nat Residuals)
  | WeightsDict (d : gmap nat Weights)
  | ExceptionObject (e : exn) (msg : string).

(** *** [CrossValCpAggregator] *)

Record CrossValCpAggregator : Type := {
  K : nat;
  _predictors : gmap nat Predictor;
  _calibrators : gmap nat Calibrator;
  method : string
}.

(** [__init__].  The guard reads [method not in ("cv+")]: the parentheses
    do not make a tuple, so it tests whether [method] is a substring of
    ["cv+"].  When it fires, [NotImplemented(...)] is evaluated for the
    [return]; [NotImplemented] is not callable, and the call raises
    [TypeError]. *)
Definition CrossValCpAggregator_init (K : nat) (method : string)
  : result CrossValCpAggregator :=
  if negb (str_in method "cv+") then Raise TypeError
  else Ok {| K := K; _predictors := ∅; _calibrators := ∅; method := method |}.

Definition append_predictor (self : CrossValCpAggregator) (id : nat) (p : Predictor)
  : CrossValCpAggregator :=
  {| K := K self; _predictors := <[id := p]> (_predictors self);
     _calibrators := _calibrators self; method := method self |}.

Definition append_calibrator (self : CrossValCpAggregator) (id : nat) (c : Calibrator)
  : CrossValCpAggregator :=
  {| K := K self; _predictors := _predictors self;
     _calibrators := <[id := c]> (_calibrators self); method := method self |}.

Definition agg_get_residuals (self : CrossValCpAggregator) : gmap nat Residuals :=
  calibrator_residuals <$> _calibrators self.

Definition agg_get_weights (self : CrossValCpAggregator) : gmap nat Weights :=
  calibrator_get_weights <$> _calibrators self.

(** The single-fold path: the loop over the keys returns in its first
    iteration; with no key at all it would fall through and the method
    would return [None]. *)
Definition predict_single (self : CrossValCpAggregator) (X : Features) (alpha : Q)
  : result value :=
  match map_to_list (_predictors self) with
  | [] => Ok PyNone
  | (k, predictor) :: _ =>
      match _calibrators self !! k with
      | None => Raise KeyError
      | Some calibrator =>
          '(y_pred, y_pred_lo, y_pred_hi, var_pred) ← predictor_predict predictor X;
          '(y_lo, y_hi) ←
            calibrator_calibrate calibrator X alpha y_pred var_pred y_pred_lo y_pred_hi;
          Ok (Prediction (Some y_pred) y_lo y_hi var_pred)
      end
  end.

Definition agg_predict (self : CrossValCpAggregator) (X : Features) (alpha : Q)
  : result value :=
  if negb (bool_decide (dom (_predictors self) = dom (_calibrators self)))
  then Raise AssertionError
  else
    let K := size (_predictors self) in
    (* No cross-val strategy if K = 1 *)
    if (K =? 1)%nat then predict_single self X alpha
    else
      if String.eqb (method self) "cv+" then
        '(y_lo, y_hi) ←
          CvPlusCalibrator_calibrate (_calibrators self) X (_predictors self) alpha;
        Ok (Prediction None y_lo y_hi None)
      else Raise RuntimeError.

(** *** [ConformalPredictor] *)

Record ConformalPredictor : Type := {
  calibrator : option Calibrator;
  predictor : Predictor;
  splitter : Splitter;
  cp_method : string;
  train : bool;
  _cv_cp_agg : option CrossValCpAggregator
}.

Definition ConformalPredictor_init (calibrator : option Calibrator)
    (predictor : Predictor) (splitter : Splitter) (method : string) (train : bool)
  : ConformalPredictor :=
  {| calibrator := calibrator; predictor := predictor; splitter := splitter;
     cp_method := method; train := train; _cv_cp_agg := None |}.

Definition not_fitted_msg : string := "Error: call 'fit' method first.".

(** [get_residuals] and [get_weights] build the [RuntimeError] and
    [return] it; [predict] raises it. *)
Definition get_residuals (self : ConformalPredictor) : result value :=
  match _cv_cp_agg self with
  | None => Ok (ExceptionObject RuntimeError not_fitted_msg)
  | Some agg => Ok (ResidualsDict (agg_get_residuals agg))
  end.

Definition get_weights (self : ConformalPredictor) : result value :=
  match _cv_cp_agg self with
  | None => Ok (ExceptionObject RuntimeError not_fitted_msg)
  | Some agg => Ok (WeightsDict (agg_get_weights agg))
  end.

Definition predict (self : ConformalPredictor) (X : Features) (alpha : Q)
  : result value :=
  match _cv_cp_agg self with
  | None => Raise RuntimeError
  | Some agg => agg_predict agg X alpha
  end.

End Canvas.

End Conformalization.

(** ** Bootstrap ensemble: [EnbPI] *)

Module EnbPI.
Import Quantile.

(** *** The store of list objects

    [self.residuals] and [updated_residuals] are Python lists, extended
    in place by [+=]: each is a location in a store of list objects, and
    a copy or a slice allocates a new one. *)
Abbreviation loc := nat (only parsing).
Abbreviation store := (gmap nat (list Q)) (only parsing).

Definition M (A : Type) : Type := store -> result A * store.

#[global] Instance M_ret : MRet M := fun A a σ => (Ok a, σ).

#[global] Instance M_bind : MBind M := fun A B k m σ =>
  match m σ with
  | (Ok a, σ') => k a σ'
  | (Raise e, σ') => (Raise e, σ')
  end.

Definition lift {A : Type} (r : result A) : M A := fun σ => (r, σ).

(** A new list object. *)
Definition alloc (l : list Q) : M loc := fun σ =>
  let p := fresh (dom σ) in (Ok p, <[p := l]> σ).

(** The contents of a list object; every location handed out by [alloc]
    is allocated, so the error case does not arise. *)
Definition read (p : loc) : M (list Q) := fun σ =>
  match σ !! p with
  | Some l => (Ok l, σ)
  | None => (Raise SystemError, σ)
  end.

(** [p += l]: the object at [p] is extended in place. *)
Definition extend (p : loc) (l : list Q) : M unit := fun σ =>
  match σ !! p with
  | Some old => (Ok (), <[p := old ++ l]> σ)
  | None => (Raise SystemError, σ)
  end.

(** A [for] loop over [l] threading the loop variables [st]. *)
Fixpoint for_each {A S : Type} (body : A -> S -> M S) (l : list A) (st : S) : M S :=
  match l with
  | [] => mret st
  | x :: l' => st' ← body x st; for_each body l' st'
  end.

(** *** numpy primitives *)

Local Open Scope Q_scope.

(** [x[lo:hi]] and [x[lo:]] for non-negative bounds. *)
Definition slice {A : Type} (lo hi : nat) (xs : list A) : list A :=
  take (hi - lo) (drop lo xs).

(** [np.quantile(a, q)] with the default linear interpolation: with
    [h = q * (n - 1)], the sorted value at [floor h] plus the fraction of
    the way to the next one.  [q] outside [0, 1] is a [ValueError];
    an empty [a] is indexed out of range. *)
Definition np_quantile_linear (a : list Q) (q : Q) : result Q :=
  if Qle_bool 0 q && Qle_bool q 1 then
    match a with
    | [] => Raise IndexError
    | _ =>
        let sorted := map (key a) (argsort a) in
        let n := length a in
        let h := q * inject_Z (Z.of_nat (n - 1)) in
        let j := Z.to_nat (Qfloor h) in
        let g := h - inject_Z (Qfloor h) in
        lo ← getitem sorted j;
        hi ← getitem sorted (Nat.min (S j) (n - 1));
        Ok (lo + g * (hi - lo))
    end
  else Raise ValueError.

Definition dot (u v : list Q) : Q := Qsum (zip_with Qmult u v).

Definition column (c : nat) (m : list (list Q)) : list Q :=
  map (fun row => nth c row 0) m.

(** [np.matmul(m, p)] of a [T x B] by a [B x n] matrix; a [ValueError]
    when a row of [m] does not have one entry per row of [p]. *)
Definition matmul (m p : list (list Q)) : result (list (list Q)) :=
  if forallb (fun row => (length row =? length p)%nat) m then
    let n := match p with [] => 0%nat | r :: _ => length r end in
    Ok (map (fun row => map (fun c => dot row (column c p)) (seq 0 n)) m)
  else Raise ValueError.

(** [np.mean(m, axis=0)], the default [agg_func_loo]. *)
Definition np_mean_axis0 (m : list (list Q)) : list Q :=
  let n := match m with [] => 0%nat | r :: _ => length r end in
  map (fun c => Qsum (column c m) / inject_Z (Z.of_nat (length m))) (seq 0 n).

(** [np.setdiff1d(a, b)] for [a = np.arange(T)]: the values of [a] that
    are not in [b], ascending. *)
Definition setdiff1d (a b : list nat) : list nat :=
  filter (fun i => i ∉ b) a.

(** *** Collaborators

    The predictor to be bootstrapped ([copy], [fit], [predict]), the
    residual formula and the interval reconstruction
    ([nonconformity_scores.mad] and [prediction_sets.constant_interval],
    reached through [_compute_residuals] and [_compute_pi]), and the
    random generator behind [sklearn.utils.resample]: [draw g T] draws [T]
    indices below [T] with replacement from generator state [g];
    [seed_rng seed] is the generator a given integer seed stands for. *)
Class Collaborators : Type := {
  Sample : Type;
  Predictor : Type;
  predictor_copy : Predictor -> Predictor;
  predictor_fit : Predictor -> list Sample -> list Q -> Predictor;
  predictor_predict : Predictor -> list Sample -> list Q;
  mad : list Q (* y_pred *) -> list Q (* y_true *) -> list Q;
  constant_interval : list Q -> Q -> list Q * list Q;
  rng : Type;
  draw : rng -> nat -> list nat * rng;
  seed_rng : Z -> rng
}.

(** A well-behaved generator draws [T] indices, each below [T]. *)
Definition draw_valid `{Collaborators} : Prop :=
  forall g T, length (draw g T).1 = T /\ Forall (fun i => (i < T)%nat) (draw g T).1.

Section Ensemble.
Context `{Collaborators}.

Record EnbPI : Type := {
  predictor : Predictor;
  B : nat;
  agg_func_loo : list (list Q) -> list Q;
  residuals : loc;
  _boot_predictors : option (list Predictor);
  random_state : option Z;
  _oob_dict : gmap nat (list nat);
  _boot_dict : gmap nat (list nat);
  _oob_matrix : option (list (list Q))
}.

(** [__init__]: [self.residuals = list()] is a new, empty list object. *)
Definition EnbPI_init (predictor : Predictor) (B : nat)
    (agg_func_loo : list (list Q) -> list Q) (random_state : option Z) : M EnbPI :=
  p ← alloc [];
  mret {| predictor := predictor; B := B; agg_func_loo := agg_func_loo;
          residuals := p; _boot_predictors := None; random_state := random_state;
          _oob_dict := ∅; _boot_dict := ∅; _oob_matrix := None |}.

Definition _compute_residuals (y_pred y_true : list Q) : list Q := mad y_pred y_true.

Definition _compute_pi (y_pred : list Q) (w : Q) : list Q * list Q :=
  constant_interval y_pred w.

Definition get_oob_matrix (self : EnbPI) : result (list (list Q)) :=
  match _oob_matrix self with
  | Some m => Ok m
  | None => Raise AttributeError
  end.

(** [(self._oob_matrix * boot_pred.T).sum(-1)]: entry [i] sums, over the
    models [b], the weight of [b] for sample [i] times the prediction of
    [b] at sample [i]. *)
Definition loo_diagonal (m boot_pred : list (list Q)) : list Q :=
  imap (fun i row => dot row (column i boot_pred)) m.

Definition _compute_boot_residuals (self : EnbPI) (boot_pred : list (list Q))
    (y_true : list Q) : result (list Q) :=
  m ← get_oob_matrix self;
  Ok (mad (loo_diagonal m boot_pred) y_true).

Definition _compute_loo_predictions (self : EnbPI) (boot_pred : list (list Q))
  : result (list (list Q)) :=
  m ← get_oob_matrix self;
  matmul m boot_pred.

(** [[self._boot_predictors[b].predict(X) for b in range(self.B)]] *)
Definition boot_predictions (preds : list Predictor) (B : nat) (X : list Sample)
  : result (list (list Q)) :=
  mapR (fun b => p ← getitem preds b; Ok (predictor_predict p X)) (seq 0 B).

(** *** [fit] *)

(** [resample(horizon_indices, replace=True, n_samples=T,
    random_state=random_state_b)]: without a seed the draw comes from the
    global generator, which advances; with a seed it comes from a
    generator built from that seed, anew on every call. *)
Definition resample (random_state_b : option Z) (T : nat) (g : rng)
  : list nat * rng :=
  match random_state_b with
  | None => draw g T
  | Some seed => ((draw (seed_rng seed) T).1, g)
  end.

(** The [while oob_is_empty] loop for one bootstrap model; [None] when
    [fuel] iterations did not end it. *)
Fixpoint sample_bootstrap (fuel : nat) (random_state_b : option Z) (T : nat)
    (g : rng) : option (list nat * list nat * rng) :=
  match fuel with
  | O => None
  | S fuel' =>
      let '(boot, g') := resample random_state_b T g in
      let oob_units := setdiff1d (seq 0 T) boot in
      if (length oob_units =? 0)%nat
      then sample_bootstrap fuel' random_state_b T g'
      else Some (boot, oob_units, g')
  end.

(** The loop over the bootstrap models, filling [_boot_dict] and
    [_oob_dict]. *)
Fixpoint sample_all (fuel : nat) (random_state : option Z) (T : nat)
    (bs : list nat) (boot_dict oob_dict : gmap nat (list nat)) (g : rng)
  : option (gmap nat (list nat) * gmap nat (list nat) * rng) :=
  match bs with
  | [] => Some (boot_dict, oob_dict, g)
  | b :: bs' =>
      let random_state_b := (fun r => r + Z.of_nat b)%Z <$> random_state in
      match sample_bootstrap fuel random_state_b T g with
      | None => None
      | Some (boot, oob_units, g') =>
          sample_all fuel random_state T bs'
            (<[b := boot]> boot_dict) (<[b := oob_units]> oob_dict) g'
      end
  end.

(** [[1 if i in self._oob_dict[b] else 0 for b in range(self.B)]] *)
Definition oobs_for_unit (oob_dict : gmap nat (list nat)) (B i : nat)
  : result (list Q) :=
  mapR (fun b =>
          match oob_dict !! b with
          | Some oob => Ok (if bool_decide (i ∈ oob) then 1 else 0)
          | None => Raise KeyError
          end) (seq 0 B).

(** The rows of the OOB matrix, a [RuntimeError] at the first training
    sample that is out-of-bag for no model. *)
Definition oob_rows (oob_dict : gmap nat (list nat)) (T B : nat)
  : result (list (list Q)) :=
  mapR (fun i =>
          oobs_for_i_th_unit ← oobs_for_unit oob_dict B i;
          if Qeq_bool (Qsum oobs_for_i_th_unit) 0 then Raise RuntimeError
          else Ok oobs_for_i_th_unit) (seq 0 T).

(** Every row divided by its sum. *)
Definition normalize_rows (m : list (list Q)) : list (list Q) :=
  map (fun row => map (fun x => x / Qsum row) row) m.

Definition build_oob_matrix (oob_dict : gmap nat (list nat)) (T B : nat)
  : result (list (list Q)) :=
  rows ← oob_rows oob_dict T B;
  Ok (normalize_rows rows).

(** One fitted copy of the predictor per bootstrap index set. *)
Definition fit_boot_predictors (self : EnbPI) (boot_dict : gmap nat (list nat))
    (X_train : list Sample) (y_train : list Q) : result (list Predictor) :=
  mapR (fun b =>
          boot ← match boot_dict !! b with
                 | Some boot => Ok boot
                 | None => Raise KeyError
                 end;
          X_boot ← fancy_index X_train boot;
          y_boot ← fancy_index y_train boot;
          Ok (predictor_fit (predictor_copy (predictor self)) X_boot y_boot))
       (seq 0 (B self)).

(** [fit] once the bootstrap sets are drawn: the OOB matrix, the
    bootstrap predictors and the residuals, appended in place to
    [self.residuals]. *)
Definition fit_sampled (self : EnbPI) (X_train : list Sample) (y_train : list Q)
    (boot_dict oob_dict : gmap nat (list nat)) : M EnbPI :=
  let T := length X_train in
  oob_matrix ← lift (build_oob_matrix oob_dict T (B self));
  boot_predictors ← lift (fit_boot_predictors self boot_dict X_train y_train);
  let self' :=
    {| predictor := predictor self; B := B self;
       agg_func_loo := agg_func_loo self; residuals := residuals self;
       _boot_predictors := Some boot_predictors;
       random_state := random_state self;
       _oob_dict := oob_dict; _boot_dict := boot_dict;
       _oob_matrix := Some oob_matrix |} in
  boot_preds ← lift (boot_predictions boot_predictors (B self) X_train);
  new_residuals ← lift (_compute_boot_residuals self' boot_preds y_train);
  _ ← extend (residuals self) new_residuals;
  mret self'.

(** [fit]: [None] when a sampling loop did not end within [fuel]
    iterations; else the rest of [fit] and the global generator after the
    draws. *)
Definition fit (fuel : nat) (self : EnbPI) (X_train : list Sample)
    (y_train : list Q) (g : rng) : option (M EnbPI * rng) :=
  let T := length X_train in
  match sample_all fuel (random_state self) T (seq 0 (B self)) ∅ ∅ g with
  | None => None
  | Some (boot_dict, oob_dict, g') =>
      Some (fit_sampled self X_train y_train boot_dict oob_dict, g')
  end.

(** *** [predict] *)

(** Number of batches and batch size.  [s] is the caller's integer; a
    zero [s] divides by zero, a negative one gives no batch. *)
Definition batch_plan {A : Type} (X_test : list A) (y_true : option (list Q))
    (s : option Z) : result (nat * nat) :=
  match y_true, s with
  | None, _ | Some _, None => Ok (1%nat, length X_test)
  | Some y, Some s =>
      if (s =? 0)%Z then Raise ZeroDivisionError
      else Ok (Z.to_nat (Z.of_nat (length y) / s), Z.to_nat s)
  end.

(** The slice of [xs] that is batch [i]: the last batch runs to the end. *)
Definition batch {A : Type} (n_batches s i : nat) (xs : list A) : list A :=
  if (i =? n_batches - 1)%nat then drop (i * s) xs
  else slice (i * s) ((i + 1) * s) xs.

(** The batches the loop goes through, in order. *)
Definition batches {A : Type} (n_batches s : nat) (xs : list A) : list (list A) :=
  map (fun i => batch n_batches s i xs) (seq 0 n_batches).

(** The variables the batch loop carries from one batch to the next. *)
Record loop_state : Type := {
  y_pred_list : list Q;
  y_pred_lower_list : list Q;
  y_pred_upper_list : list Q;
  updated_residuals : loc;
  res_quantile : Q
}.

(** The ensemble prediction for one batch: the predictions of the
    bootstrap models, combined through the OOB matrix and aggregated. *)
Definition predict_batch (self : EnbPI) (preds : list Predictor)
    (X_batch : list Sample) : result (list Q) :=
  boot_preds ← boot_predictions preds (B self) X_batch;
  loo_preds ← _compute_loo_predictions self boot_preds;
  Ok (agg_func_loo self loo_preds).

(** One batch: predict, emit the interval around the prediction with the
    current quantile, and, when true values are given, slide the residual
    window and recompute the quantile. *)
Definition process_batch (self : EnbPI) (preds : list Predictor) (alpha : Q)
    (s : nat) (X_batch : list Sample) (y_true_batch : option (list Q))
    (st : loop_state) : M loop_state :=
  y_pred_batch ← lift (predict_batch self preds X_batch);
  let '(y_pred_batch_lower, y_pred_batch_upper) :=
    _compute_pi y_pred_batch (res_quantile st) in
  let upper := y_pred_upper_list st ++ y_pred_batch_upper in
  let lower := y_pred_lower_list st ++ y_pred_batch_lower in
  let preds_out := y_pred_list st ++ y_pred_batch in
  match y_true_batch with
  | None =>
      mret {| y_pred_list := preds_out; y_pred_lower_list := lower;
              y_pred_upper_list := upper;
              updated_residuals := updated_residuals st;
              res_quantile := res_quantile st |}
  | Some y_true_batch =>
      let residuals := _compute_residuals y_pred_batch y_true_batch in
      old ← read (updated_residuals st);
      p ← alloc (drop s old);          (* updated_residuals[s:] *)
      _ ← extend p residuals;          (* += list(residuals) *)
      pool ← read p;
      q ← lift (np_quantile_linear pool (1 - alpha));
      mret {| y_pred_list := preds_out; y_pred_lower_list := lower;
              y_pred_upper_list := upper;
              updated_residuals := p;
              res_quantile := q |}
  end.

Definition loop_body (self : EnbPI) (preds : list Predictor) (alpha : Q)
    (n_batches s : nat) (X_test : list Sample) (y_true : option (list Q))
    (i : nat) (st : loop_state) : M loop_state :=
  process_batch self preds alpha s
    (batch n_batches s i X_test) (batch n_batches s i <$> y_true) st.

Definition predict (self : EnbPI) (X_test : list Sample) (alpha : Q)
    (y_true : option (list Q)) (s : option Z) : M (list Q * list Q * list Q) :=
  current ← read (residuals self);
  copy ← alloc current;                               (* deepcopy(self.residuals) *)
  copied ← read copy;
  updated_residuals ← alloc copied;                   (* list(...) *)
  res_quantile ← lift (np_quantile_linear current (1 - alpha));
  '(n_batches, s) ← lift (batch_plan X_test y_true s);
  preds ← lift (match _boot_predictors self with
                | None => Raise RuntimeError
                | Some preds => Ok preds
                end);
  st ← for_each (loop_body self preds alpha n_batches s X_test y_true)
         (seq 0 n_batches)
         {| y_pred_list := []; y_pred_lower_list := []; y_pred_upper_list := [];
            updated_residuals := updated_residuals; res_quantile := res_quantile |};
  mret (y_pred_list st, y_pred_lower_list st, y_pred_upper_list st).

(** *** [predict], read functionally

    The same computation on the contents of the residual pool instead of
    on list objects: the window carries the pool itself. *)
Record window : Type := {
  w_pred : list Q;
  w_lower : list Q;
  w_upper : list Q;
  w_pool : list Q;
  w_quantile : Q
}.

Definition process_batch_pure (self : EnbPI) (preds : list Predictor) (alpha : Q)
    (s : nat) (X_batch : list Sample) (y_true_batch : option (list Q))
    (w : window) : result window :=
  y_pred_batch ← predict_batch self preds X_batch;
  let '(y_pred_batch_lower, y_pred_batch_upper) :=
    _compute_pi y_pred_batch (w_quantile w) in
  let upper := w_upper w ++ y_pred_batch_upper in
  let lower := w_lower w ++ y_pred_batch_lower in
  let preds_out := w_pred w ++ y_pred_batch in
  match y_true_batch with
  | None =>
      Ok {| w_pred := preds_out; w_lower := lower; w_upper := upper;
            w_pool := w_pool w; w_quantile := w_quantile w |}
  | Some y_true_batch =>
      let pool := drop s (w_pool w) ++ _compute_residuals y_pred_batch y_true_batch in
      q ← np_quantile_linear pool (1 - alpha);
      Ok {| w_pred := preds_out; w_lower := lower; w_upper := upper;
            w_pool := pool; w_quantile := q |}
  end.

Fixpoint for_each_pure {A S : Type} (body : A -> S -> result S) (l : list A)
    (st : S) : result S :=
  match l with
  | [] => Ok st
  | x :: l' => st' ← body x st; for_each_pure body l' st'
  end.

Definition predict_pure (self : EnbPI) (X_test : list Sample) (alpha : Q)
    (y_true : option (list Q)) (s : option Z) (current : list Q)
  : result (list Q * list Q * list Q) :=
  res_quantile ← np_quantile_linear current (1 - alpha);
  '(n_batches, s) ← batch_plan X_test y_true s;
  preds ← match _boot_predictors self with
          | None => Raise RuntimeError
          | Some preds => Ok preds
          end;
  w ← for_each_pure
        (fun i => process_batch_pure self preds alpha s
                    (batch n_batches s i X_test) (batch n_batches s i <$> y_true))
        (seq 0 n_batches)
        {| w_pred := []; w_lower := []; w_upper := [];
           w_pool := current; w_quantile := res_quantile |};
  Ok (w_pred w, w_lower w, w_upper w).

(** *** Notions used to state the properties of [predict] and [fit] *)

(** The loop variables [st], in store [σ], stand for the window [w];
    the list object behind [updated_residuals] is not one of those of the
    store [σ0] the call started from, all of which are still in [σ]. *)
Definition stands_for (σ0 σ : gmap nat (list Q)) (st : loop_state) (w : window)
  : Prop :=
  (σ0 ⊆ σ) /\
  (updated_residuals st ∉ dom σ0) /\
  σ !! updated_residuals st = Some (w_pool w) /\
  y_pred_list st = w_pred w /\
  y_pred_lower_list st = w_lower w /\
  y_pred_upper_list st = w_upper w /\
  res_quantile st = w_quantile w.

(** A step on list objects follows a step on their contents. *)
Definition follows (σ0 σ : gmap nat (list Q))
    (step : loop_state -> M loop_state) (pure : window -> result window)
    (st : loop_state) (w : window) : Prop :=
  match pure w with
  | Ok w' => exists st' σ', step st σ = (Ok st', σ') /\ stands_for σ0 σ' st' w'
  | Raise e => exists σ', step st σ = (Raise e, σ') /\ σ0 ⊆ σ'
  end.

End Ensemble.

(** The batch sizes as the specification words them: [len / s] batches of
    size [s], then a remainder batch with the [len mod s] leftover
    samples. *)
Definition spec_batch_sizes (len s : nat) : list nat :=
  (repeat s (len / s) ++ [len mod s])%nat.

(** The batching as the specification states it. *)
Definition spec_batching {A : Type} (X_test : list A) (y_true : list Q) (s : Z)
  : Prop :=
  exists n s', batch_plan X_test (Some y_true) (Some s) = Ok (n, s') /\
    map length (batches n s' X_test)
    = spec_batch_sizes (length y_true) (Z.to_nat s).

(** Entry [(i, b)] of the matrix before normalisation. *)
Definition indicator (oob_dict : gmap nat (list nat)) (i b : nat) : Q :=
  match oob_dict !! b with
  | Some oob => if bool_decide (i ∈ oob) then 1 else 0
  | None => 0
  end.

(** Row [i] of the matrix before normalisation. *)
Definition indicator_row (oob_dict : gmap nat (list nat)) (B i : nat) : list Q :=
  map (indicator oob_dict i) (seq 0 B).

End EnbPI.

(** ** [ConformalPredictor.fit] *)

Module ConformalFit.
Import Conformalization.

(** The collaborators of [fit]: the splitter, called on the data, gives
    the list of [(X_fit, y_fit, X_calib, y_calib)]; [fit] on a predictor
    or a calibrator gives its new state or raises; [no_calibrator] is
    Python's [None] as the dictionary of calibrators holds it when the
    conformal predictor was built without a calibrator. *)
Class Training `{Collaborators} : Type := {
  splitter_call :
    Splitter -> Features -> Labels -> list (Features * Labels * Features * Labels);
  predictor_fit : Predictor -> Features -> Labels -> result Predictor;
  predictor_is_trained : Predictor -> bool;
  calibrator_fit :
    Calibrator -> Labels (* y_true *) -> Labels (* y_pred *) -> Features ->
    option Labels (* var_pred *) -> option Labels (* y_pred_lo *) ->
    option Labels (* y_pred_hi *) -> result Calibrator;
  no_calibrator : Calibrator
}.

Section Fit.
Context `{Training}.

(** How a call to [fit] ends: normally, with a built-in exception, or
    with the bare [Exception] raised for a skip-training predictor given
    several splits. *)
Inductive fit_outcome : Type :=
  | FitDone
  | FitRaise (e : exn)
  | FitInconsistent.

(** Step 1 of the core loop: fit the fold predictor, or check that it is
    pre-trained. *)
Definition train_fold (train : bool) (predictor : Predictor)
    (X_fit : Features) (y_fit : Labels) : result Predictor :=
  if train then predictor_fit predictor X_fit y_fit
  else if negb (predictor_is_trained predictor) then Raise RuntimeError
  else Ok predictor.

(** Steps 2 and 3: predict on the calibration data and fit the
    calibrator, when there is one. *)
Definition calibrate_fold (predictor : Predictor) (calibrator : option Calibrator)
    (X_calib : Features) (y_calib : Labels) : result (option Calibrator) :=
  match calibrator with
  | None => Ok None
  | Some c =>
      '(y_pred, y_pred_lo, y_pred_hi, var_pred) ← predictor_predict predictor X_calib;
      c' ← calibrator_fit c y_calib y_pred X_calib var_pred y_pred_lo y_pred_hi;
      Ok (Some c')
  end.

(** The core loop, from fold [i] on.  The local [predictor] and
    [calibrator] are the same objects from one fold to the next; each
    append stores a copy of their state at that point.  The aggregator is
    the object [self._cv_cp_agg]: what was appended before an exception
    stays appended. *)
Fixpoint fit_folds (train : bool) (i : nat)
    (splits : list (Features * Labels * Features * Labels))
    (predictor : Predictor) (calibrator : option Calibrator)
    (agg : CrossValCpAggregator) : CrossValCpAggregator * fit_outcome :=
  match splits with
  | [] => (agg, FitDone)
  | (X_fit, y_fit, X_calib, y_calib) :: splits' =>
      match train_fold train predictor X_fit y_fit with
      | Raise e => (agg, FitRaise e)
      | Ok predictor' =>
          match calibrate_fold predictor' calibrator X_calib y_calib with
          | Raise e => (agg, FitRaise e)
          | Ok calibrator' =>
              let agg' :=
                append_calibrator (append_predictor agg i predictor') i
                  (default no_calibrator calibrator') in
              fit_folds train (S i) splits' predictor' calibrator' agg'
          end
      end
  end.

(** Step 1 of the core loop over a run of splits: the local [predictor]
    is one object, so each fold starts from the state the fold before it
    left. *)
Fixpoint train_chain (train : bool) (predictor : Predictor)
    (splits : list (Features * Labels * Features * Labels)) : result Predictor :=
  match splits with
  | [] => Ok predictor
  | (X_fit, y_fit, _, _) :: splits' =>
      predictor' ← train_fold train predictor X_fit y_fit;
      train_chain train predictor' splits'
  end.

Definition set_cv_cp_agg (self : ConformalPredictor) (agg : CrossValCpAggregator)
  : ConformalPredictor :=
  {| calibrator := calibrator self; predictor := predictor self;
     splitter := splitter self; cp_method := cp_method self;
     train := train self; _cv_cp_agg := Some agg |}.

(** [fit]: the instance after the call, and how the call ended. *)
Definition fit (self : ConformalPredictor) (X : Features) (y : Labels)
  : ConformalPredictor * fit_outcome :=
  let splits := splitter_call (splitter self) X y in
  match CrossValCpAggregator_init (length splits) (cp_method self) with
  | Raise e => (self, FitRaise e)
  | Ok agg =>
      if (1 <? length splits) && negb (train self)
      then (set_cv_cp_agg self agg, FitInconsistent)
      else
        let '(agg', outcome) :=
          fit_folds (train self) 0 splits (predictor self) (calibrator self) agg in
        (set_cv_cp_agg self agg', outcome)
  end.

(** The fold indices [0 .. m - 1] are exactly the keys of both
    dictionaries. *)
Definition holds_folds (agg : CrossValCpAggregator) (m : nat) : Prop :=
  (forall k, is_Some (_predictors agg !! k) <-> k < m) /\
  (forall k, is_Some (_calibrators agg !! k) <-> k < m).

End Fit.

End ConformalFit.

(** ** Metrics ([puncc/utils.py]) *)

Module Metrics.
Import Quantile.
Local Open Scope Q_scope.

(** A floating point scalar: a number, or [nan]. *)
Inductive scalar : Type :=
  | Finite (q : Q)
  | NaN.

(** An elementwise operation on two one-dimensional arrays, with numpy's
    broadcasting: the lengths agree, or one of the arrays has a single
    entry, which is then used throughout; else the shapes do not
    broadcast and numpy raises [ValueError]. *)
Definition broadcast {A B C : Type} (f : A -> B -> C) (xs : list A) (ys : list B)
  : result (list C) :=
  if (length xs =? length ys)%nat then Ok (zip_with f xs ys)
  else
    match xs, ys with
    | [x], _ => Ok (map (f x) ys)
    | _, [y] => Ok (map (fun x => f x y) xs)
    | _, _ => Raise ValueError
    end.

(** [.mean()]: the mean of an empty array is [nan]. *)
Definition mean (l : list Q) : scalar :=
  match l with
  | [] => NaN
  | _ => Finite (Qsum l / inject_Z (Z.of_nat (length l)))
  end.

(** A boolean array read as numbers, as [.mean()] does. *)
Definition as_float (b : bool) : Q := if b then 1 else 0.

Definition average_coverage (y_true y_pred_lower y_pred_upper : list Q)
  : result scalar :=
  above ← broadcast (fun y l => Qle_bool l y) y_true y_pred_lower;
  below ← broadcast (fun y u => Qle_bool y u) y_true y_pred_upper;
  covered ← broadcast andb above below;
  Ok (mean (map as_float covered)).

Definition ace (y_true y_pred_lower y_pred_upper : list Q) (alpha : Q)
  : result scalar :=
  cov ← average_coverage y_true y_pred_lower y_pred_upper;
  Ok (match cov with
      | Finite c => Finite (c - (1 - alpha))
      | NaN => NaN
      end).

Definition sharpness (y_pred_lower y_pred_upper : list Q) : result scalar :=
  width ← broadcast (fun u l => Qabs (u - l)) y_pred_upper y_pred_lower;
  Ok (mean width).

(** With arrays of one length, the covered flags, by index. *)
Definition covered_at (y_true y_pred_lower y_pred_upper : list Q) (i : nat) : bool :=
  Qle_bool (key y_pred_lower i) (key y_true i) &&
  Qle_bool (key y_true i) (key y_pred_upper i).

(** Sample [i] is inside its interval. *)
Definition inside (y_true y_pred_lower y_pred_upper : list Q) (i : nat) : Prop :=
  key y_pred_lower i <= key y_true i /\ key y_true i <= key y_pred_upper i.

End Metrics.

(** ** Visualization: [plot_prediction_interval] and [plot_sorted_pi] *)

Module Plotting.
Import Quantile Metrics.
Local Open Scope Q_scope.

(** The Python values that reach matplotlib through keyword arguments
    and settings. *)
Inductive pyobj : Type :=
  | PyStr (s : string)
  | PyInt (z : Z)
  | PyTuple (a b : Z).

(** The calls made to [matplotlib.pyplot], with the arguments that
    depend on the data: a plot has its x and y arrays, its format string,
    its [color] and its [label]. *)
Inductive plt_call : Type :=
  | plt_figure (figsize : pyobj)
  | plt_rcParams (key : string) (value : pyobj)
  | plt_plot (x y : list Q) (fmt color label : option string)
  | plt_fill_between (x y1 y2 : list Q) (label : option string)
  | plt_xlabel (s : string)
  | plt_ylabel (s : string)
  | plt_legend (loc : option pyobj)
  | plt_savefig (path : string)
  | plt_show.

(** A plotting function makes calls in order until it returns or
    raises. *)
Definition P (A : Type) : Type := (list plt_call * result A)%type.

#[global] Instance P_ret : MRet P := fun A a => ([], Ok a).

#[global] Instance P_bind : MBind P := fun A B k m =>
  match m with
  | (calls, Ok a) => let '(calls', r) := k a in (calls ++ calls', r)
  | (calls, Raise e) => (calls, Raise e)
  end.

Definition call (c : plt_call) : P unit := ([c], Ok ()).

Definition compute {A : Type} (r : result A) : P A := ([], r).

(** [plt.plot(x, y, ...)]: matplotlib refuses x and y of different
    lengths with a [ValueError]. *)
Definition plot (x y : list Q) (fmt color label : option string) : P unit :=
  if (length x =? length y)%nat then call (plt_plot x y fmt color label)
  else compute (Raise ValueError).

Definition fill_between (x y1 y2 : list Q) (label : option string) : P unit :=
  if (length x =? length y1)%nat && (length x =? length y2)%nat
  then call (plt_fill_between x y1 y2 label)
  else compute (Raise ValueError).

(** [np.arange(n)] *)
Definition arange (n : nat) : list Q :=
  map (fun i => inject_Z (Z.of_nat i)) (seq 0 n).

(** [x[idxs]] where [x] may be [None], which is not subscriptable. *)
Definition subscript (x : option (list Q)) (idxs : list nat) : result (list Q) :=
  match x with
  | None => Raise TypeError
  | Some xs => fancy_index xs idxs
  end.

(** [x[mask]] with a boolean mask: an [IndexError] when the mask does
    not have the length of [x]. *)
Definition mask_index {A : Type} (xs : list A) (mask : list bool) : result (list A) :=
  if (length mask =? length xs)%nat then Ok (boolean_index xs mask)
  else Raise IndexError.

(** [(y_true > y_pred_upper) | (y_true < y_pred_lower)] *)
Definition miscovered (y_true y_pred_lower y_pred_upper : list Q)
  : result (list bool) :=
  above ← broadcast (fun y u => negb (Qle_bool y u)) y_true y_pred_upper;
  below ← broadcast (fun y l => negb (Qle_bool l y)) y_true y_pred_lower;
  broadcast orb above below.

Definition plot_prediction_interval (y_true : list Q)
    (y_pred_lower y_pred_upper : option (list Q)) (X y_pred : option (list Q))
    (save_path : option string) (sort_X : bool) (kwargs : gmap string pyobj)
  : P unit :=
  (* Figure configuration *)
  let figsize := default (PyTuple 15 6) (kwargs !! "figsize") in
  loc ← compute (match kwargs !! "loc" with
                 | None => Raise KeyError            (* kwargs["loc"] *)
                 | Some _ => Ok (PyStr "upper left")
                 end);
  _ ← call (plt_figure figsize);
  _ ← call (plt_rcParams "font.family" (PyStr "Times New Roman"));
  _ ← call (plt_rcParams "ytick.labelsize" (PyInt 15));
  _ ← call (plt_rcParams "xtick.labelsize" (PyInt 15));
  _ ← call (plt_rcParams "axes.labelsize" (PyInt 15));
  _ ← call (plt_rcParams "legend.fontsize" (PyInt 16));
  '(X, y_true, y_pred, y_pred_lower, y_pred_upper) ←
    compute (match X with
             | None => Ok (arange (length y_true), y_true, y_pred,
                           y_pred_lower, y_pred_upper)
             | Some X =>
                 if sort_X then
                   let sorted_idx := argsort X in
                   X' ← fancy_index X sorted_idx;
                   y_true' ← fancy_index y_true sorted_idx;
                   y_pred' ← subscript y_pred sorted_idx;
                   y_pred_lower' ← subscript y_pred_lower sorted_idx;
                   y_pred_upper' ← subscript y_pred_upper sorted_idx;
                   Ok (X', y_true', Some y_pred', Some y_pred_lower',
                       Some y_pred_upper')
                 else Ok (X, y_true, y_pred, y_pred_lower, y_pred_upper)
             end);
  (* an array of [False], one per sample; built from an empty list it
     is an array of floats, which [~] below refuses *)
  miscoverage ←
    compute (match y_pred_upper, y_pred_lower with
             | Some upper, Some lower => miscovered y_true lower upper
             | _, _ =>
                 match y_true with
                 | [] => Raise TypeError
                 | _ => Ok (map (fun _ => false) y_true)
                 end
             end);
  let label :=
    if y_pred_upper is None then "Observation" else "Observation (inside PI)" in
  X_in ← compute (mask_index X (map negb miscoverage));
  y_in ← compute (mask_index y_true (map negb miscoverage));
  _ ← plot X_in y_in (Some "darkgreen") None (Some label);
  let label :=
    if y_pred_upper is None then "Observation" else "Observation (outside PI)" in
  X_out ← compute (mask_index X miscoverage);
  y_out ← compute (mask_index y_true miscoverage);
  _ ← plot X_out y_out None (Some "red") (Some label);
  _ ← match y_pred_upper, y_pred_lower with
      | Some upper, Some lower =>
          _ ← plot X upper (Some "--") (Some "blue") None;
          _ ← plot X lower (Some "--") (Some "blue") None;
          fill_between X upper lower (Some "Prediction Interval")
      | _, _ => mret ()
      end;
  _ ← match y_pred with
      | Some y_pred => plot X y_pred None (Some "k") (Some "Prediction")
      | None => mret ()
      end;
  _ ← call (plt_xlabel "X");
  _ ← call (plt_ylabel "Y");
  let loc := default (PyStr "upper left") (kwargs !! "loc") in
  _ ← call (plt_legend (Some loc));
  match save_path with
  | Some path => if String.eqb path "" then call plt_show else call (plt_savefig path)
  | None => call plt_show
  end.

(** Elementwise arithmetic on arrays, with broadcasting. *)
Definition np_sub (xs ys : list Q) : result (list Q) := broadcast Qminus xs ys.

Definition plot_sorted_pi (y_true y_pred_lower y_pred_upper : list Q)
    (X y_pred : option (list Q)) (kwargs : gmap string pyobj) : P unit :=
  y_pred ← compute (match y_pred with
                    | Some y_pred => Ok y_pred
                    | None =>
                        total ← broadcast Qplus y_pred_upper y_pred_lower;
                        Ok (map (fun t => t / 2) total)
                    end);
  width ← compute (broadcast (fun u l => Qabs (u - l)) y_pred_upper y_pred_lower);
  let sorted_order := argsort width in
  (* Figure configuration *)
  let figsize := default (PyTuple 15 6) (kwargs !! "figsize") in
  _ ← call (plt_figure figsize);
  let X := default (arange (length y_pred_lower)) X in
  (* True values *)
  y_pred_sorted ← compute (fancy_index y_pred sorted_order);
  zero ← compute (np_sub y_pred_sorted y_pred_sorted);
  _ ← plot X zero None (Some "black") (Some "Prediction");
  misscoverage ← compute (miscovered y_true y_pred_lower y_pred_upper);
  misscoverage ← compute (fancy_index misscoverage sorted_order);
  (* True values *)
  X_in ← compute (mask_index X (map negb misscoverage));
  y_true_sorted ← compute (fancy_index y_true sorted_order);
  y_true_in ← compute (mask_index y_true_sorted (map negb misscoverage));
  y_pred_in ← compute (mask_index y_pred_sorted (map negb misscoverage));
  error_in ← compute (np_sub y_true_in y_pred_in);
  _ ← plot X_in error_in None (Some "darkgreen") (Some "Observation (inside PI)");
  X_out ← compute (mask_index X misscoverage);
  y_true_out ← compute (mask_index y_true_sorted misscoverage);
  y_pred_out ← compute (mask_index y_pred_sorted misscoverage);
  error_out ← compute (np_sub y_true_out y_pred_out);
  _ ← plot X_out error_out None (Some "red") (Some "Observation (outside PI)");
  (* PI Lower bound *)
  lower_sorted ← compute (fancy_index y_pred_lower sorted_order);
  lower ← compute (np_sub lower_sorted y_pred_sorted);
  _ ← plot X lower (Some "--") (Some "blue") (Some "Prediction Interval Bounds");
  (* PI upper bound *)
  upper_sorted ← compute (fancy_index y_pred_upper sorted_order);
  upper ← compute (np_sub upper_sorted y_pred_sorted);
  _ ← plot X upper (Some "--") (Some "blue") None;
  _ ← call (plt_legend None);
  call plt_show.

(** The prediction [plot_sorted_pi] works with: the one given, or the
    middle of the interval. *)
Definition centre (lo hi : list Q) (y_pred : option (list Q)) : list Q :=
  default (map (fun t => t / 2) (zip_with Qplus hi lo)) y_pred.

End Plotting.

(** ** Concrete collaborators

    Small collaborators on which the models can be run. *)

Module Instances.
Import Quantile.
Local Open Scope Q_scope.

(** A predictor that answers a constant, a calibrator that is a
    half-width, and a stand-in for [CvPlusCalibrator] that takes the sum
    of the half-widths on either side of zero. *)
Definition constant_canvas : Conformalization.Collaborators := {|
  Conformalization.Features := Q;
  Conformalization.Labels := Q;
  Conformalization.Residuals := list Q;
  Conformalization.Weights := list Q;
  Conformalization.Predictor := Q;
  Conformalization.Calibrator := Q;
  Conformalization.Splitter := unit;
  Conformalization.predictor_predict := fun p _ => Ok (p, None, None, None);
  Conformalization.calibrator_calibrate :=
    fun c _ _ y_pred _ _ _ => Ok (y_pred - c, y_pred + c);
  Conformalization.calibrator_residuals := fun c => [c];
  Conformalization.calibrator_get_weights := fun _ => [];
  Conformalization.CvPlusCalibrator_calibrate :=
    fun cs _ _ _ =>
      let total := map_fold (fun _ c acc => c + acc) 0 cs in
      Ok (- total, total)
|}.

(** A predictor that learns the mean of its training labels, absolute
    residuals, intervals of constant half-width, and a generator whose
    state is a counter: draw [k] of state [g] is
    [(g + k + 2 * k * k + g / 2 * k) mod T]. *)
Definition mean_ensemble : EnbPI.Collaborators := {|
  EnbPI.Sample := Q;
  EnbPI.Predictor := Q;
  EnbPI.predictor_copy := fun p => p;
  EnbPI.predictor_fit :=
    fun _ _ y => Qsum y / inject_Z (Z.of_nat (length y));
  EnbPI.predictor_predict := fun p X => map (fun _ => p) X;
  EnbPI.mad := fun y_pred y_true => zip_with (fun a b => Qabs (a - b)) y_pred y_true;
  EnbPI.constant_interval :=
    fun y_pred w => (map (fun v => v - w) y_pred, map (fun v => v + w) y_pred);
  EnbPI.rng := nat;
  EnbPI.draw := fun g T =>
    (map (fun k => (g + k + 2 * k * k + g / 2 * k) mod T)%nat (seq 0 T), S g);
  EnbPI.seed_rng := Z.to_nat
|}.

(** An unfitted ensemble of three models over the counter generator,
    its training data, and the store holding its (empty) residual list. *)
Definition ensemble0 : EnbPI.EnbPI (H := mean_ensemble) :=
  @EnbPI.Build_EnbPI mean_ensemble
    0                   (* predictor *)
    3                   (* B *)
    EnbPI.np_mean_axis0 (* agg_func_loo *)
    0%nat               (* residuals *)
    None                (* _boot_predictors *)
    None                (* random_state *)
    ∅ ∅                 (* _oob_dict, _boot_dict *)
    None                (* _oob_matrix *).

Definition train_X : list Q := [0; 1; 2].
Definition train_y : list Q := [1; 2; 6].
Definition store0 : gmap nat (list Q) := {[0%nat := []]}.

(** The bootstrap and out-of-bag sets the counter generator yields for
    them, starting from state 0. *)
Definition drawn_boot : gmap nat (list nat) :=
  (<[2 := [2; 0; 2]]> (<[1 := [1; 1; 2]]> (<[0 := [0; 0; 1]]> ∅)))%nat.
Definition drawn_oob : gmap nat (list nat) :=
  (<[2 := [1]]> (<[1 := [0]]> (<[0 := [2]]> ∅)))%nat.

(** A fitted ensemble of two models answering 1 and 3, each training
    sample out-of-bag for one of them. *)
Definition ensemble2 : EnbPI.EnbPI (H := mean_ensemble) :=
  @EnbPI.Build_EnbPI mean_ensemble
    0                   (* predictor *)
    2                   (* B *)
    EnbPI.np_mean_axis0 (* agg_func_loo *)
    0%nat               (* residuals *)
    (Some [1; 3])       (* _boot_predictors *)
    None                (* random_state *)
    ∅ ∅                 (* _oob_dict, _boot_dict *)
    (Some [[1; 0]; [0; 1]]) (* _oob_matrix *).

(** The loop variables before a batch, the pool [1, 2, 3] being the list
    object at location 7. *)
Definition loop0 : EnbPI.loop_state := {|
  EnbPI.y_pred_list := [];
  EnbPI.y_pred_lower_list := [];
  EnbPI.y_pred_upper_list := [];
  EnbPI.updated_residuals := 7%nat;
  EnbPI.res_quantile := 1
|}.

Definition store7 : gmap nat (list Q) := {[7%nat := [1; 2; 3]]}.

(** An aggregator holding one fold, and one holding two. *)
Definition single_fold : Conformalization.CrossValCpAggregator (H := constant_canvas) :=
  @Conformalization.Build_CrossValCpAggregator constant_canvas
    1 {[0%nat := 5]} {[0%nat := 1]} "cv+".

Definition two_folds : Conformalization.CrossValCpAggregator (H := constant_canvas) :=
  @Conformalization.Build_CrossValCpAggregator constant_canvas
    2 (<[1%nat := 7]> {[0%nat := 5]}) (<[1%nat := 2]> {[0%nat := 1]}) "cv+".

(** Training for the constant canvas: two identical splits, a predictor
    that learns the label it is shown, a calibrator that learns the
    absolute error on the calibration data. *)
Definition constant_training : ConformalFit.Training (H := constant_canvas) :=
  @ConformalFit.Build_Training constant_canvas
    (fun (_ : unit) (X y : Q) => [(X, y, X, y); (X, y, X, y)])
    (fun (_ _ y : Q) => @Ok Q y)
    (fun (_ : Q) => true)
    (fun (_ y_true y_pred _ : Q) (_ _ _ : option Q) => @Ok Q (Qabs (y_true - y_pred)))
    (0 : Q).

(** A conformal predictor that trains its predictor, and one that is
    told not to. *)
Definition cp_training : Conformalization.ConformalPredictor (H := constant_canvas) :=
  @Conformalization.ConformalPredictor_init constant_canvas (Some 1) 0 tt "cv+" true.

Definition cp_skip_training : Conformalization.ConformalPredictor (H := constant_canvas) :=
  @Conformalization.ConformalPredictor_init constant_canvas (Some 1) 0 tt "cv+" false.

(** The same with a single split, as a hold-out splitter gives. *)
Definition holdout_training : ConformalFit.Training (H := constant_canvas) :=
  @ConformalFit.Build_Training constant_canvas
    (fun (_ : unit) (X y : Q) => [(X, y, X, y)])
    (fun (_ _ y : Q) => @Ok Q y)
    (fun (_ : Q) => true)
    (fun (_ y_true y_pred _ : Q) (_ _ _ : option Q) => @Ok Q (Qabs (y_true - y_pred)))
    (0 : Q).

(** The ensemble of three models once fitted on the training data, and a
    store in which the residual list holds three values. *)
Definition ensemble3 : EnbPI.EnbPI (H := mean_ensemble) :=
  match (EnbPI.fit_sampled ensemble0 train_X train_y drawn_boot drawn_oob store0).1 with
  | Ok self' => self'
  | Raise _ => ensemble0
  end.

Definition store123 : gmap nat (list Q) := {[0%nat := [1; 2; 3]]}.

(** An unfitted ensemble of a single model, seeded with 0. *)
Definition ensemble_seeded : EnbPI.EnbPI (H := mean_ensemble) :=
  @EnbPI.Build_EnbPI mean_ensemble
    0                   (* predictor *)
    1                   (* B *)
    EnbPI.np_mean_axis0 (* agg_func_loo *)
    0%nat               (* residuals *)
    None                (* _boot_predictors *)
    (Some 0%Z)          (* random_state *)
    ∅ ∅                 (* _oob_dict, _boot_dict *)
    None                (* _oob_matrix *).

(** A numpy for the examples: [np.sum] adds from left to right and
    [np.argsort] is the stable sort. *)
Definition numpy_stable : Quantile.Numpy.
Proof.
  refine {| np_sum l := fold_left fl_add (map Num l) (Num 0);
            np_argsort := argsort |}.
  - intros a. unfold argsort, argsort_of.
    induction (seq 0 (length a)) as [|i idxs IH]; simpl; [done|].
    rewrite <- IH at 2. generalize (foldr (insert_idx a) [] idxs).
    intros l. induction l as [|j l IHl]; simpl; [done|].
    destruct (Qle_bool _ _); [done|].
    rewrite IHl. apply perm_swap.
  - intros a. unfold argsort, argsort_of.
    induction (seq 0 (length a)) as [|i idxs IH]; simpl; [constructor|].
    revert IH. generalize (foldr (insert_idx a) [] idxs).
    intros l. induction 1 as [|j l Hl IHl Hj]; simpl.
    + repeat constructor.
    + destruct (Qle_bool (key a i) (key a j)) eqn:E.
      * apply Qle_bool_iff in E. constructor; [by constructor|].
        constructor; [exact E|].
        eapply Forall_impl; [exact Hj|]. intros k Hk. unfold key_le in *. lra.
      * assert (key a j <= key a i) as Hji.
        { destruct (Qlt_le_dec (key a j) (key a i)) as [?|Hle]; [lra|].
          apply Qle_bool_iff in Hle. congruence. }
        constructor; [exact IHl|].
        assert (insert_idx a i l ≡ₚ i :: l) as ->.
        { clear. induction l as [|k l IH]; simpl; [done|].
          destruct (Qle_bool _ _); [done|]. rewrite IH. apply perm_swap. }
        by constructor.
Defined.

(** Weights that are non-negative binary64 numbers of sum 1 and whose
    running sums round, with an [alpha] just below 1: 1/2, four times
    2^-54 and 1/2 - 2^-52, at [alpha = 1 - 2^-53]. *)
Definition rounding_a : list Q := [1; 2; 3; 4; 5; 6].

Definition rounding_w : list Q :=
  [1 # 2;
   1 # 18014398509481984; 1 # 18014398509481984;
   1 # 18014398509481984; 1 # 18014398509481984;
   2251799813685247 # 4503599627370496].

Definition rounding_alpha : Q := 9007199254740991 # 9007199254740992.

End Instances.

(** * Properties *)

Module QuantileFacts.
Import Quantile.
Local Open Scope Q_scope.

(** *** Sums *)

Lemma Qsum_app (l1 l2 : list Q) : Qsum (l1 ++ l2) == Qsum l1 + Qsum l2.
Proof. induction l1 as [|x l1 IH]; simpl; [|rewrite IH]; ring. Qed.

Lemma Qsum_Permutation (l1 l2 : list Q) : l1 ≡ₚ l2 -> Qsum l1 == Qsum l2.
Proof.
  induction 1 as [|x l1 l2 _ IH|x y l|l1 l2 l3 _ IH1 _ IH2]; simpl.
  - reflexivity.
  - rewrite IH. reflexivity.
  - ring.
  - rewrite IH1. exact IH2.
Qed.

Lemma Qsum_nonneg (l : list Q) : Forall (Qle 0) l -> 0 <= Qsum l.
Proof. induction 1 as [|x l Hx _ IH]; simpl; lra. Qed.

Lemma map_key_seq (w : list Q) : map (key w) (seq 0 (length w)) = w.
Proof.
  apply list_eq. intros i. rewrite list_lookup_fmap.
  destruct (decide (i < length w)%nat) as [Hi|Hi].
  - rewrite lookup_seq_lt by done. simpl.
    destruct (lookup_lt_is_Some_2 w i Hi) as [x Hx].
    rewrite Hx. f_equal. unfold key. by apply nth_lookup_Some.
  - rewrite lookup_seq_ge by lia. simpl. symmetry.
    apply lookup_ge_None. lia.
Qed.

Lemma cumsum_from_length acc l : length (cumsum_from acc l) = length l.
Proof. revert acc. induction l as [|x l IH]; intros acc; simpl; [done|]. by rewrite IH. Qed.

Lemma cumsum_from_lookup acc l k c :
  cumsum_from acc l !! k = Some c -> c == acc + Qsum (take (S k) l).
Proof.
  revert acc k. induction l as [|x l IH]; intros acc k H; [done|].
  destruct k as [|k]; simpl in *.
  - injection H as <-. destruct l; simpl; ring.
  - apply IH in H. rewrite H. simpl. ring.
Qed.

(** *** [argsort] sorts a permutation of the indices *)

Lemma insert_idx_Permutation a i l : insert_idx a i l ≡ₚ i :: l.
Proof.
  induction l as [|j l IH]; simpl; [done|].
  destruct (Qle_bool _ _); [done|].
  rewrite IH. apply perm_swap.
Qed.

Lemma argsort_of_Permutation a idxs : argsort_of a idxs ≡ₚ idxs.
Proof.
  induction idxs as [|i idxs IH]; simpl; [done|].
  rewrite insert_idx_Permutation. by constructor.
Qed.

Lemma argsort_Permutation a : argsort a ≡ₚ seq 0 (length a).
Proof. apply argsort_of_Permutation. Qed.

Lemma insert_idx_sorted a i l :
  StronglySorted (key_le a) l -> StronglySorted (key_le a) (insert_idx a i l).
Proof.
  induction 1 as [|j l Hl IH Hj]; simpl.
  - repeat constructor.
  - destruct (Qle_bool (key a i) (key a j)) eqn:E.
    + apply Qle_bool_iff in E. constructor; [by constructor|].
      constructor; [exact E|].
      eapply Forall_impl; [exact Hj|]. intros k Hk. unfold key_le in *. lra.
    + assert (key a j <= key a i) as Hji.
      { destruct (Qlt_le_dec (key a j) (key a i)) as [?|Hle]; [lra|].
        apply Qle_bool_iff in Hle. congruence. }
      constructor; [exact IH|].
      rewrite insert_idx_Permutation. by constructor.
Qed.

Lemma argsort_of_sorted a idxs : StronglySorted (key_le a) (argsort_of a idxs).
Proof.
  induction idxs as [|i idxs IH]; simpl; [constructor|].
  by apply insert_idx_sorted.
Qed.

Lemma argsort_sorted a : StronglySorted Qle (map (key a) (argsort a)).
Proof.
  pose proof (argsort_of_sorted a (seq 0 (length a))) as H.
  unfold argsort. induction H as [|i l _ IH Hi]; simpl; constructor; [done|].
  by apply Forall_fmap.
Qed.

Lemma argsort_in_range a : Forall (fun i => (i < length a)%nat) (argsort a).
Proof.
  apply Forall_forall. intros i Hi.
  rewrite argsort_Permutation in Hi. apply elem_of_seq in Hi. lia.
Qed.

Lemma argsort_length a : length (argsort a) = length a.
Proof. rewrite argsort_Permutation. apply length_seq. Qed.

(** *** Indexing *)

Lemma getitem_lt xs i : (i < length xs)%nat -> getitem xs i = Ok (key xs i).
Proof.
  intros Hi. unfold getitem.
  destruct (lookup_lt_is_Some_2 xs i Hi) as [x Hx]. rewrite Hx.
  f_equal. symmetry. by apply nth_lookup_Some.
Qed.

Lemma fancy_index_in_range xs idxs :
  Forall (fun i => (i < length xs)%nat) idxs ->
  fancy_index xs idxs = Ok (map (key xs) idxs).
Proof.
  unfold fancy_index. induction 1 as [|i idxs Hi _ IH]; simpl; [done|].
  rewrite getitem_lt by done. simpl. rewrite IH. done.
Qed.

(** The head of [xs[mask]] sits at the first position whose mask bit is
    set; the selection is empty exactly when no bit is set. *)
Lemma boolean_index_head {A B : Type} (f : B -> bool) (xs : list A) (cs : list B) :
  length xs = length cs ->
  match boolean_index xs (map f cs) with
  | [] => Forall (fun c => f c = false) cs
  | x :: _ =>
      exists k c, xs !! k = Some x /\ cs !! k = Some c /\ f c = true /\
        forall k' c', (k' < k)%nat -> cs !! k' = Some c' -> f c' = false
  end.
Proof.
  revert cs. induction xs as [|x xs IH]; intros [|c cs] Hlen; simplify_eq/=.
  - constructor.
  - destruct (f c) eqn:E.
    + exists 0%nat, c. repeat split; try done. intros; lia.
    + specialize (IH cs Hlen). destruct (boolean_index xs (map f cs)) as [|y ys].
      * by constructor.
      * destruct IH as (k & c0 & Hx & Hc & Hf & Hbefore).
        exists (S k), c0. repeat split; try done.
        intros [|k'] c' Hk' Hc'; simplify_eq/=; [done|].
        eapply Hbefore; [|done]. lia.
Qed.

Lemma Qle_bool_false x y : Qle_bool x y = false <-> y < x.
Proof.
  split.
  - intros H. destruct (Qlt_le_dec y x) as [?|Hle]; [done|].
    apply Qle_bool_iff in Hle. congruence.
  - intros H. destruct (Qle_bool x y) eqn:E; [|done].
    apply Qle_bool_iff in E. lra.
Qed.

Lemma alpha_check_pass alpha :
  0 < alpha -> alpha < 1 -> Qle_bool alpha 0 || Qle_bool 1 alpha = false.
Proof.
  intros H0 H1. apply orb_false_intro; by apply Qle_bool_false.
Qed.

(** *** Rounding to binary64 *)

Lemma rne_mono (x y : Q) : x <= y -> (rne x <= rne y)%Z.
Proof.
  intros Hxy. unfold rne.
  pose proof (Qfloor_resp_le _ _ Hxy) as Hf.
  pose proof (Qfloor_le x) as Hx1. pose proof (Qlt_floor x) as Hx2.
  pose proof (Qfloor_le y) as Hy1. pose proof (Qlt_floor y) as Hy2.
  destruct (Z.eq_dec (Qfloor x) (Qfloor y)) as [Heq|Hne].
  - rewrite <- Heq in *.
    destruct (Qcompare_spec (x - inject_Z (Qfloor x)) (1 # 2)),
             (Qcompare_spec (y - inject_Z (Qfloor x)) (1 # 2));
      try destruct (Z.even (Qfloor x)); try lia; exfalso; lra.
  - destruct (Qcompare (x - inject_Z (Qfloor x)) (1 # 2)),
             (Qcompare (y - inject_Z (Qfloor y)) (1 # 2));
      try destruct (Z.even (Qfloor x)); try destruct (Z.even (Qfloor y)); lia.
Qed.

Lemma rne_inject_Z (k : Z) : rne (inject_Z k) = k.
Proof.
  unfold rne. rewrite Qfloor_Z.
  destruct (Qcompare_spec (inject_Z k - inject_Z k) (1 # 2)) as [E|E|E];
    [exfalso; lra|done|exfalso; lra].
Qed.

Lemma grid_pos : 0 < grid.
Proof.
  unfold grid. change 0 with (inject_Z 0). rewrite <- Zlt_Qlt.
  by apply Z.pow_pos_nonneg.
Qed.

Lemma pow2_pos (e : Z) : (0 <= e)%Z -> 0 < inject_Z (2 ^ e).
Proof.
  intros He. change 0 with (inject_Z 0). rewrite <- Zlt_Qlt.
  by apply Z.pow_pos_nonneg.
Qed.

(** Rounding keeps the order of the non-negative numbers. *)
Lemma round_pos_mono (x y : Q) : 0 <= x -> x <= y -> round_pos x <= round_pos y.
Proof.
  intros H0 Hxy. unfold round_pos. rewrite !Qred_correct.
  pose proof grid_pos as Hg.
  set (X := x * grid). set (Y := y * grid).
  assert (0 <= X) as HX0 by (unfold X; nra).
  assert (X <= Y) as HXY by (unfold X, Y; nra).
  pose proof (Qfloor_resp_le _ _ HX0) as HN0. change (Qfloor 0) with 0%Z in HN0.
  pose proof (Qfloor_resp_le _ _ HXY) as HN.
  pose proof (Qfloor_le Y) as HY1. pose proof (Qlt_floor X) as HX2.
  set (Nx := Qfloor X) in *. set (Ny := Qfloor Y) in *.
  pose proof (Z.log2_le_mono _ _ HN) as Hlog.
  set (ex := Z.max (Z.log2 Nx - 52) 0). set (ey := Z.max (Z.log2 Ny - 52) 0).
  assert (0 <= ex)%Z as Hex0 by (unfold ex; lia).
  assert (ex <= ey)%Z as Hexy by (unfold ex, ey; lia).
  pose proof (pow2_pos ex Hex0) as Hpx.
  assert (0 < inject_Z (2 ^ ey)) as Hpy by (apply pow2_pos; lia).
  unfold Qdiv at 1 3. apply Qmult_le_compat_r; [|apply Qinv_le_0_compat; lra].
  rewrite <- Zle_Qle.
  destruct (Z.eq_dec ex ey) as [Heq|Hne].
  - rewrite <- Heq. apply Z.mul_le_mono_nonneg_r; [by apply Z.pow_nonneg|].
    apply rne_mono. unfold Qdiv. apply Qmult_le_compat_r; [done|].
    apply Qinv_le_0_compat. lra.
  - assert (rne (X / inject_Z (2 ^ ex)) <= 2 ^ 53)%Z as Hrx.
    { rewrite <- (rne_inject_Z (2 ^ 53)). apply rne_mono.
      apply Qle_shift_div_r; [done|].
      rewrite <- inject_Z_mult, <- Z.pow_add_r by lia.
      apply Qlt_le_weak, (Qlt_le_trans _ _ _ HX2). rewrite <- Zle_Qle.
      destruct (Z.eq_dec Nx 0) as [->|HNx].
      - assert (0 < 2 ^ (53 + ex))%Z by (apply Z.pow_pos_nonneg; lia). lia.
      - destruct (Z.log2_spec Nx) as [_ Hup]; [lia|].
        assert (2 ^ Z.succ (Z.log2 Nx) <= 2 ^ (53 + ex))%Z
          by (apply Z.pow_le_mono_r; unfold ex; lia).
        lia. }
    assert (2 ^ 52 <= rne (Y / inject_Z (2 ^ ey)))%Z as Hry.
    { rewrite <- (rne_inject_Z (2 ^ 52)) at 1. apply rne_mono.
      apply Qle_shift_div_l; [done|].
      rewrite <- inject_Z_mult, <- Z.pow_add_r by lia.
      apply (Qle_trans _ (inject_Z Ny)); [|done]. rewrite <- Zle_Qle.
      assert (0 < Ny)%Z as HNy.
      { destruct (Z.le_gt_cases Ny 0) as [Hle|]; [|done].
        apply Z.log2_nonpos in Hle. unfold ey in *. lia. }
      destruct (Z.log2_spec Ny HNy) as [Hlow _].
      replace (52 + ey)%Z with (Z.log2 Ny) by (unfold ey in *; lia). done. }
    apply (Z.le_trans _ (2 ^ 53 * 2 ^ ex)).
    { apply Z.mul_le_mono_nonneg_r; [by apply Z.pow_nonneg|done]. }
    apply (Z.le_trans _ (2 ^ 52 * 2 ^ ey)).
    { rewrite <- !Z.pow_add_r by lia. apply Z.pow_le_mono_r; lia. }
    apply Z.mul_le_mono_nonneg_r; [by apply Z.pow_nonneg|done].
Qed.

Lemma round_pos_nonneg (x : Q) : 0 <= x -> 0 <= round_pos x.
Proof.
  intros H0. apply (Qle_trans _ (round_pos 0)); [|by apply round_pos_mono].
  vm_compute. discriminate.
Qed.

(** Hence rounding keeps a bound on the distance, as much as rounding
    the bound allows. *)
Lemma round_finite_abs_le (d c : Q) :
  Qabs d <= c -> Qabs (round_finite d) <= round_pos c.
Proof.
  intros Hd. unfold round_finite. destruct (Qle_bool 0 d) eqn:E.
  - apply Qle_bool_iff in E. rewrite (Qabs_pos d E) in Hd.
    rewrite Qabs_pos by by apply round_pos_nonneg.
    by apply round_pos_mono.
  - assert (d <= 0) as Hneg.
    { destruct (Qlt_le_dec 0 d) as [Hlt|]; [|done].
      apply Qlt_le_weak, Qle_bool_iff in Hlt. congruence. }
    rewrite (Qabs_neg d Hneg) in Hd.
    rewrite Qabs_opp, Qabs_pos by (apply round_pos_nonneg; lra).
    apply round_pos_mono; [lra|done].
Qed.

Lemma round_finite_abs_ge (d c : Q) :
  0 <= c -> c <= Qabs d -> round_pos c <= Qabs (round_finite d).
Proof.
  intros Hc Hd. unfold round_finite. destruct (Qle_bool 0 d) eqn:E.
  - apply Qle_bool_iff in E. rewrite (Qabs_pos d E) in Hd.
    rewrite Qabs_pos by by apply round_pos_nonneg.
    by apply round_pos_mono.
  - assert (d <= 0) as Hneg.
    { destruct (Qlt_le_dec 0 d) as [Hlt|]; [|done].
      apply Qlt_le_weak, Qle_bool_iff in Hlt. congruence. }
    rewrite (Qabs_neg d Hneg) in Hd.
    rewrite Qabs_opp, Qabs_pos by (apply round_pos_nonneg; lra).
    by apply round_pos_mono.
Qed.

(** The normalisation check passes a sum within 1e-6 of 1, and fails one
    further than 1.2e-5 from 1: the tolerance [np.isclose] computes,
    [1e-6 + 1e-5 * 1] rounded, lies in between. *)
Lemma np_isclose_within (s : float64) :
  sum_within atol s -> np_isclose s 1 atol = true.
Proof.
  destruct s as [q| | |]; cbn [sum_within sum_off np_isclose]; try done. intros H.
  apply Qle_bool_iff. apply (Qle_trans _ (round_pos atol)).
  - by apply round_finite_abs_le.
  - vm_compute. discriminate.
Qed.

Lemma np_isclose_beyond (s : float64) :
  sum_off (12 # 1000000) s -> np_isclose s 1 atol = false.
Proof.
  destruct s as [q| | |]; cbn [sum_within sum_off np_isclose]; try done. intros H.
  apply Qle_bool_false. apply (Qlt_le_trans _ (round_pos (12 # 1000000))).
  - vm_compute. reflexivity.
  - apply round_finite_abs_ge; [discriminate|by apply Qlt_le_weak].
Qed.

Lemma np_isclose_off (s : float64) :
  np_isclose s 1 atol = false -> sum_off atol s.
Proof.
  destruct s as [q| | |]; cbn [sum_within sum_off np_isclose]; try done. intros H.
  destruct (Qlt_le_dec atol (Qabs (q - 1))) as [|Hle]; [done|].
  pose proof (np_isclose_within (Num q) Hle) as Ht. cbn [np_isclose] in Ht. congruence.
Qed.

(** *** What [np.argsort] and [np.cumsum] return *)

Lemma np_argsort_in_range {np : Numpy} (a : list Q) :
  Forall (fun i => (i < length a)%nat) (np_argsort a).
Proof.
  apply Forall_forall. intros i Hi.
  rewrite np_argsort_perm in Hi. apply elem_of_seq in Hi. lia.
Qed.

Lemma np_argsort_length {np : Numpy} (a : list Q) : length (np_argsort a) = length a.
Proof. rewrite np_argsort_perm. apply length_seq. Qed.

Lemma np_argsort_values_sorted {np : Numpy} (a : list Q) :
  StronglySorted Qle (map (key a) (np_argsort a)).
Proof.
  pose proof (np_argsort_sorted a) as Hs. revert Hs.
  generalize (np_argsort a). intros l Hs.
  induction Hs as [|j l _ IH Hj]; simpl; constructor; [done|].
  by apply Forall_fmap.
Qed.

Lemma np_cumsum_from_length acc l : length (np_cumsum_from acc l) = length l.
Proof. revert acc. induction l as [|x l IH]; intros acc; simpl; [done|]. by rewrite IH. Qed.

Lemma np_cumsum_length l : length (np_cumsum l) = length l.
Proof. destruct l; simpl; [done|]. by rewrite np_cumsum_from_length. Qed.

(** Where no addition rounds, the mask is that of the exact running
    sums. *)
Lemma fl_ge_exact (fs : list float64) (qs : list Q) (alpha : Q) :
  Forall2 is_num fs qs ->
  map (fun c => fl_ge c alpha) fs = map (Qle_bool alpha) qs.
Proof.
  induction 1 as [|f q fs qs Hf _ IH]; simpl; [done|]. f_equal; [|done].
  destruct f as [s| | |]; simpl in Hf; try done. simpl.
  destruct (Qle_bool alpha q) eqn:E.
  - apply Qle_bool_iff. apply Qle_bool_iff in E. lra.
  - apply Qle_bool_false. apply Qle_bool_false in E. lra.
Qed.

(** *** The weighted branch *)

(** Past the checks, [quantile] reads [a] at the head of the selected
    indices. *)
Lemma quantile_weighted_run {np : Numpy} (a w : list Q) (alpha : Q) :
  0 < alpha -> alpha < 1 ->
  length w = length a ->
  np_isclose (np_sum w) 1 atol = true ->
  quantile (Arr1 a) alpha (Some (Arr1 w)) =
  match boolean_index (np_argsort a)
          (map (fun c => fl_ge c alpha)
               (np_cumsum (map (key w) (np_argsort a)))) with
  | [] => Raise IndexError
  | i :: _ => getitem a i
  end.
Proof.
  intros H0 H1 Hlen Hclose.
  unfold quantile. rewrite alpha_check_pass by done. simpl.
  rewrite Hlen, Nat.eqb_refl, Hclose. simpl.
  rewrite fancy_index_in_range by (rewrite Hlen; apply np_argsort_in_range).
  done.
Qed.

(** The head of the selection is the index at the first position whose
    running sum reaches [alpha]; the selection is empty when none does. *)
Lemma mask_head {np : Numpy} (a w : list Q) (alpha : Q) :
  match boolean_index (np_argsort a)
          (map (fun c => fl_ge c alpha)
               (np_cumsum (map (key w) (np_argsort a)))) with
  | [] => unreached a w alpha
  | i :: _ =>
      exists k c,
        np_argsort a !! k = Some i /\
        np_cumsum (map (key w) (np_argsort a)) !! k = Some c /\
        fl_ge c alpha = true /\
        forall k' c', (k' < k)%nat ->
          np_cumsum (map (key w) (np_argsort a)) !! k' = Some c' ->
          fl_ge c' alpha = false
  end.
Proof.
  apply (boolean_index_head (fun c => fl_ge c alpha)).
  by rewrite np_cumsum_length, length_map.
Qed.

(** Once the checks pass and some running sum reaches [alpha], the
    weighted branch returns the residual at the first sorted position
    whose running sum reaches [alpha]. *)
Lemma quantile_weighted_first {np : Numpy} (a w : list Q) (alpha : Q) :
  0 < alpha -> alpha < 1 ->
  length w = length a ->
  np_isclose (np_sum w) 1 atol = true ->
  reached a w alpha ->
  exists k i v c,
    np_argsort a !! k = Some i /\
    a !! i = Some v /\
    np_cumsum (map (key w) (np_argsort a)) !! k = Some c /\
    fl_ge c alpha = true /\
    (forall k' c', (k' < k)%nat ->
       np_cumsum (map (key w) (np_argsort a)) !! k' = Some c' ->
       fl_ge c' alpha = false) /\
    quantile (Arr1 a) alpha (Some (Arr1 w)) = Ok v.
Proof.
  intros H0 H1 Hlen Hclose Hreach.
  rewrite quantile_weighted_run by done.
  pose proof (mask_head a w alpha) as Hhead.
  destruct (boolean_index _ _) as [|i rest].
  - exfalso. apply Exists_exists in Hreach as (c & Hc & Hf).
    pose proof (proj1 (Forall_forall _ _) Hhead c Hc) as Hn. simpl in Hn.
    congruence.
  - destruct Hhead as (k & c & Hk & Hc & Hf & Hbefore).
    assert (i < length a)%nat as Hi.
    { eapply (proj1 (Forall_lookup _ _) (np_argsort_in_range a)); eauto. }
    destruct (lookup_lt_is_Some_2 a i Hi) as [v Hv].
    exists k, i, v, c. repeat split; try done.
    unfold getitem. by rewrite Hv.
Qed.

(** Conversely a value comes from such a position only. *)
Lemma quantile_weighted_inv {np : Numpy} (a w : list Q) (alpha v : Q) :
  quantile (Arr1 a) alpha (Some (Arr1 w)) = Ok v ->
  exists k i c,
    np_argsort a !! k = Some i /\
    a !! i = Some v /\
    np_cumsum (map (key w) (np_argsort a)) !! k = Some c /\
    fl_ge c alpha = true /\
    (forall k' c', (k' < k)%nat ->
       np_cumsum (map (key w) (np_argsort a)) !! k' = Some c' ->
       fl_ge c' alpha = false).
Proof.
  unfold quantile. destruct (_ || _); [done|]. simpl.
  destruct (length w =? length a)%nat eqn:E; simpl; [|done].
  destruct (np_isclose _ _ _); simpl; [|done].
  apply Nat.eqb_eq in E.
  rewrite fancy_index_in_range by (rewrite E; apply np_argsort_in_range).
  simpl. pose proof (mask_head a w alpha) as Hhead.
  destruct (boolean_index _ _) as [|i rest]; [done|].
  intros Hg. destruct Hhead as (k & c & Hk & Hc & Hf & Hbefore).
  exists k, i, c. repeat split; try done.
  unfold getitem in Hg. destruct (a !! i); by simplify_eq.
Qed.

(** Where no addition rounds and the total weight reaches [alpha], that
    position is the first whose cumulative weight reaches [alpha]. *)
Lemma quantile_exact_first {np : Numpy} (a w : list Q) (alpha : Q) :
  0 < alpha -> alpha < 1 ->
  length w = length a ->
  np_isclose (np_sum w) 1 atol = true ->
  sums_exact a w ->
  alpha <= Qsum w ->
  exists k i v,
    np_argsort a !! k = Some i /\
    a !! i = Some v /\
    alpha <= cum_weight w (np_argsort a) k /\
    (forall k', (k' < k)%nat -> cum_weight w (np_argsort a) k' < alpha) /\
    quantile (Arr1 a) alpha (Some (Arr1 w)) = Ok v.
Proof.
  intros H0 H1 Hlen Hclose Hexact Hreach.
  rewrite quantile_weighted_run by done.
  rewrite (fl_ge_exact _ _ alpha Hexact).
  set (ws := map (key w) (np_argsort a)).
  assert (length ws = length a) as Hws.
  { unfold ws. by rewrite length_map, np_argsort_length. }
  assert (Qsum ws == Qsum w) as Hsum.
  { unfold ws. rewrite (Qsum_Permutation _ (map (key w) (seq 0 (length w)))).
    - by rewrite map_key_seq.
    - apply Permutation_map. rewrite Hlen. apply np_argsort_perm. }
  assert (forall k c, cumsum ws !! k = Some c -> c == cum_weight w (np_argsort a) k) as Hcum.
  { intros k c Hc. apply cumsum_from_lookup in Hc. rewrite Hc.
    unfold cum_weight, ws. rewrite firstn_map. ring. }
  pose proof (boolean_index_head (Qle_bool alpha) (np_argsort a) (cumsum ws)) as Hhead.
  unfold cumsum in Hhead at 1. rewrite cumsum_from_length, Hws, np_argsort_length in Hhead.
  specialize (Hhead eq_refl).
  destruct (boolean_index (np_argsort a) (map (Qle_bool alpha) (cumsum ws)))
    as [|i rest].
  - (* no position reaches alpha: impossible, the last one carries the total *)
    exfalso.
    assert (length a <> 0)%nat as Hne.
    { intros Hz. destruct w; [simpl in Hreach; lra|]. simpl in Hlen. lia. }
    assert (exists c, cumsum ws !! (length a - 1)%nat = Some c) as [c Hc].
    { apply lookup_lt_is_Some_2. unfold cumsum. rewrite cumsum_from_length. lia. }
    pose proof (proj1 (Forall_lookup _ _) Hhead _ _ Hc) as Hfalse.
    apply Qle_bool_false in Hfalse.
    apply cumsum_from_lookup in Hc.
    rewrite take_ge in Hc by lia. lra.
  - destruct Hhead as (k & c & Hk & Hc & Hf & Hbefore).
    assert (i < length a)%nat as Hi.
    { eapply (proj1 (Forall_lookup _ _) (np_argsort_in_range a)); eauto. }
    destruct (lookup_lt_is_Some_2 a i Hi) as [v Hv].
    exists k, i, v. repeat split; try done.
    + apply Qle_bool_iff in Hf. rewrite <- (Hcum _ _ Hc). done.
    + intros k' Hk'.
      assert (exists c', cumsum ws !! k' = Some c') as [c' Hc'].
      { apply lookup_lt_is_Some_2. apply lookup_lt_Some in Hc. lia. }
      rewrite <- (Hcum _ _ Hc'). apply Qle_bool_false. eauto.
    + unfold getitem. by rewrite Hv.
Qed.

(** C1 does not hold of the code.  The cumulative weight of weights that
    sum to 1 reaches every [alpha] below 1 in exact arithmetic; the code adds
    the weights in binary64, where the running sums round and may all stay
    below [alpha].  For a one-dimensional [a], [alpha] strictly between 0
    and 1 and weights of the same length that pass the normalisation
    check, when no running sum of [np.cumsum] reaches [alpha] the
    selection is empty and [quantile] ends in the [IndexError] of taking
    its first entry: it returns no element of [a]. *)
Theorem quantile_weight_unreached {np : Numpy} (a w : list Q) (alpha : Q) :
  0 < alpha -> alpha < 1 ->
  length w = length a ->
  np_isclose (np_sum w) 1 atol = true ->
  unreached a w alpha ->
  quantile (Arr1 a) alpha (Some (Arr1 w)) = Raise IndexError.
Proof.
  intros H0 H1 Hlen Hclose Hun.
  rewrite quantile_weighted_run by done.
  pose proof (mask_head a w alpha) as Hhead.
  destruct (boolean_index _ _) as [|i rest]; [done|].
  exfalso. destruct Hhead as (k & c & _ & Hc & Hf & _).
  apply list_elem_of_lookup_2 in Hc.
  pose proof (proj1 (Forall_forall _ _) Hun c Hc) as Hn. simpl in Hn.
  congruence.
Qed.

(** The weights 1/2, four times 2^-54 and 1/2 - 2^-52 are non-negative
    binary64 numbers whose sum is 1, and in exact arithmetic their
    cumulative weight reaches [alpha = 1 - 2^-53] at the last position; as
    [np.cumsum] adds them the running sum stays at 1/2 four times and ends
    at 1 - 2^-52, below [alpha]. *)
Lemma quantile_weight_unreached_witness :
  Forall (Qle 0) Instances.rounding_w /\
  Qsum Instances.rounding_w == 1 /\
  Instances.rounding_alpha
  <= cum_weight Instances.rounding_w
       (np_argsort (Numpy := Instances.numpy_stable) Instances.rounding_a) 5 /\
  quantile (np := Instances.numpy_stable) (Arr1 Instances.rounding_a)
    Instances.rounding_alpha (Some (Arr1 Instances.rounding_w))
  = Raise IndexError.
Proof.
  split; [repeat constructor; discriminate|].
  split; [reflexivity|].
  split; [vm_compute; discriminate|].
  apply (quantile_weight_unreached (np := Instances.numpy_stable)
           Instances.rounding_a Instances.rounding_w Instances.rounding_alpha).
  - reflexivity.
  - reflexivity.
  - reflexivity.
  - vm_compute. reflexivity.
  - vm_compute. repeat constructor.
Defined.

(** On that input the running sums are 1/2, 1/2, 1/2, 1/2, 1/2 and
    1 - 2^-52. *)
Example quantile_rounding_sums :
  np_cumsum Instances.rounding_w
  = [Num (1 # 2); Num (1 # 2); Num (1 # 2); Num (1 # 2); Num (1 # 2);
     Num (4503599627370495 # 4503599627370496)].
Proof. vm_compute. reflexivity. Qed.

(** Seven weights 1/7, as binary64 numbers: the running sums end at
    1 - 2^-52 and [alpha = 1 - 2^-53] is not reached. *)
Example quantile_uniform_sevenths :
  quantile (np := Instances.numpy_stable) (Arr1 [1; 2; 3; 4; 5; 6; 7])
    Instances.rounding_alpha (Some (Arr1 (replicate 7 (round_finite (1 # 7)))))
  = Raise IndexError.
Proof. vm_compute. reflexivity. Qed.

(** Rounding goes the other way too: the weights 1/2, 1/4 - 2^-55 and
    1/4 - 2^-53 sum to less than [alpha = 1 - 2^-53], the running sums
    round up to it and [quantile] answers. *)
Example quantile_rounding_reached :
  Qsum [1 # 2; 9007199254740991 # 36028797018963968;
        2251799813685247 # 9007199254740992] < Instances.rounding_alpha /\
  quantile (np := Instances.numpy_stable) (Arr1 [1; 2; 3])
    Instances.rounding_alpha
    (Some (Arr1 [1 # 2; 9007199254740991 # 36028797018963968;
                 2251799813685247 # 9007199254740992]))
  = Ok 3.
Proof. split; vm_compute; reflexivity. Qed.

(** On weights that add without rounding the sorted order is 1, 2, 3
    with weights 1/4, 1/2, 1/4: the cumulative weight reaches 1/2 at the
    second position. *)
Example quantile_weighted_example :
  quantile (np := Instances.numpy_stable) (Arr1 [3; 1; 2]) (1 # 2)
    (Some (Arr1 [1 # 4; 1 # 4; 1 # 2])) = Ok 2.
Proof. vm_compute. reflexivity. Qed.

(** *** Ties

    [np.argsort] may order equal residuals either way.  Where no addition
    rounds, the residual at the first position that reaches [alpha] does
    not depend on it: it is the residual [v] with less than [alpha] of
    the weight below it and at least [alpha] up to it. *)

Lemma key_nonneg (w : list Q) (j : nat) : Forall (Qle 0) w -> 0 <= key w j.
Proof.
  intros Hw. unfold key. destruct (decide (j < length w)%nat) as [Hj|Hj].
  - destruct (lookup_lt_is_Some_2 w j Hj) as [x Hx].
    rewrite (nth_lookup_Some _ _ _ _ Hx).
    by eapply (proj1 (Forall_lookup _ _) Hw).
  - rewrite nth_overflow by lia. lra.
Qed.

Lemma mass_app P a w l1 l2 : mass P a w (l1 ++ l2) == mass P a w l1 + mass P a w l2.
Proof. unfold mass. rewrite map_app. apply Qsum_app. Qed.

Lemma mass_Permutation P a w l1 l2 : l1 ≡ₚ l2 -> mass P a w l1 == mass P a w l2.
Proof. intros Hp. unfold mass. by apply Qsum_Permutation, Permutation_map. Qed.

Lemma mass_nonneg P a w l : Forall (Qle 0) w -> 0 <= mass P a w l.
Proof.
  intros Hw. unfold mass. apply Qsum_nonneg, Forall_fmap, Forall_forall.
  intros j _. simpl. destruct (P (key a j)); [by apply key_nonneg|lra].
Qed.

Lemma mass_le_weight P a w l : Forall (Qle 0) w -> mass P a w l <= Qsum (map (key w) l).
Proof.
  intros Hw. unfold mass. induction l as [|j l IH]; simpl; [lra|].
  pose proof (key_nonneg w j Hw). destruct (P (key a j)); lra.
Qed.

Lemma mass_all P a w l :
  Forall (fun j => P (key a j) = true) l -> mass P a w l == Qsum (map (key w) l).
Proof.
  unfold mass. induction 1 as [|j l Hj _ IH]; simpl; [reflexivity|].
  rewrite Hj, IH. reflexivity.
Qed.

Lemma mass_none P a w l :
  Forall (fun j => P (key a j) = false) l -> mass P a w l == 0.
Proof.
  unfold mass. induction 1 as [|j l Hj _ IH]; simpl; [reflexivity|].
  rewrite Hj, IH. ring.
Qed.

Lemma mass_mono P1 P2 a w l :
  Forall (Qle 0) w ->
  (forall x, P1 x = true -> P2 x = true) ->
  mass P1 a w l <= mass P2 a w l.
Proof.
  intros Hw Himp. unfold mass. induction l as [|j l IH]; simpl; [lra|].
  pose proof (key_nonneg w j Hw).
  destruct (P1 (key a j)) eqn:E1.
  - rewrite (Himp _ E1). lra.
  - destruct (P2 (key a j)); lra.
Qed.

(** Along an ascending order, earlier positions hold smaller residuals. *)
Lemma sorted_lookup_le a idxs p q i j :
  StronglySorted (key_le a) idxs ->
  (p <= q)%nat -> idxs !! p = Some i -> idxs !! q = Some j ->
  key a i <= key a j.
Proof.
  intros Hs. revert p q. induction Hs as [|x l _ IH Hx]; intros p q Hpq Hp Hq.
  - done.
  - destruct p as [|p], q as [|q]; simplify_eq/=; try lia.
    + lra.
    + apply (proj1 (Forall_forall _ _) Hx). by eapply list_elem_of_lookup_2.
    + eapply (IH p q); eauto. lia.
Qed.

(** In any ascending order of [a], the position that first reaches
    [alpha] holds a residual with less than [alpha] of the weight below
    it and at least [alpha] up to it. *)
Lemma first_position_mass a w alpha idxs k i :
  Forall (Qle 0) w -> 0 < alpha ->
  idxs ≡ₚ seq 0 (length a) ->
  StronglySorted (key_le a) idxs ->
  idxs !! k = Some i ->
  alpha <= cum_weight w idxs k ->
  (forall k', (k' < k)%nat -> cum_weight w idxs k' < alpha) ->
  mass_below (key a i) a w < alpha /\ alpha <= mass_upto (key a i) a w.
Proof.
  intros Hw H0 Hperm Hsorted Hk Hge Hlt. unfold mass_below, mass_upto. split.
  - rewrite <- (mass_Permutation _ a w _ _ Hperm).
    rewrite <- (take_drop k idxs), mass_app.
    rewrite (mass_none _ a w (drop k idxs)).
    + assert (Qsum (map (key w) (take k idxs)) < alpha) as Hprev.
      { destruct k as [|k]; [simpl; lra|]. apply (Hlt k). lia. }
      pose proof (mass_le_weight (fun x => negb (Qle_bool (key a i) x)) a w
                    (take k idxs) Hw). lra.
    + apply Forall_forall. intros j Hj.
      apply list_elem_of_lookup in Hj as [q Hq]. rewrite lookup_drop in Hq.
      apply negb_false_iff, Qle_bool_iff.
      eapply (sorted_lookup_le a idxs k (k + q)); eauto. lia.
  - rewrite <- (mass_Permutation _ a w _ _ Hperm).
    rewrite <- (take_drop (S k) idxs), mass_app.
    rewrite (mass_all _ a w (take (S k) idxs)).
    + pose proof (mass_nonneg (fun x => Qle_bool x (key a i)) a w
                    (drop (S k) idxs) Hw).
      unfold cum_weight in Hge. lra.
    + apply Forall_forall. intros j Hj.
      apply list_elem_of_lookup in Hj as [q Hq].
      apply lookup_take_Some in Hq as [Hq Hlt'].
      apply Qle_bool_iff.
      eapply (sorted_lookup_le a idxs q k); eauto. lia.
Qed.

(** Only one residual value has that property. *)
Lemma mass_bounds_unique a w alpha v1 v2 :
  Forall (Qle 0) w ->
  mass_below v1 a w < alpha -> alpha <= mass_upto v1 a w ->
  mass_below v2 a w < alpha -> alpha <= mass_upto v2 a w ->
  v1 == v2.
Proof.
  intros Hw Hb1 Hu1 Hb2 Hu2.
  assert (forall u v, u < v -> mass_upto u a w <= mass_below v a w) as Hcross.
  { intros u v Huv. apply mass_mono; [done|].
    intros x Hx%Qle_bool_iff. apply negb_true_iff, Qle_bool_false. lra. }
  destruct (Q_dec v1 v2) as [[Hlt|Hgt]|Heq]; [| |done].
  - pose proof (Hcross _ _ Hlt). lra.
  - pose proof (Hcross _ _ Hgt). lra.
Qed.

(** Whichever ascending order of [a] is taken, where no addition rounds
    the residual at its first position that reaches [alpha] is the one
    [quantile] returns. *)
Lemma quantile_any_ascending_order {np : Numpy} (a w : list Q) (alpha : Q) idxs k i v :
  0 < alpha -> alpha < 1 ->
  length w = length a ->
  Forall (Qle 0) w ->
  Qsum w == 1 ->
  np_isclose (np_sum w) 1 atol = true ->
  sums_exact a w ->
  idxs ≡ₚ seq 0 (length a) ->
  StronglySorted (key_le a) idxs ->
  idxs !! k = Some i ->
  alpha <= cum_weight w idxs k ->
  (forall k', (k' < k)%nat -> cum_weight w idxs k' < alpha) ->
  quantile (Arr1 a) alpha (Some (Arr1 w)) = Ok v ->
  v == key a i.
Proof.
  intros H0 H1 Hlen Hw Hsum Hclose Hexact Hperm Hsorted Hk Hge Hlt Hq.
  destruct (quantile_exact_first a w alpha)
    as (k0 & i0 & v0 & Hk0 & Hv0 & Hge0 & Hlt0 & Hq0); try done.
  { lra. }
  rewrite Hq0 in Hq. injection Hq as <-.
  assert (v0 = key a i0) as ->.
  { unfold key. symmetry. by apply nth_lookup_Some. }
  destruct (first_position_mass a w alpha (np_argsort a) k0 i0) as [Hb0 Hu0];
    try done; [apply np_argsort_perm|apply np_argsort_sorted|].
  destruct (first_position_mass a w alpha idxs k i) as [Hb Hu]; try done.
  by eapply mass_bounds_unique.
Qed.

(** *** Which inputs are rejected *)

Lemma getitem_benign {A : Type} (xs : list A) i :
  returns (getitem xs i) \/ getitem xs i = Raise IndexError.
Proof. unfold getitem. destruct (xs !! i); [left; by eexists|by right]. Qed.

Lemma fancy_index_benign {A : Type} (xs : list A) idxs :
  returns (fancy_index xs idxs) \/ fancy_index xs idxs = Raise IndexError.
Proof.
  unfold fancy_index. induction idxs as [|i idxs IH]; simpl; [left; by eexists|].
  destruct (getitem_benign xs i) as [[x ->]| ->]; simpl; [|by right].
  destruct IH as [[r ->]| ->]; simpl; [left; by eexists|by right].
Qed.

Lemma np_quantile_higher_benign xs alpha :
  returns (np_quantile_higher xs alpha) \/ np_quantile_higher xs alpha = Raise IndexError.
Proof.
  unfold np_quantile_higher. destruct xs as [|x xs]; [by right|].
  destruct (argsort _ !! _); [apply getitem_benign|by right].
Qed.

Lemma benign_not_validation {A : Type} (r : result A) :
  returns r \/ r = Raise IndexError -> ~ validation_error r.
Proof. intros [[v ->]| ->] [H|[H|H]]; discriminate. Qed.

Lemma np_quantile_higher_returns xs alpha :
  0 < alpha -> alpha < 1 -> xs <> [] -> returns (np_quantile_higher xs alpha).
Proof.
  intros H0 H1 Hne. unfold np_quantile_higher.
  destruct xs as [|x xs]; [done|]. set (a := x :: xs).
  set (n1 := Z.of_nat (length a - 1)).
  assert (Z.to_nat (Qceiling (alpha * inject_Z n1)) < length a)%nat as Hpos.
  { assert (Qceiling (alpha * inject_Z n1) <= n1)%Z.
    { rewrite <- (Qceiling_Z n1) at 2. apply Qceiling_resp_le.
      assert (inject_Z 0 <= inject_Z n1) by (rewrite <- Zle_Qle; unfold n1; lia).
      change (inject_Z 0) with 0 in *.
      nra. }
    unfold n1 in *. simpl length in *. lia. }
  rewrite <- argsort_length in Hpos.
  destruct (lookup_lt_is_Some_2 _ _ Hpos) as [i Hi]. rewrite Hi.
  rewrite getitem_lt; [by eexists|].
  eapply (proj1 (Forall_lookup _ _) (argsort_in_range a)); eauto.
Qed.

(** C2, as stated, fails: two-dimensional weights of shape (1, 1) have the
    length of [a = [1]] and sum to 1, so none of the listed conditions
    holds, yet [quantile] rejects them with [NotImplementedError] at its
    check on the dimension of [w]. *)
Lemma spec_errors_counterexample :
  ~ spec_errors (np := Instances.numpy_stable)
      (Arr1 [1]) (1 # 2) (Some (ArrN 1 1 [] [1])).
Proof.
  intros [Hiff _].
  assert (validation_error
            (quantile (np := Instances.numpy_stable)
               (Arr1 [1]) (1 # 2) (Some (ArrN 1 1 [] [1])))) as Hv.
  { right. left. reflexivity. }
  apply Hiff in Hv. destruct Hv as [H|[H|[(w' & Hw & H)|(w' & Hw & H)]]].
  - apply H. split; reflexivity.
  - apply H. reflexivity.
  - injection Hw as <-. apply H. reflexivity.
  - injection Hw as <-. apply H. vm_compute. discriminate.
Qed.

(** C2, amended.  [quantile] raises one of its validation errors only if
    [alpha] is not strictly between 0 and 1, or [a] is not
    one-dimensional, or [w] is given with more than one dimension, or with
    a length other than that of [a], or with a sum, as [np.sum] returns
    it, further than 1e-6 from 1.  It does raise one whenever [alpha] is
    out of range, [a] or [w] has more than one dimension, the lengths
    differ, or the sum is further than 1.2e-5 from 1 (the tolerance that
    [np.isclose] computes with its default relative part is a little over
    1.1e-5).  And on a non-empty one-dimensional [a] with [alpha] in range
    and either no weights, or one-dimensional weights of the same length
    whose sum is within 1e-6 of 1 and of which some running sum, as
    [np.cumsum] adds them in ascending order of [a], reaches [alpha], it
    returns a value. *)
Theorem quantile_validation {np : Numpy} (a : ndarray) (alpha : Q) (w : option ndarray) :
  (validation_error (quantile a alpha w) -> rejectable a alpha w) /\
  (rejected a alpha w -> validation_error (quantile a alpha w)) /\
  (accepted a alpha w -> returns (quantile a alpha w)).
Proof.
  split; [|split].
  - (* a validation error comes from one of the checks *)
    unfold quantile, rejectable. intros Hv.
    destruct (Qle_bool alpha 0 || Qle_bool 1 alpha) eqn:E1.
    { apply orb_true_iff in E1 as [E|E]; apply Qle_bool_iff in E; tauto. }
    destruct (1 <? ndim a)%nat eqn:E2.
    { apply Nat.ltb_lt in E2. right; right; left. lia. }
    destruct w as [w'|].
    2: { exfalso. revert Hv.
         apply benign_not_validation, np_quantile_higher_benign. }
    destruct (1 <? ndim w')%nat eqn:E3.
    { apply Nat.ltb_lt in E3. right; right; right; left. by exists w'. }
    destruct w' as [x|ws|]; [destruct Hv as [?|[?|?]]; discriminate| |done].
    destruct a as [x|xs|]; [destruct Hv as [?|[?|?]]; discriminate| |done].
    simpl in Hv. destruct (length ws =? length xs)%nat eqn:E4; simpl in Hv.
    + destruct (np_isclose (np_sum ws) 1 atol) eqn:E5; simpl in Hv.
      * exfalso. revert Hv. apply benign_not_validation.
        destruct (fancy_index_benign ws (np_argsort xs)) as [[r ->]| ->]; [|by right].
        simpl. destruct (boolean_index _ _); [by right|apply getitem_benign].
      * apply np_isclose_off in E5.
        do 5 right. by exists xs, ws.
    + apply Nat.eqb_neq in E4. do 4 right. left. by exists xs, ws.
  - (* each check raises *)
    unfold quantile, rejected.
    intros [H|[H|[H|[(w' & -> & H)|[(xs & ws & -> & -> & H)|(xs & ws & -> & -> & H)]]]]].
    + apply Qle_bool_iff in H. rewrite H. by left.
    + apply Qle_bool_iff in H. rewrite H, orb_true_r. by left.
    + apply Nat.ltb_lt in H. rewrite H.
      destruct (_ || _); [by left|right; left; reflexivity].
    + apply Nat.ltb_lt in H. rewrite H.
      destruct (_ || _); [by left|]. destruct (1 <? ndim a)%nat; right; left; reflexivity.
    + apply Nat.eqb_neq in H. simpl. rewrite H. simpl.
      destruct (_ || _); [by left|right; right; reflexivity].
    + apply np_isclose_beyond in H. simpl. rewrite H. simpl.
      destruct (_ || _); [by left|]. destruct (_ =? _)%nat; right; right; reflexivity.
  - (* an accepted input is answered *)
    intros (H0 & H1 & xs & -> & Hne & [-> |(ws & -> & Hlen & Hsum & Hreach)]).
    + unfold quantile. rewrite alpha_check_pass by done. simpl.
      by apply np_quantile_higher_returns.
    + destruct (quantile_weighted_first xs ws alpha)
        as (k & i & v & c & _ & _ & _ & _ & _ & Hq); try done.
      * by apply np_isclose_within.
      * by exists v.
Qed.

Lemma quantile_validation_witness :
  validation_error
    (quantile (np := Instances.numpy_stable)
       (Arr1 [1]) (1 # 2) (Some (ArrN 1 1 [] [1]))) /\
  returns
    (quantile (np := Instances.numpy_stable)
       (Arr1 [3; 1; 2]) (1 # 2) (Some (Arr1 [1 # 4; 1 # 4; 1 # 2]))).
Proof.
  split.
  - apply (quantile_validation (np := Instances.numpy_stable)
             (Arr1 [1]) (1 # 2) (Some (ArrN 1 1 [] [1]))).
    right; right; right; left. eexists. split; [reflexivity|]. simpl. lia.
  - apply (quantile_validation (np := Instances.numpy_stable)
             (Arr1 [3; 1; 2]) (1 # 2) (Some (Arr1 [1 # 4; 1 # 4; 1 # 2]))).
    split; [reflexivity|]. split; [reflexivity|].
    exists [3; 1; 2]. split; [reflexivity|]. split; [discriminate|].
    right. exists [1 # 4; 1 # 4; 1 # 2].
    split; [reflexivity|]. split; [reflexivity|].
    split; [vm_compute; discriminate|].
    vm_compute. apply Exists_cons_tl, Exists_cons_hd. reflexivity.
Defined.

(** The behaviour the amended statement leaves open, evaluated: a sum
    2^-18 (about 3.8e-6) away from 1 passes the normalisation check, a
    total weight below [alpha] runs into an [IndexError], and a 0-d [a]
    is answered. *)
Example quantile_tolerance_band :
  quantile (np := Instances.numpy_stable)
    (Arr1 [1]) (1 # 2) (Some (Arr1 [262145 # 262144])) = Ok 1.
Proof. vm_compute. reflexivity. Qed.

Example quantile_mass_not_reached :
  quantile (np := Instances.numpy_stable)
    (Arr1 [1]) (4194303 # 4194304) (Some (Arr1 [2097151 # 2097152]))
  = Raise IndexError.
Proof. vm_compute. reflexivity. Qed.

Example quantile_scalar :
  quantile (np := Instances.numpy_stable) (Arr0 5) (1 # 2) None = Ok 5.
Proof. reflexivity. Qed.

End QuantileFacts.

Module ConformalizationFacts.
Import Conformalization.

Section Canvas.
Context `{Collaborators}.

(** C3: evaluation before [fit].  [predict] raises the "not fitted"
    [RuntimeError]; [get_residuals] and [get_weights] do not raise: each
    returns the [RuntimeError] object to its caller as an ordinary
    value. *)
Theorem accessors_before_fit calibrator predictor splitter method train X alpha :
  let self := ConformalPredictor_init calibrator predictor splitter method train in
  get_residuals self = Ok (ExceptionObject RuntimeError not_fitted_msg) /\
  get_weights self = Ok (ExceptionObject RuntimeError not_fitted_msg) /\
  predict self X alpha = Raise RuntimeError.
Proof. done. Qed.

(** *** The guard of [CrossValCpAggregator.__init__] *)

Lemma prefix_substring (m s : string) :
  String.prefix m s = true -> m = String.substring 0 (String.length m) s.
Proof. intros Hp. symmetry. by apply String.prefix_correct. Qed.

Lemma str_in_cv_plus (m : string) :
  str_in m "cv+" = true <-> m ∈ [""; "c"; "v"; "+"; "cv"; "v+"; "cv+"]%string.
Proof.
  split.
  - intros Hin.
    change (String.prefix m "cv+" || (String.prefix m "v+" ||
              (String.prefix m "+" || (String.prefix m "" || false))) = true)
      in Hin.
    repeat (apply orb_true_iff in Hin as [Hp|Hin]);
      try discriminate;
      apply prefix_substring in Hp;
      remember (String.length m) as n eqn:Hn;
      destruct n as [|[|[|[|n]]]]; simpl in Hp; subst m;
      try (simpl in Hn; discriminate);
      set_solver.
  - intros Hm. repeat (apply elem_of_cons in Hm as [->|Hm]); try done.
    by apply elem_of_nil in Hm.
Qed.

(** The constructor returns exactly for the substrings of ["cv+"]. *)
Lemma init_returns_iff (K : nat) (m : string) :
  returns (CrossValCpAggregator_init K m) <->
  m ∈ [""; "c"; "v"; "+"; "cv"; "v+"; "cv+"]%string.
Proof.
  rewrite <- str_in_cv_plus. unfold CrossValCpAggregator_init.
  destruct (str_in m "cv+"); simpl; split; try done.
  - intros _. by eexists.
  - intros [? ?]. done.
Qed.

(** C4: evaluation at the method ["cv"].  The constructor does not raise:
    it returns an aggregator whose method is ["cv"]. *)
Theorem init_accepts_cv (K : nat) :
  CrossValCpAggregator_init K "cv"
  = Ok {| K := K; _predictors := ∅; _calibrators := ∅; method := "cv" |}.
Proof. reflexivity. Qed.

Example init_cv_plus (K : nat) :
  CrossValCpAggregator_init K "cv+"
  = Ok {| K := K; _predictors := ∅; _calibrators := ∅; method := "cv+" |}.
Proof. reflexivity. Qed.

Example init_aggregation (K : nat) :
  CrossValCpAggregator_init K "aggregation" = Raise TypeError.
Proof. reflexivity. Qed.

(** On a single fold the aggregator built with ["cv"] answers like one
    built with ["cv+"]: the method is not looked at. *)
Lemma single_fold_ignores_method (self : CrossValCpAggregator) X alpha :
  dom (_predictors self) = dom (_calibrators self) ->
  size (_predictors self) = 1 ->
  agg_predict self X alpha = predict_single self X alpha.
Proof.
  intros Hdom Hsize. unfold agg_predict.
  rewrite bool_decide_eq_true_2 by done. simpl. by rewrite Hsize.
Qed.

(** *** Dispatch in [CrossValCpAggregator.predict] *)

Lemma map_size_1 {A : Type} (m : gmap nat A) :
  size m = 1 -> exists k x, m = {[k := x]} /\ map_to_list m = [(k, x)].
Proof.
  intros Hsize. rewrite <- length_map_to_list in Hsize.
  destruct (map_to_list m) as [|[k x] [|? ?]] eqn:Hl; simplify_eq/=.
  exists k, x. split; [|done].
  rewrite <- (list_to_map_to_list m), Hl. done.
Qed.

(** C5.  For an aggregator with method ["cv+"] whose predictors and
    calibrators have the same fold indices: with exactly one fold,
    [predict] is that fold's predictor followed by that fold's
    calibrator, and returns [(y_pred, y_lower, y_upper, var_pred)]; with
    more than one fold it returns [(None, y_lower, y_upper, None)], the
    bounds being those of the [CvPlusCalibrator] over all folds. *)
Theorem agg_predict_dispatch (self : CrossValCpAggregator) X alpha :
  method self = "cv+"%string ->
  dom (_predictors self) = dom (_calibrators self) ->
  (size (_predictors self) = 1 ->
   exists k predictor calibrator,
     _predictors self = {[k := predictor]} /\
     _calibrators self !! k = Some calibrator /\
     agg_predict self X alpha =
       ('(y_pred, y_pred_lo, y_pred_hi, var_pred) ← predictor_predict predictor X;
        '(y_lo, y_hi) ←
          calibrator_calibrate calibrator X alpha y_pred var_pred y_pred_lo y_pred_hi;
        Ok (Prediction (Some y_pred) y_lo y_hi var_pred))) /\
  (1 < size (_predictors self) ->
   agg_predict self X alpha =
     ('(y_lo, y_hi) ←
        CvPlusCalibrator_calibrate (_calibrators self) X (_predictors self) alpha;
      Ok (Prediction None y_lo y_hi None))).
Proof.
  intros Hmethod Hdom. split.
  - intros Hsize. destruct (map_size_1 _ Hsize) as (k & p & Hp & Hl).
    assert (is_Some (_calibrators self !! k)) as [c Hc].
    { apply elem_of_dom. rewrite <- Hdom, Hp. set_solver. }
    exists k, p, c. split; [done|]. split; [done|].
    rewrite single_fold_ignores_method by done.
    unfold predict_single. by rewrite Hl, Hc.
  - intros Hsize. unfold agg_predict.
    rewrite bool_decide_eq_true_2 by done. simpl.
    destruct (Nat.eqb_spec (size (_predictors self)) 1) as [|_]; [lia|].
    by rewrite Hmethod.
Qed.

End Canvas.

Lemma agg_predict_dispatch_witness :
  (size (_predictors Instances.single_fold) = 1 ->
   exists k predictor calibrator,
     _predictors Instances.single_fold = {[k := predictor]} /\
     _calibrators Instances.single_fold !! k = Some calibrator /\
     agg_predict Instances.single_fold 0%Q (1 # 10)%Q =
       ('(y_pred, y_pred_lo, y_pred_hi, var_pred) ←
          predictor_predict (Collaborators := Instances.constant_canvas)
            predictor 0%Q;
        '(y_lo, y_hi) ←
          calibrator_calibrate (Collaborators := Instances.constant_canvas)
            calibrator 0%Q (1 # 10)%Q y_pred var_pred y_pred_lo y_pred_hi;
        Ok (Prediction (Some y_pred) y_lo y_hi var_pred))) /\
  (1 < size (_predictors Instances.single_fold) ->
   agg_predict Instances.single_fold 0%Q (1 # 10)%Q =
     ('(y_lo, y_hi) ←
        CvPlusCalibrator_calibrate (Collaborators := Instances.constant_canvas)
          (_calibrators Instances.single_fold) 0%Q
          (_predictors Instances.single_fold) (1 # 10)%Q;
      Ok (Prediction None y_lo y_hi None))).
Proof.
  apply (agg_predict_dispatch (H := Instances.constant_canvas)
           Instances.single_fold 0%Q (1 # 10)%Q).
  - reflexivity.
  - reflexivity.
Defined.

(** The two paths, run: the single fold gives its predictor's answer and
    an interval around it; two folds give bounds only. *)
Example agg_predict_single_fold :
  agg_predict Instances.single_fold 0%Q (1 # 10)%Q
  = Ok (@Prediction Instances.constant_canvas (Some 5%Q) (5 - 1)%Q (5 + 1)%Q None).
Proof. reflexivity. Qed.

Example agg_predict_two_folds :
  exists y_lo y_hi,
    agg_predict Instances.two_folds 0%Q (1 # 10)%Q
    = Ok (Prediction None y_lo y_hi None).
Proof. eexists _, _. vm_compute. reflexivity. Qed.

End ConformalizationFacts.

Module EnbPIFacts.
Import Quantile EnbPI.
Import QuantileFacts.

(** *** Batching in [predict] *)

Lemma full_batches_concat {A : Type} (m s : nat) (xs : list A) :
  concat (map (fun i => slice (i * s) ((i + 1) * s) xs) (seq 0 m)) = take (m * s) xs.
Proof.
  induction m as [|m IH]; [done|].
  rewrite seq_S, map_app, concat_app, IH. simpl. rewrite app_nil_r.
  unfold slice. replace ((m + 1) * s - m * s) with s by lia.
  rewrite take_take_drop. f_equal. lia.
Qed.

Lemma batches_unfold {A : Type} (m s : nat) (xs : list A) :
  batches (S m) s xs
  = map (fun i => slice (i * s) ((i + 1) * s) xs) (seq 0 m) ++ [drop (m * s) xs].
Proof.
  unfold batches. rewrite seq_S, map_app. simpl. f_equal.
  - apply map_ext_in. intros i Hi%in_seq. unfold batch.
    destruct (Nat.eqb_spec i (S m - 1)); [lia|done].
  - unfold batch. replace (S m - 1) with m by lia. by rewrite Nat.eqb_refl.
Qed.

(** With at least one batch, the batches partition the test set, in
    order. *)
Lemma batches_concat {A : Type} (n s : nat) (xs : list A) :
  1 <= n -> concat (batches n s xs) = xs.
Proof.
  destruct n as [|m]; [lia|]. intros _.
  rewrite batches_unfold, concat_app, full_batches_concat. simpl.
  rewrite app_nil_r. apply take_drop.
Qed.

Lemma batches_length {A : Type} (n s : nat) (xs : list A) :
  length (batches n s xs) = n.
Proof. unfold batches. by rewrite length_map, length_seq. Qed.

Lemma batches_lookup {A : Type} (n s i : nat) (xs : list A) :
  i < n -> batches n s xs !! i = Some (batch n s i xs).
Proof.
  intros Hi. unfold batches. rewrite list_lookup_fmap, lookup_seq_lt by done.
  done.
Qed.

(** C8, as stated, fails: five samples with [s = 2] are processed as a
    batch of two and a batch of three, not as two batches of two and a
    remainder batch of one. *)
Lemma spec_batching_counterexample :
  ~ spec_batching [1; 2; 3; 4; 5] [0; 0; 0; 0; 0]%Q 2.
Proof.
  intros (n & s' & Hplan & Hsizes).
  vm_compute in Hplan. injection Hplan as <- <-.
  vm_compute in Hsizes. discriminate.
Qed.

(** C8, amended.  Without [y_true], or with [y_true] but without [s], the
    whole test set is one batch.  With both, for [1 <= s <= len(y_true)]
    and a test set as long as [y_true], there are [len(y_true) / s]
    batches: all but the last have size [s], the last one has size
    [s + len(y_true) mod s] (it takes the leftover samples too), and
    the batches, in order, make up the test set, so that every test
    sample is in exactly one batch. *)
Theorem predict_batching {A : Type} (X_test : list A) (y_true : option (list Q))
    (s : option Z) :
  (y_true = None \/ s = None ->
   batch_plan X_test y_true s = Ok (1, length X_test) /\
   batches 1 (length X_test) X_test = [X_test]) /\
  (forall y k, y_true = Some y -> s = Some (Z.of_nat k) ->
     1 <= k <= length y -> length X_test = length y ->
     let n := length y / k in
     batch_plan X_test y_true s = Ok (n, k) /\
     length (batches n k X_test) = n /\
     (forall i, i < n - 1 -> length (batch n k i X_test) = k) /\
     length (batch n k (n - 1) X_test) = k + length y mod k /\
     concat (batches n k X_test) = X_test).
Proof.
  split.
  - intros Hone. split.
    + destruct Hone as [-> | ->]; [done|]. by destruct y_true.
    + by rewrite batches_unfold.
  - intros y k -> -> [Hk Hlen] HX n.
    assert (1 <= n) as Hn.
    { unfold n. apply Nat.div_le_lower_bound; lia. }
    assert (length y = k * n + length y mod k) as Hdiv.
    { unfold n. apply Nat.div_mod_eq. }
    repeat split.
    + unfold batch_plan. destruct (Z.eqb_spec (Z.of_nat k) 0); [lia|].
      rewrite <- Nat2Z.inj_div, !Nat2Z.id. done.
    + apply batches_length.
    + intros i Hi. unfold batch. destruct (Nat.eqb_spec i (n - 1)); [lia|].
      unfold slice. rewrite length_take, length_drop. nia.
    + unfold batch. rewrite Nat.eqb_refl, length_drop. nia.
    + by apply batches_concat.
Qed.

Lemma predict_batching_witness :
  batch_plan [1; 2; 3; 4; 5] (Some [0; 0; 0; 0; 0]%Q) (Some 2%Z) = Ok (2, 2) /\
  length (batches 2 2 [1; 2; 3; 4; 5]) = 2 /\
  (forall i, i < 1 -> length (batch 2 2 i [1; 2; 3; 4; 5]) = 2) /\
  length (batch 2 2 1 [1; 2; 3; 4; 5]) = 3 /\
  concat (batches 2 2 [1; 2; 3; 4; 5]) = [1; 2; 3; 4; 5].
Proof.
  apply (proj2 (predict_batching [1; 2; 3; 4; 5] (Some [0; 0; 0; 0; 0]%Q)
                  (Some 2%Z)) [0; 0; 0; 0; 0]%Q 2).
  - reflexivity.
  - reflexivity.
  - simpl. lia.
  - reflexivity.
Defined.

(** What the amended statement leaves open, evaluated: with fewer true
    values than [s] there is no batch at all, and nothing is predicted. *)
Example batch_plan_short :
  batch_plan [1] (Some [0%Q]) (Some 2%Z) = Ok (0, 2) /\ batches 0 2 [1] = [].
Proof. split; reflexivity. Qed.

(** *** The store *)

Lemma bind_ok {A B : Type} (m : M A) (k : A -> M B) σ a σ' :
  m σ = (Ok a, σ') -> (m ≫= k) σ = k a σ'.
Proof. intros Hm. unfold mbind, M_bind. by rewrite Hm. Qed.

Lemma bind_raise {A B : Type} (m : M A) (k : A -> M B) σ e σ' :
  m σ = (Raise e, σ') -> (m ≫= k) σ = (Raise e, σ').
Proof. intros Hm. unfold mbind, M_bind. by rewrite Hm. Qed.

Lemma bind_inv_ok {A B : Type} (m : M A) (k : A -> M B) σ b σ' :
  (m ≫= k) σ = (Ok b, σ') ->
  exists a σ1, m σ = (Ok a, σ1) /\ k a σ1 = (Ok b, σ').
Proof.
  unfold mbind, M_bind. destruct (m σ) as [[a|e] σ1]; [|done].
  intros Hk. by exists a, σ1.
Qed.

Lemma alloc_fresh (σ : gmap nat (list Q)) :
  σ !! fresh (dom σ) = None.
Proof. apply not_elem_of_dom, is_fresh. Qed.

Lemma read_allocated p l (σ : gmap nat (list Q)) :
  σ !! p = Some l -> read p σ = (Ok l, σ).
Proof. intros Hp. unfold read. by rewrite Hp. Qed.

Lemma extend_allocated p old l (σ : gmap nat (list Q)) :
  σ !! p = Some old -> extend p l σ = (Ok (), <[p := old ++ l]> σ).
Proof. intros Hp. unfold extend. by rewrite Hp. Qed.

(** *** The sliding residual window *)

Section Window.
Context `{Collaborators}.

(** What one batch appends to the three output lists. *)
Lemma process_batch_outputs self preds alpha s X_batch y_true_batch st σ st' σ'
    y_pred_batch :
  predict_batch self preds X_batch = Ok y_pred_batch ->
  process_batch self preds alpha s X_batch y_true_batch st σ = (Ok st', σ') ->
  y_pred_list st' = y_pred_list st ++ y_pred_batch /\
  y_pred_lower_list st' =
    y_pred_lower_list st ++ (_compute_pi y_pred_batch (res_quantile st)).1 /\
  y_pred_upper_list st' =
    y_pred_upper_list st ++ (_compute_pi y_pred_batch (res_quantile st)).2.
Proof.
  intros Hpred. unfold process_batch.
  rewrite (bind_ok _ _ σ y_pred_batch σ) by (unfold lift; by rewrite Hpred).
  destruct (_compute_pi y_pred_batch (res_quantile st)) as [lower upper].
  destruct y_true_batch as [yb|].
  - intros Hrun.
    repeat (apply bind_inv_ok in Hrun as (? & ? & _ & Hrun)).
    unfold mret, M_ret in Hrun. by injection Hrun as <- <-.
  - unfold mret, M_ret. intros [= <- <-]. done.
Qed.

(** C9.  With [y_true] supplied, a batch whose ensemble prediction is
    [y_pred_batch] is served with the quantile in force before it; its
    new residuals are computed from the batch's true values and that
    aggregated prediction; the residual pool becomes the old pool without
    its first [s] entries followed by the new residuals; the quantile
    carried to the next batch is the [(1 - alpha)]-quantile of exactly
    this pool, and the next batch is served with it. *)
Theorem sliding_window_update self preds alpha s X_batch y_true_batch st σ
    old y_pred_batch q :
  σ !! updated_residuals st = Some old ->
  predict_batch self preds X_batch = Ok y_pred_batch ->
  np_quantile_linear
    (drop s old ++ _compute_residuals y_pred_batch y_true_batch) (1 - alpha)%Q
  = Ok q ->
  exists st' σ',
    process_batch self preds alpha s X_batch (Some y_true_batch) st σ = (Ok st', σ') /\
    σ' !! updated_residuals st'
    = Some (drop s old ++ _compute_residuals y_pred_batch y_true_batch) /\
    res_quantile st' = q /\
    y_pred_list st' = y_pred_list st ++ y_pred_batch /\
    y_pred_lower_list st' =
      y_pred_lower_list st ++ (_compute_pi y_pred_batch (res_quantile st)).1 /\
    y_pred_upper_list st' =
      y_pred_upper_list st ++ (_compute_pi y_pred_batch (res_quantile st)).2 /\
    forall X_next y_next y_pred_next st'' σ'',
      predict_batch self preds X_next = Ok y_pred_next ->
      process_batch self preds alpha s X_next y_next st' σ' = (Ok st'', σ'') ->
      y_pred_lower_list st'' =
        y_pred_lower_list st' ++ (_compute_pi y_pred_next q).1 /\
      y_pred_upper_list st'' =
        y_pred_upper_list st' ++ (_compute_pi y_pred_next q).2.
Proof.
  intros Hold Hpred Hq.
  set (pool := drop s old ++ _compute_residuals y_pred_batch y_true_batch) in *.
  set (p := fresh (dom σ)).
  assert (exists st', process_batch self preds alpha s X_batch (Some y_true_batch) st σ
                      = (Ok st', <[p := pool]> (<[p := drop s old]> σ)) /\
                      updated_residuals st' = p /\ res_quantile st' = q)
    as (st' & Hrun & Hp & Hq').
  { unfold process_batch.
    rewrite (bind_ok _ _ σ y_pred_batch σ) by (unfold lift; by rewrite Hpred).
    destruct (_compute_pi y_pred_batch (res_quantile st)) as [lower upper].
    rewrite (bind_ok _ _ σ old σ) by by apply read_allocated.
    rewrite (bind_ok _ _ σ p (<[p := drop s old]> σ)) by done.
    erewrite bind_ok; [|apply extend_allocated, lookup_insert_eq].
    erewrite bind_ok; [|apply read_allocated, lookup_insert_eq].
    erewrite bind_ok; [|unfold lift; fold pool; by rewrite Hq].
    eexists. split; [reflexivity|]. done. }
  exists st', (<[p := pool]> (<[p := drop s old]> σ)).
  destruct (process_batch_outputs _ _ _ _ _ _ _ _ _ _ _ Hpred Hrun) as (H1 & H2 & H3).
  repeat split; try done.
  - rewrite Hp. apply lookup_insert_eq.
  - rewrite <- Hq'.
    eapply (process_batch_outputs self preds alpha s X_next y_next st'); eauto.
  - rewrite <- Hq'.
    eapply (process_batch_outputs self preds alpha s X_next y_next st'); eauto.
Qed.

End Window.

Lemma sliding_window_update_witness :
  exists st' σ',
    process_batch (H := Instances.mean_ensemble) Instances.ensemble2 [1; 3]%Q
      (1 # 5)%Q 2 [0; 0]%Q (Some [5; 2]%Q) Instances.loop0 Instances.store7
    = (Ok st', σ') /\
    σ' !! updated_residuals st' = Some [3; 6 # 2; 0 # 2]%Q /\
    res_quantile st' = (30 # 10)%Q.
Proof.
  destruct (sliding_window_update (H := Instances.mean_ensemble)
              Instances.ensemble2 [1; 3]%Q (1 # 5)%Q 2 [0; 0]%Q [5; 2]%Q
              Instances.loop0 Instances.store7
              [1; 2; 3]%Q [4 # 2; 4 # 2]%Q (30 # 10)%Q)
    as (st' & σ' & Hrun & Hpool & Hq & _).
  - reflexivity.
  - reflexivity.
  - reflexivity.
  - exists st', σ'. split; [exact Hrun|]. split; [exact Hpool|exact Hq].
Defined.

(** *** [predict] leaves the fitted state alone *)

Section Frame.
Context `{Collaborators}.

Lemma fresh_not_in_sub (σ0 σ : gmap nat (list Q)) :
  σ0 ⊆ σ -> fresh (dom σ) ∉ dom σ0.
Proof.
  intros Hsub Hin. apply (is_fresh (dom σ)).
  by apply (subseteq_dom _ _ Hsub).
Qed.

Lemma sub_insert_fresh (σ0 σ : gmap nat (list Q)) p l :
  σ0 ⊆ σ -> p ∉ dom σ0 -> σ0 ⊆ <[p := l]> σ.
Proof. intros Hsub Hp. apply insert_subseteq_r; [by apply not_elem_of_dom|done]. Qed.

Lemma process_batch_refines self preds alpha s X_batch y_true_batch σ0 σ st w :
  stands_for σ0 σ st w ->
  follows σ0 σ
    (process_batch self preds alpha s X_batch y_true_batch)
    (process_batch_pure self preds alpha s X_batch y_true_batch) st w.
Proof.
  intros (Hsub & Hp & Hpool & H1 & H2 & H3 & H4).
  unfold follows, process_batch, process_batch_pure.
  destruct (predict_batch self preds X_batch) as [y_pred_batch|e] eqn:Hpred; simpl.
  2: { exists σ. split; [|done]. by apply bind_raise. }
  rewrite (bind_ok _ _ σ y_pred_batch σ) by done.
  rewrite H4. destruct (_compute_pi y_pred_batch (w_quantile w)) as [lower upper].
  destruct y_true_batch as [yb|].
  - rewrite (bind_ok _ _ σ (w_pool w) σ) by by apply read_allocated.
    set (p := fresh (dom σ)).
    rewrite (bind_ok _ _ σ p (<[p := drop s (w_pool w)]> σ)) by done.
    erewrite bind_ok; [|apply extend_allocated, lookup_insert_eq].
    erewrite bind_ok; [|apply read_allocated, lookup_insert_eq].
    assert (p ∉ dom σ0) as Hfresh by by apply fresh_not_in_sub.
    assert (σ0 ⊆ <[p := drop s (w_pool w) ++ _compute_residuals y_pred_batch yb]>
                   (<[p := drop s (w_pool w)]> σ)) as Hsub'.
    { apply sub_insert_fresh; [|done]. by apply sub_insert_fresh. }
    destruct (np_quantile_linear _ _) as [q|e] eqn:Hq; simpl.
    + eexists _, _. split; [erewrite bind_ok; [reflexivity|done]|].
      repeat split; simpl; try done; try congruence.
      apply lookup_insert_eq.
    + eexists. split; [by apply bind_raise|done].
  - eexists _, _. split; [reflexivity|].
    repeat split; simpl; try done; congruence.
Qed.

Lemma for_each_refines {A : Type} σ0 (body : A -> loop_state -> M loop_state)
    (body_pure : A -> window -> result window) (l : list A) :
  (forall x σ st w, stands_for σ0 σ st w ->
     follows σ0 σ (body x) (body_pure x) st w) ->
  forall σ st w, stands_for σ0 σ st w ->
    follows σ0 σ (for_each body l) (for_each_pure body_pure l) st w.
Proof.
  intros Hbody. induction l as [|x l IH]; intros σ st w Hst; unfold follows; simpl.
  - by exists st, σ.
  - specialize (Hbody x σ st w Hst). unfold follows in Hbody.
    destruct (body_pure x w) as [w1|e]; simpl.
    + destruct Hbody as (st1 & σ1 & Hrun & Hst1).
      rewrite (bind_ok _ _ _ _ _ Hrun). by apply IH.
    + destruct Hbody as (σ1 & Hrun & Hsub).
      exists σ1. split; [by apply bind_raise|done].
Qed.

(** [predict] computes what its functional reading computes on the
    contents of [self.residuals], and every list object of the store it
    started from is still there, with its contents, when it ends. *)
Lemma predict_refines self X_test alpha y_true s σ current :
  σ !! residuals self = Some current ->
  exists σ', predict self X_test alpha y_true s σ
             = (predict_pure self X_test alpha y_true s current, σ') /\
             σ ⊆ σ'.
Proof.
  intros Hcur. unfold predict, predict_pure.
  rewrite (bind_ok _ _ σ current σ) by by apply read_allocated.
  set (p1 := fresh (dom σ)). set (σ1 := <[p1 := current]> σ).
  rewrite (bind_ok _ _ σ p1 σ1) by done.
  rewrite (bind_ok _ _ σ1 current σ1) by apply read_allocated, lookup_insert_eq.
  set (p2 := fresh (dom σ1)). set (σ2 := <[p2 := current]> σ1).
  rewrite (bind_ok _ _ σ1 p2 σ2) by done.
  assert (σ ⊆ σ1) as Hsub1.
  { apply insert_subseteq, alloc_fresh. }
  assert (σ ⊆ σ2) as Hsub2.
  { etrans; [exact Hsub1|]. apply insert_subseteq, alloc_fresh. }
  destruct (np_quantile_linear current (1 - alpha)) as [q|e]; simpl.
  2: { exists σ2. split; [by apply bind_raise|done]. }
  rewrite (bind_ok _ _ σ2 q σ2) by done.
  destruct (batch_plan X_test y_true s) as [[n_batches s']|e]; simpl.
  2: { exists σ2. split; [by apply bind_raise|done]. }
  rewrite (bind_ok _ _ σ2 (n_batches, s') σ2) by done.
  destruct (_boot_predictors self) as [preds|]; simpl.
  2: { exists σ2. split; [by apply bind_raise|done]. }
  rewrite (bind_ok _ _ σ2 preds σ2) by done.
  pose proof (for_each_refines σ
    (loop_body self preds alpha n_batches s' X_test y_true)
    (fun i => process_batch_pure self preds alpha s'
                (batch n_batches s' i X_test) (batch n_batches s' i <$> y_true))
    (seq 0 n_batches)) as Hloop.
  unfold follows in Hloop at 2.
  match goal with
  | |- context [for_each _ _ ?st0] =>
      specialize (Hloop (fun x σ st w Hst =>
                           process_batch_refines _ _ _ _ _ _ _ _ _ _ Hst)
                    σ2 st0
                    {| w_pred := []; w_lower := []; w_upper := [];
                       w_pool := current; w_quantile := q |})
  end.
  match type of Hloop with
  | ?P -> _ => assert P as Hinit
  end.
  { repeat split; simpl; try done.
    - unfold p2. by apply fresh_not_in_sub.
    - apply lookup_insert_eq. }
  specialize (Hloop Hinit).
  destruct (for_each_pure _ _ _) as [w|e]; simpl.
  - destruct Hloop as (st' & σ' & Hrun & Hsub & _ & _ & H1 & H2 & H3 & _).
    exists σ'. split; [|done].
    rewrite (bind_ok _ _ _ _ _ Hrun). unfold mret, M_ret. by rewrite H1, H2, H3.
  - destruct Hloop as (σ' & Hrun & Hsub).
    exists σ'. split; [by apply bind_raise|done].
Qed.

(** C10.  [predict] assigns no attribute of its instance (its model takes
    [self] and hands none back), and the list objects are its only
    mutable state: every list object of the store before the call, that
    of [self.residuals] among them, has the same contents after it (the
    window slides on fresh copies), so the OOB matrix, the bootstrap
    predictors and the residual pool are as they were; and a second call
    with the same arguments, made after the first, gives the same
    outcome, in the sequential mode with [y_true] as in any other. *)
Theorem predict_preserves_state self X_test alpha y_true s (σ : gmap nat (list Q)) :
  (forall p l, σ !! p = Some l ->
     (predict self X_test alpha y_true s σ).2 !! p = Some l) /\
  (predict self X_test alpha y_true s (predict self X_test alpha y_true s σ).2).1
  = (predict self X_test alpha y_true s σ).1.
Proof.
  destruct (σ !! residuals self) as [current|] eqn:Hcur.
  - destruct (predict_refines self X_test alpha y_true s σ current Hcur)
      as (σ' & Hrun & Hsub).
    rewrite Hrun. simpl. split.
    + intros p l Hp. by eapply lookup_weaken.
    + assert (σ' !! residuals self = Some current) as Hcur'
        by by eapply lookup_weaken.
      destruct (predict_refines self X_test alpha y_true s σ' current Hcur')
        as (σ'' & Hrun' & _).
      by rewrite Hrun'.
  - assert (predict self X_test alpha y_true s σ = (Raise SystemError, σ)) as Hrun.
    { unfold predict. apply bind_raise. unfold read. by rewrite Hcur. }
    rewrite Hrun. simpl. split; [done|]. by rewrite Hrun.
Qed.

End Frame.

(** *** The sampling loop of [fit] *)

Section Sampling.
Context `{Collaborators}.

(** C7: the retry does not draw afresh under a seed.  With
    [random_state] given, every turn of the [while] loop calls [resample]
    with the same [random_state_b] and gets the same bootstrap set: when
    its out-of-bag set is empty, no number of turns ends the loop. *)
Theorem sample_bootstrap_seeded_stuck (seed : Z) (T : nat) :
  setdiff1d (seq 0 T) (draw (seed_rng seed) T).1 = [] ->
  forall fuel g, sample_bootstrap fuel (Some seed) T g = None.
Proof.
  intros Hempty. induction fuel as [|fuel IH]; intros g; simpl; [done|].
  rewrite Hempty. simpl. apply IH.
Qed.

(** With a single training sample every bootstrap set is the whole
    training set, seed or no seed. *)
Lemma sample_bootstrap_single_sample :
  draw_valid ->
  forall fuel random_state_b g, sample_bootstrap fuel random_state_b 1 g = None.
Proof.
  intros Hvalid. induction fuel as [|fuel IH]; intros rs g; simpl; [done|].
  destruct (resample rs 1 g) as [boot g1] eqn:Hdraw.
  assert (boot = [0]) as ->.
  { assert (length boot = 1 /\ Forall (fun i => i < 1) boot) as [Hlen Hall].
    { unfold resample in Hdraw. destruct rs as [seed|].
      - injection Hdraw as <- _. apply Hvalid.
      - pose proof (Hvalid g 1) as Hv. by rewrite Hdraw in Hv. }
    destruct boot as [|i [|? ?]]; simplify_eq/=.
    apply Forall_cons in Hall as [Hi _]. f_equal. lia. }
  simpl. apply IH.
Qed.

Lemma sample_all_stuck fuel rs T b bs bd od g :
  sample_bootstrap fuel ((fun r => r + Z.of_nat b)%Z <$> rs) T g = None ->
  sample_all fuel rs T (b :: bs) bd od g = None.
Proof. intros Hb. simpl. by rewrite Hb. Qed.

(** Under a seed, a model whose draw covers the whole training set keeps
    the loop over the bootstrap models from ending. *)
Lemma sample_all_covering_draw (seed : Z) (T b : nat) (bs : list nat) :
  b ∈ bs ->
  setdiff1d (seq 0 T) (draw (seed_rng (seed + Z.of_nat b)) T).1 = [] ->
  forall fuel bd od g, sample_all fuel (Some seed) T bs bd od g = None.
Proof.
  intros Hb Hempty fuel.
  assert (forall g, sample_bootstrap fuel (Some (seed + Z.of_nat b)%Z) T g = None)
    as Hstuck.
  { induction fuel as [|fuel IH]; intros g; simpl; [done|].
    rewrite Hempty. simpl. apply IH. }
  induction bs as [|b0 bs IH]; intros bd od g; [by apply elem_of_nil in Hb|].
  simpl. destruct (decide (b0 = b)) as [->|Hne].
  - by rewrite Hstuck.
  - destruct (sample_bootstrap _ _ _ _) as [[[boot oob_units] g1]|]; [|done].
    apply IH. apply elem_of_cons in Hb as [?|?]; [congruence|done].
Qed.

(** What the sampling loops establish when they end: a bootstrap set for
    each model, of indices below [T], and its complement as the
    out-of-bag set. *)
Lemma sample_bootstrap_Some fuel rs T g boot oob_units g' :
  draw_valid ->
  sample_bootstrap fuel rs T g = Some (boot, oob_units, g') ->
  oob_units = setdiff1d (seq 0 T) boot /\ oob_units <> [] /\
  Forall (fun i => i < T) boot.
Proof.
  intros Hvalid. revert g. induction fuel as [|fuel IH]; intros g; simpl; [done|].
  destruct (resample rs T g) as [boot1 g1] eqn:Hdraw.
  destruct (Nat.eqb_spec (length (setdiff1d (seq 0 T) boot1)) 0) as [|Hne];
    [by apply IH|].
  intros [= <- <- <-]. repeat split.
  - intros Hnil. by rewrite Hnil in Hne.
  - unfold resample in Hdraw. destruct rs as [seed|].
    + injection Hdraw as <- _. apply Hvalid.
    + pose proof (Hvalid g T) as Hv. rewrite Hdraw in Hv. apply Hv.
Qed.

Lemma sample_all_Some fuel rs T bs bd od g bd' od' g' :
  draw_valid ->
  sample_all fuel rs T bs bd od g = Some (bd', od', g') ->
  od = setdiff1d (seq 0 T) <$> bd ->
  map_Forall (fun _ boot => Forall (fun i => i < T) boot) bd ->
  od' = setdiff1d (seq 0 T) <$> bd' /\
  map_Forall (fun _ boot => Forall (fun i => i < T) boot) bd' /\
  forall b, is_Some (bd' !! b) <-> is_Some (bd !! b) \/ b ∈ bs.
Proof.
  intros Hvalid. revert bd od g.
  induction bs as [|b bs IH]; intros bd od g; simpl.
  - intros [= <- <- <-] Hod Hbd. repeat split; try done.
    + by left.
    + intros [?|Hin]; [done|]. by apply elem_of_nil in Hin.
  - destruct (sample_bootstrap _ _ _ _) as [[[boot oob_units] g1]|] eqn:Hb; [|done].
    apply sample_bootstrap_Some in Hb as (-> & _ & Hboot); [|done].
    intros Hrec Hod Hbd.
    apply IH in Hrec as (Hod' & Hbd' & Hdom).
    + repeat split; try done.
      * intros Hb'. apply Hdom in Hb' as [Hb'|Hb'].
        -- destruct (decide (b = b0)) as [->|Hne].
           ++ right. by left.
           ++ rewrite lookup_insert_ne in Hb' by done. by left.
        -- right. by right.
      * intros [Hb'|Hb']; apply Hdom.
        -- destruct (decide (b = b0)) as [->|Hne].
           ++ left. rewrite lookup_insert_eq. by eexists.
           ++ left. by rewrite lookup_insert_ne.
        -- apply elem_of_cons in Hb' as [->|Hb'].
           ++ left. rewrite lookup_insert_eq. by eexists.
           ++ by right.
    + by rewrite Hod, fmap_insert.
    + by apply map_Forall_insert_2.
Qed.

End Sampling.

(** The counter generator is well-behaved. *)
Lemma counter_draw_valid : draw_valid (H := Instances.mean_ensemble).
Proof.
  intros g T. simpl. split.
  - by rewrite length_map, length_seq.
  - apply Forall_fmap, Forall_forall. intros k Hk%elem_of_seq. simpl.
    apply Nat.mod_upper_bound. lia.
Qed.

(** Under seed 0 the counter generator draws [0, 1] from two training
    samples, every time: the loop is still turning after 100 turns. *)
Lemma sample_bootstrap_seeded_stuck_witness :
  sample_bootstrap (H := Instances.mean_ensemble) 100 (Some 0%Z) 2 0 = None.
Proof.
  apply (sample_bootstrap_seeded_stuck (H := Instances.mean_ensemble) 0%Z 2).
  reflexivity.
Defined.

(** Without a seed the same generator moves on and the loop ends at its
    third turn. *)
Example sample_bootstrap_unseeded :
  sample_bootstrap (H := Instances.mean_ensemble) 100 None 2 0
  = Some ([0; 0], [1], 3).
Proof. reflexivity. Qed.

(** *** The out-of-bag matrix *)

Section OobMatrix.
Local Open Scope Q_scope.

Lemma mapR_ok {A B : Type} (f : A -> result B) (g : A -> B) (l : list A) :
  (forall x, x ∈ l -> f x = Ok (g x)) -> mapR f l = Ok (map g l).
Proof.
  induction l as [|x l IH]; intros Hf; simpl; [done|].
  rewrite Hf by by left. simpl. rewrite IH; [done|].
  intros y Hy. apply Hf. by right.
Qed.

Lemma oobs_for_unit_row oob_dict B i :
  (forall b, (b < B)%nat -> is_Some (oob_dict !! b)) ->
  oobs_for_unit oob_dict B i = Ok (indicator_row oob_dict B i).
Proof.
  intros Hdom. apply mapR_ok. intros b Hb%elem_of_seq.
  unfold indicator. destruct (Hdom b) as [oob ->]; [lia|done].
Qed.

Lemma Qsum_zero_iff (l : list Q) :
  Forall (Qle 0) l -> Qsum l == 0 <-> Forall (fun x => x == 0) l.
Proof.
  induction 1 as [|x l Hx Hl IH]; simpl; [by split; [constructor|]|].
  pose proof (Qsum_nonneg l Hl) as Hs. split.
  - intros Hz. constructor; [lra|]. apply IH. lra.
  - intros [Hx0 Hl0]%Forall_cons. apply IH in Hl0. lra.
Qed.

Lemma indicator_row_nonneg oob_dict B i : Forall (Qle 0) (indicator_row oob_dict B i).
Proof.
  apply Forall_fmap, Forall_forall. intros b _. unfold indicator. simpl.
  destruct (oob_dict !! b); [case_bool_decide|]; discriminate.
Qed.

(** A row sums to zero exactly when its training sample is out-of-bag
    for none of the [B] models. *)
Lemma indicator_row_zero oob_dict B i :
  (forall b, (b < B)%nat -> is_Some (oob_dict !! b)) ->
  Qsum (indicator_row oob_dict B i) == 0 <->
  forall b oob, (b < B)%nat -> oob_dict !! b = Some oob -> i ∉ oob.
Proof.
  intros Hdom. rewrite Qsum_zero_iff by apply indicator_row_nonneg.
  unfold indicator_row. rewrite Forall_fmap, Forall_forall. split.
  - intros Hz b oob Hb Hoob Hin. specialize (Hz b). simpl in Hz.
    unfold indicator in Hz. rewrite Hoob, bool_decide_eq_true_2 in Hz by done.
    assert (1 == 0) as Habs by (apply Hz, elem_of_seq; lia). discriminate.
  - intros Hnone b Hb%elem_of_seq. simpl. unfold indicator.
    destruct (Hdom b) as [oob Hoob]; [lia|]. rewrite Hoob.
    rewrite bool_decide_eq_false_2; [done|]. eapply Hnone; [|done]. lia.
Qed.

(** The rows are built up to the first one that sums to zero. *)
Lemma oob_rows_cases oob_dict T B :
  (forall b, (b < B)%nat -> is_Some (oob_dict !! b)) ->
  (oob_rows oob_dict T B = Raise RuntimeError /\
   exists i, (i < T)%nat /\ Qsum (indicator_row oob_dict B i) == 0) \/
  (oob_rows oob_dict T B = Ok (map (indicator_row oob_dict B) (seq 0 T)) /\
   forall i, (i < T)%nat -> ~ Qsum (indicator_row oob_dict B i) == 0).
Proof.
  intros Hdom. unfold oob_rows.
  assert (forall l : list nat,
    (mapR (fun i => r ← oobs_for_unit oob_dict B i;
                    if Qeq_bool (Qsum r) 0 then Raise RuntimeError else Ok r) l
       = Raise RuntimeError /\
     exists i, i ∈ l /\ Qsum (indicator_row oob_dict B i) == 0) \/
    (mapR (fun i => r ← oobs_for_unit oob_dict B i;
                    if Qeq_bool (Qsum r) 0 then Raise RuntimeError else Ok r) l
       = Ok (map (indicator_row oob_dict B) l) /\
     forall i, i ∈ l -> ~ Qsum (indicator_row oob_dict B i) == 0)) as Hgen.
  { induction l as [|i l IH]; simpl.
    - right. split; [done|]. intros i Hi. by apply elem_of_nil in Hi.
    - rewrite oobs_for_unit_row by done. simpl.
      destruct (Qeq_bool (Qsum (indicator_row oob_dict B i)) 0) eqn:E.
      + left. split; [done|]. exists i. split; [by left|by apply Qeq_bool_iff].
      + apply Qeq_bool_neq in E. destruct IH as [[-> (j & Hj & Hz)]|[-> Hnz]]; simpl.
        * left. split; [done|]. exists j. split; [by right|done].
        * right. split; [done|]. intros j [->|Hj]%elem_of_cons; auto. }
  destruct (Hgen (seq 0 T)) as [[Hr (i & Hi%elem_of_seq & Hz)]|[Hr Hnz]].
  - left. split; [done|]. exists i. split; [lia|done].
  - right. split; [done|]. intros i Hi. apply Hnz, elem_of_seq. lia.
Qed.

Lemma Qsum_scale (c : Q) (row : list Q) :
  Qsum (map (fun x => x / c) row) == Qsum row / c.
Proof.
  induction row as [|x row IH]; simpl; [reflexivity|].
  rewrite IH. unfold Qdiv. ring.
Qed.

(** A row with a non-zero sum sums to 1 once divided by it. *)
Lemma normalized_row_sum (row : list Q) :
  ~ Qsum row == 0 -> Qsum (map (fun x => x / Qsum row) row) == 1.
Proof. intros Hnz. rewrite Qsum_scale. unfold Qdiv. by apply Qmult_inv_r. Qed.

Lemma build_oob_matrix_cases oob_dict T B :
  (forall b, (b < B)%nat -> is_Some (oob_dict !! b)) ->
  (build_oob_matrix oob_dict T B = Raise RuntimeError /\
   exists i, (i < T)%nat /\
     forall b oob, (b < B)%nat -> oob_dict !! b = Some oob -> i ∉ oob) \/
  (exists m, build_oob_matrix oob_dict T B = Ok m /\
     length m = T /\
     Forall (fun row => length row = B /\ Qsum row == 1) m /\
     forall i, (i < T)%nat ->
       exists b oob, (b < B)%nat /\ oob_dict !! b = Some oob /\ i ∈ oob).
Proof.
  intros Hdom. unfold build_oob_matrix.
  destruct (oob_rows_cases oob_dict T B Hdom) as [[-> (i & Hi & Hz)]|[-> Hnz]]; simpl.
  - left. split; [done|]. exists i. split; [done|]. by apply indicator_row_zero.
  - right. eexists. split; [reflexivity|]. repeat split.
    + unfold normalize_rows. by rewrite !length_map, length_seq.
    + unfold normalize_rows. apply Forall_fmap, Forall_fmap, Forall_forall.
      intros i Hi%elem_of_seq. simpl. split.
      * unfold indicator_row. by rewrite !length_map, length_seq.
      * apply normalized_row_sum, Hnz. lia.
    + intros i Hi. specialize (Hnz i Hi).
      rewrite indicator_row_zero in Hnz by done.
      (* some model has [i] out-of-bag: search the models *)
      assert (forall n, (n <= B)%nat ->
        (exists b oob, (b < n)%nat /\ oob_dict !! b = Some oob /\ i ∈ oob) \/
        (forall b oob, (b < n)%nat -> oob_dict !! b = Some oob -> i ∉ oob)) as Hsearch.
      { induction n as [|n IH]; intros Hn; [right; intros; lia|].
        destruct IH as [(b & oob & Hb & Hoob & Hin)|Hnone]; [lia| |].
        - left. exists b, oob. split; [lia|done].
        - destruct (Hdom n) as [oob Hoob]; [lia|].
          destruct (decide (i ∈ oob)) as [Hin|Hnin].
          + left. exists n, oob. split; [lia|done].
          + right. intros b oob' Hb Hoob'.
            destruct (decide (b = n)) as [->|Hne]; [congruence|].
            eapply Hnone; [|done]. lia. }
      destruct (Hsearch B) as [Hfound|Hnone]; [lia|done|].
      exfalso. by apply Hnz.
Qed.

End OobMatrix.

(** *** [fit] *)

Section Fit.
Context `{Collaborators}.

Lemma mapR_returns {A B : Type} (f : A -> result B) (l : list A) :
  (forall x, x ∈ l -> returns (f x)) ->
  exists r, mapR f l = Ok r /\ length r = length l.
Proof.
  induction l as [|x l IH]; intros Hf; simpl; [by exists []|].
  destruct (Hf x) as [y ->]; [by left|]. simpl.
  destruct IH as (r & -> & Hlen); [intros z Hz; apply Hf; by right|].
  exists (y :: r). simpl. by rewrite Hlen.
Qed.

Lemma fancy_index_returns {A : Type} (xs : list A) (idxs : list nat) :
  Forall (fun i => i < length xs) idxs -> returns (fancy_index xs idxs).
Proof.
  intros Hall. destruct (mapR_returns (getitem xs) idxs) as (r & Hr & _).
  - intros i Hi. unfold getitem.
    destruct (lookup_lt_is_Some_2 xs i) as [x ->]; [|by eexists].
    by eapply (proj1 (Forall_forall _ _) Hall).
  - by exists r.
Qed.

Lemma fit_boot_predictors_returns self boot_dict X_train y_train :
  length y_train = length X_train ->
  (forall b, b < B self -> is_Some (boot_dict !! b)) ->
  map_Forall (fun _ boot => Forall (fun i => i < length X_train) boot) boot_dict ->
  exists ps, fit_boot_predictors self boot_dict X_train y_train = Ok ps /\
             length ps = B self.
Proof.
  intros Hlen Hdom Hrange.
  destruct (mapR_returns
    (fun b =>
       boot ← match boot_dict !! b with
              | Some boot => Ok boot
              | None => Raise KeyError
              end;
       X_boot ← fancy_index X_train boot;
       y_boot ← fancy_index y_train boot;
       Ok (predictor_fit (predictor_copy (predictor self)) X_boot y_boot))
    (seq 0 (B self))) as (ps & Hps & Hl).
  - intros b Hb%elem_of_seq. destruct (Hdom b) as [boot Hboot]; [lia|].
    rewrite Hboot. simpl. pose proof (Hrange b boot Hboot) as Hb'. simpl in Hb'.
    destruct (fancy_index_returns X_train boot Hb') as [Xb ->]. simpl.
    destruct (fancy_index_returns y_train boot) as [yb ->]; [by rewrite Hlen|].
    simpl. by eexists.
  - exists ps. split; [exact Hps|]. by rewrite Hl, length_seq.
Qed.

Lemma boot_predictions_returns preds B X :
  B <= length preds -> returns (boot_predictions preds B X).
Proof.
  intros HB. destruct (mapR_returns
    (fun b => p ← getitem preds b; Ok (predictor_predict p X)) (seq 0 B))
    as (r & Hr & _).
  - intros b Hb%elem_of_seq. unfold getitem.
    destruct (lookup_lt_is_Some_2 preds b) as [p ->]; [lia|]. simpl. by eexists.
  - by exists r.
Qed.

(** C6 does not hold of the code: [fit] may neither fail nor succeed.
    With [random_state] given, if the draw of some model [b] under its
    seed [random_state + b] contains every training sample, the sampling
    loop of that model never ends: whatever the number of turns allowed,
    [fit] produces no outcome.  With a single model the one bootstrap
    set then contains every training sample, and no [RuntimeError] is
    raised for it. *)
Theorem fit_covering_draw_never_ends self X_train y_train (seed : Z) (b : nat) :
  random_state self = Some seed ->
  b < B self ->
  setdiff1d (seq 0 (length X_train))
    (draw (seed_rng (seed + Z.of_nat b)) (length X_train)).1 = [] ->
  forall fuel g, fit fuel self X_train y_train g = None.
Proof.
  intros Hseed Hb Hempty fuel g. unfold fit. rewrite Hseed.
  rewrite (sample_all_covering_draw seed (length X_train) b); try done.
  apply elem_of_seq. lia.
Qed.

(** X28.  Once the sampling loops have ended and the bootstrap sets are
    drawn, [fit] on a training set of size [T] with [B] bootstrap models
    fails if and only if some training sample is contained in every one
    of the [B] bootstrap index sets, and then with the [RuntimeError] of
    the OOB check; when [fit] succeeds, it has stored those bootstrap
    sets and a [T x B] matrix whose every row sums to 1 (exactly, in
    rational arithmetic, hence within 1e-9). *)
Theorem fit_oob_invariant self X_train y_train fuel g run g'
    (σ : gmap nat (list Q)) :
  draw_valid ->
  length y_train = length X_train ->
  is_Some (σ !! residuals self) ->
  fit fuel self X_train y_train g = Some (run, g') ->
  exists boot_dict oob_dict,
    sample_all fuel (random_state self) (length X_train) (seq 0 (B self)) ∅ ∅ g
    = Some (boot_dict, oob_dict, g') /\
    (forall b, b < B self <-> is_Some (boot_dict !! b)) /\
    ((exists e, (run σ).1 = Raise e) <->
     exists i, i < length X_train /\
       forall b boot, boot_dict !! b = Some boot -> i ∈ boot) /\
    (forall e, (run σ).1 = Raise e -> e = RuntimeError) /\
    (forall self', (run σ).1 = Ok self' ->
       _boot_dict self' = boot_dict /\
       exists m, _oob_matrix self' = Some m /\
         length m = length X_train /\
         Forall (fun row => length row = B self /\
                            (Qabs (Qsum row - 1) <= 1 # 1000000000)%Q) m).
Proof.
  intros Hvalid Hlen [old Hold] Hfit. unfold fit in Hfit.
  destruct (sample_all _ _ _ _ _ _ _) as [[[boot_dict oob_dict] g1]|] eqn:Hs; [|done].
  injection Hfit as <- <-.
  exists boot_dict, oob_dict. split; [done|].
  apply sample_all_Some in Hs as (Hod & Hrange & Hdom);
    [|done|by rewrite fmap_empty|apply map_Forall_empty].
  assert (forall b, b < B self <-> is_Some (boot_dict !! b)) as Hdom'.
  { intros b. rewrite Hdom, elem_of_seq, lookup_empty. split.
    - intros Hb. right. lia.
    - intros [[? ?]|?]; [done|lia]. }
  split; [exact Hdom'|].
  assert (forall b, b < B self -> is_Some (oob_dict !! b)) as Hdom_oob.
  { intros b Hb. rewrite Hod, lookup_fmap. apply fmap_is_Some. by apply Hdom'. }
  (* in range, out-of-bag is the complement of the bootstrap set *)
  assert (forall i b, i < length X_train -> b < B self ->
            (forall oob, oob_dict !! b = Some oob -> i ∉ oob) <->
            (forall boot, boot_dict !! b = Some boot -> i ∈ boot)) as Hcompl.
  { intros i b Hi Hb. destruct (proj1 (Hdom' b) Hb) as [boot Hboot].
    rewrite Hod, lookup_fmap, Hboot. simpl. split.
    - intros Hnot boot' [= <-].
      destruct (decide (i ∈ boot)) as [|Hnin]; [done|].
      exfalso. apply (Hnot _ eq_refl). unfold setdiff1d.
      apply list_elem_of_filter. split; [done|]. apply elem_of_seq. lia.
    - intros Hin oob [= <-]. unfold setdiff1d.
      rewrite list_elem_of_filter. intros [Hnin _]. apply Hnin. by apply Hin. }
  remember (fit_sampled self X_train y_train boot_dict oob_dict σ) as out eqn:Hout.
  unfold fit_sampled in Hout.
  destruct (build_oob_matrix_cases oob_dict (length X_train) (B self) Hdom_oob)
    as [[Hm (i & Hi & Hnone)]|(m & Hm & Hrows & Hsum & Hsome)].
  - (* the OOB check fires *)
    rewrite (bind_raise _ _ σ RuntimeError σ) in Hout
      by (unfold lift; by rewrite Hm).
    subst out. cbn [fst]. split; [split|split].
    + intros _. exists i. split; [done|]. intros b boot Hboot.
      assert (b < B self) as Hb by (apply Hdom'; by eexists).
      eapply Hcompl; eauto.
    + intros _. by exists RuntimeError.
    + by intros e [= <-].
    + intros self' Hok. discriminate.
  - (* the matrix is built; the rest of [fit] goes through *)
    rewrite (bind_ok _ _ σ m σ) in Hout by (unfold lift; by rewrite Hm).
    destruct (fit_boot_predictors_returns self boot_dict X_train y_train)
      as (ps & Hps & Hpslen); [done|by intros b Hb; apply Hdom'|done|].
    rewrite (bind_ok _ _ σ ps σ) in Hout by (unfold lift; by rewrite Hps).
    destruct (boot_predictions_returns ps (B self) X_train) as [bp Hbp]; [lia|].
    rewrite (bind_ok _ _ σ bp σ) in Hout by (unfold lift; by rewrite Hbp).
    erewrite bind_ok in Hout;
      [|unfold lift, _compute_boot_residuals; simpl; reflexivity].
    erewrite bind_ok in Hout; [|by apply extend_allocated].
    unfold mret, M_ret in Hout. subst out. cbn [fst]. split; [split|split].
    + intros [e He]. discriminate.
    + intros (i & Hi & Hall). exfalso.
      destruct (Hsome i Hi) as (b & oob & Hb & Hoob & Hin).
      revert Hin. eapply Hcompl; eauto.
    + intros e He. discriminate.
    + intros self' [= <-]. cbn [_boot_dict _oob_matrix B].
      split; [done|]. exists m. split; [done|]. split; [done|].
      eapply Forall_impl; [exact Hsum|]. intros row [Hl Hs]. split; [done|].
      rewrite Hs. vm_compute. discriminate.
Qed.

End Fit.

(** One model under seed 0 on two training samples: the counter
    generator draws [0, 1], both samples are in the one bootstrap set,
    and [fit] is still sampling after 1000 turns. *)
Lemma fit_covering_draw_never_ends_witness :
  (draw (Collaborators := Instances.mean_ensemble)
     (seed_rng (Collaborators := Instances.mean_ensemble) 0%Z) 2).1 = [0; 1] /\
  fit (H := Instances.mean_ensemble) 1000 Instances.ensemble_seeded
    [0%Q; 1%Q] [1%Q; 2%Q] 0 = None.
Proof.
  split; [reflexivity|].
  apply (fit_covering_draw_never_ends (H := Instances.mean_ensemble)
           Instances.ensemble_seeded [0%Q; 1%Q] [1%Q; 2%Q] 0%Z 0).
  - reflexivity.
  - simpl. lia.
  - reflexivity.
Defined.

Lemma fit_oob_invariant_witness :
  exists boot_dict oob_dict,
    sample_all (H := Instances.mean_ensemble) 5 None 3 (seq 0 3) ∅ ∅ 0
    = Some (boot_dict, oob_dict, 3) /\
    (forall b, b < 3 <-> is_Some (boot_dict !! b)) /\
    ((exists e, (fit_sampled Instances.ensemble0 Instances.train_X
                   Instances.train_y Instances.drawn_boot Instances.drawn_oob
                   Instances.store0).1 = Raise e) <->
     exists i, i < 3 /\ forall b boot, boot_dict !! b = Some boot -> i ∈ boot) /\
    (forall e, (fit_sampled Instances.ensemble0 Instances.train_X
                  Instances.train_y Instances.drawn_boot Instances.drawn_oob
                  Instances.store0).1 = Raise e -> e = RuntimeError) /\
    (forall self', (fit_sampled Instances.ensemble0 Instances.train_X
                      Instances.train_y Instances.drawn_boot Instances.drawn_oob
                      Instances.store0).1 = Ok self' ->
       _boot_dict self' = boot_dict /\
       exists m, _oob_matrix self' = Some m /\
         length m = 3 /\
         Forall (fun row => length row = 3 /\
                            (Qabs (Qsum row - 1) <= 1 # 1000000000)%Q) m).
Proof.
  apply (fit_oob_invariant (H := Instances.mean_ensemble)
           Instances.ensemble0 Instances.train_X Instances.train_y 5 0
           (fit_sampled Instances.ensemble0 Instances.train_X Instances.train_y
              Instances.drawn_boot Instances.drawn_oob)
           3 Instances.store0).
  - exact counter_draw_valid.
  - reflexivity.
  - exists []. reflexivity.
  - reflexivity.
Defined.

(** On that input [fit] succeeds, and each training sample is out-of-bag
    for exactly one of the three models. *)
Example fit_counter_generator :
  match fit_sampled Instances.ensemble0 Instances.train_X Instances.train_y
          Instances.drawn_boot Instances.drawn_oob Instances.store0 with
  | (Ok self', σ') =>
      _oob_matrix self' = Some [[0; 1; 0]; [0; 0; 1]; [1; 0; 0]]%Q /\
      σ' !! residuals self' = Some [63 # 27; 63 # 27; 126 # 27]%Q
  | (Raise _, _) => False
  end.
Proof. vm_compute. split; reflexivity. Qed.

End EnbPIFacts.

(** * Further properties of [quantile] *)

Module QuantileMore.
Import Quantile.
Import QuantileFacts.
Local Open Scope Q_scope.

(** X1.  Where the weights add without rounding, the weighted quantile is
    the weighted quantile of the distribution that puts weight [w_i] on
    residual [a_i]: for non-negative weights of sum 1 that pass the
    normalisation check, less than [alpha] of the weight lies strictly
    below the returned value, at least [alpha] lies at or below it, and no
    other value has both properties. *)
Theorem quantile_weighted_mass {np : Numpy} (a w : list Q) (alpha : Q) :
  0 < alpha -> alpha < 1 ->
  length w = length a ->
  Forall (Qle 0) w ->
  Qsum w == 1 ->
  np_isclose (np_sum w) 1 atol = true ->
  sums_exact a w ->
  exists v,
    quantile (Arr1 a) alpha (Some (Arr1 w)) = Ok v /\
    mass_below v a w < alpha /\
    alpha <= mass_upto v a w /\
    forall u, mass_below u a w < alpha -> alpha <= mass_upto u a w -> u == v.
Proof.
  intros H0 H1 Hlen Hw Hsum Hclose Hexact.
  destruct (quantile_exact_first a w alpha)
    as (k & i & v & Hk & Hv & Hge & Hlt & Hq); try done.
  { lra. }
  assert (v = key a i) as ->.
  { unfold key. symmetry. by apply nth_lookup_Some. }
  destruct (first_position_mass a w alpha (np_argsort a) k i) as [Hb Hu];
    try done; [apply np_argsort_perm|apply np_argsort_sorted|].
  exists (key a i). repeat split; try done.
  intros u Hbu Huu. by eapply mass_bounds_unique.
Qed.

Lemma quantile_weighted_mass_witness :
  exists v,
    quantile (np := Instances.numpy_stable)
      (Arr1 [3; 1; 2]) (1 # 2) (Some (Arr1 [1 # 4; 1 # 4; 1 # 2])) = Ok v /\
    mass_below v [3; 1; 2] [1 # 4; 1 # 4; 1 # 2] < 1 # 2 /\
    1 # 2 <= mass_upto v [3; 1; 2] [1 # 4; 1 # 4; 1 # 2] /\
    forall u, mass_below u [3; 1; 2] [1 # 4; 1 # 4; 1 # 2] < 1 # 2 ->
              1 # 2 <= mass_upto u [3; 1; 2] [1 # 4; 1 # 4; 1 # 2] -> u == v.
Proof.
  apply (quantile_weighted_mass (np := Instances.numpy_stable)
           [3; 1; 2] [1 # 4; 1 # 4; 1 # 2] (1 # 2)).
  - reflexivity.
  - reflexivity.
  - reflexivity.
  - repeat constructor; discriminate.
  - reflexivity.
  - vm_compute. reflexivity.
  - vm_compute. repeat constructor.
Defined.

(** X2.  The weighted quantile does not decrease when [alpha] grows. *)
Theorem quantile_weighted_monotone {np : Numpy} (a w : list Q) (alpha1 alpha2 v1 v2 : Q) :
  0 < alpha1 -> alpha1 <= alpha2 -> alpha2 < 1 ->
  length w = length a ->
  Qsum w == 1 ->
  quantile (Arr1 a) alpha1 (Some (Arr1 w)) = Ok v1 ->
  quantile (Arr1 a) alpha2 (Some (Arr1 w)) = Ok v2 ->
  v1 <= v2.
Proof.
  intros H0 H12 H1 Hlen Hsum Hq1 Hq2.
  destruct (quantile_weighted_inv a w alpha1 v1 Hq1)
    as (k1 & i1 & c1 & Hk1 & Hu1 & Hc1 & Hf1 & Hb1).
  destruct (quantile_weighted_inv a w alpha2 v2 Hq2)
    as (k2 & i2 & c2 & Hk2 & Hu2 & Hc2 & Hf2 & Hb2).
  assert (k1 <= k2)%nat as Hk.
  { destruct (decide (k1 <= k2)%nat) as [|Hgt]; [done|].
    assert (fl_ge c2 alpha1 = false) as Hn by (apply (Hb1 k2); [lia|done]).
    destruct c2 as [s| | |]; simpl in *; try done.
    apply Qle_bool_iff in Hf2. apply Qle_bool_false in Hn. lra. }
  rewrite <- (nth_lookup_Some a i1 0 v1 Hu1), <- (nth_lookup_Some a i2 0 v2 Hu2).
  eapply (sorted_lookup_le a (np_argsort a) k1 k2); eauto.
  apply np_argsort_sorted.
Qed.

Lemma quantile_weighted_monotone_witness :
  quantile (np := Instances.numpy_stable)
    (Arr1 [3; 1; 2]) (1 # 5) (Some (Arr1 [1 # 4; 1 # 4; 1 # 2])) = Ok 1 /\
  quantile (np := Instances.numpy_stable)
    (Arr1 [3; 1; 2]) (1 # 2) (Some (Arr1 [1 # 4; 1 # 4; 1 # 2])) = Ok 2 /\
  1 <= 2.
Proof.
  split; [vm_compute; reflexivity|]. split; [vm_compute; reflexivity|].
  apply (quantile_weighted_monotone (np := Instances.numpy_stable)
           [3; 1; 2] [1 # 4; 1 # 4; 1 # 2] (1 # 5) (1 # 2) 1 2).
  - reflexivity.
  - discriminate.
  - reflexivity.
  - reflexivity.
  - reflexivity.
  - vm_compute. reflexivity.
  - vm_compute. reflexivity.
Defined.

(** X3.  A total weight below [alpha] is not caught by the checks: when
    non-negative weights pass the normalisation check and add, without
    rounding, to less than [alpha], no running sum reaches [alpha] and
    [quantile] ends in the [IndexError] of indexing an empty selection. *)
Theorem quantile_mass_short {np : Numpy} (a w : list Q) (alpha : Q) :
  0 < alpha -> alpha < 1 ->
  length w = length a ->
  Forall (Qle 0) w ->
  np_isclose (np_sum w) 1 atol = true ->
  sums_exact a w ->
  Qsum w < alpha ->
  quantile (Arr1 a) alpha (Some (Arr1 w)) = Raise IndexError.
Proof.
  intros H0 H1 Hlen Hw Hclose Hexact Hshort.
  rewrite quantile_weighted_run by done.
  rewrite (fl_ge_exact _ _ alpha Hexact).
  set (ws := map (key w) (np_argsort a)).
  assert (Qsum ws == Qsum w) as Hsum.
  { unfold ws. rewrite (Qsum_Permutation _ (map (key w) (seq 0 (length w)))).
    - by rewrite map_key_seq.
    - apply Permutation_map. rewrite Hlen. apply np_argsort_perm. }
  assert (Forall (Qle 0) ws) as Hws.
  { apply Forall_fmap, Forall_forall. intros j _. by apply key_nonneg. }
  pose proof (boolean_index_head (Qle_bool alpha) (np_argsort a) (cumsum ws)) as Hhead.
  unfold cumsum in Hhead at 1.
  rewrite cumsum_from_length in Hhead.
  assert (length (np_argsort a) = length ws) as Hl by (unfold ws; by rewrite length_map).
  specialize (Hhead Hl).
  destruct (boolean_index (np_argsort a) (map (Qle_bool alpha) (cumsum ws)))
    as [|i rest]; [done|].
  exfalso. destruct Hhead as (k & c & _ & Hc & Hf & _).
  apply Qle_bool_iff in Hf. apply cumsum_from_lookup in Hc.
  assert (Qsum (take (S k) ws) <= Qsum ws) as Hpart.
  { rewrite <- (take_drop (S k) ws) at 2. rewrite Qsum_app.
    assert (0 <= Qsum (drop (S k) ws)) by by apply Qsum_nonneg, Forall_drop.
    lra. }
  lra.
Qed.

Lemma quantile_mass_short_witness :
  quantile (np := Instances.numpy_stable)
    (Arr1 [1; 2]) (4194303 # 4194304) (Some (Arr1 [1 # 2; 1048575 # 2097152]))
  = Raise IndexError.
Proof.
  apply (quantile_mass_short (np := Instances.numpy_stable)
           [1; 2] [1 # 2; 1048575 # 2097152] (4194303 # 4194304)).
  - reflexivity.
  - reflexivity.
  - reflexivity.
  - repeat constructor; discriminate.
  - vm_compute. reflexivity.
  - vm_compute. repeat constructor.
  - reflexivity.
Defined.

(** *** Without weights *)

(** The position [np.quantile] reads with [method="higher"]. *)
Lemma higher_position_lt (n : nat) (alpha : Q) :
  0 < alpha -> alpha < 1 -> (0 < n)%nat ->
  (Z.to_nat (Qceiling (alpha * inject_Z (Z.of_nat (n - 1)))) < n)%nat.
Proof.
  intros H0 H1 Hn. set (n1 := Z.of_nat (n - 1)).
  assert (Qceiling (alpha * inject_Z n1) <= n1)%Z.
  { rewrite <- (Qceiling_Z n1) at 2. apply Qceiling_resp_le.
    assert (inject_Z 0 <= inject_Z n1) by (rewrite <- Zle_Qle; unfold n1; lia).
    change (inject_Z 0) with 0 in *. nra. }
  unfold n1 in *. lia.
Qed.

Lemma np_quantile_higher_at (a : list Q) (alpha : Q) :
  0 < alpha -> alpha < 1 -> a <> [] ->
  exists i,
    argsort a !! Z.to_nat (Qceiling (alpha * inject_Z (Z.of_nat (length a - 1))))
    = Some i /\
    (i < length a)%nat /\
    np_quantile_higher a alpha = Ok (key a i).
Proof.
  intros H0 H1 Hne.
  assert (0 < length a)%nat as Hn by (destruct a; [done|simpl; lia]).
  pose proof (higher_position_lt (length a) alpha H0 H1 Hn) as Hpos.
  rewrite <- (argsort_length a) in Hpos at 2.
  destruct (lookup_lt_is_Some_2 _ _ Hpos) as [i Hi].
  assert (i < length a)%nat as Hi'.
  { eapply (proj1 (Forall_lookup _ _) (argsort_in_range a)); eauto. }
  exists i. split; [done|]. split; [done|].
  unfold np_quantile_higher. destruct a as [|x xs]; [done|].
  rewrite Hi. by apply getitem_lt.
Qed.

(** X4.  Without weights, on a non-empty one-dimensional [a] and [alpha]
    strictly between 0 and 1, [quantile] returns one of the residuals:
    the empirical quantile is an observed value, not an interpolation. *)
Theorem quantile_unweighted_member {np : Numpy} (a : list Q) (alpha : Q) :
  0 < alpha -> alpha < 1 -> a <> [] ->
  exists v, quantile (Arr1 a) alpha None = Ok v /\ In v a.
Proof.
  intros H0 H1 Hne.
  destruct (np_quantile_higher_at a alpha H0 H1 Hne) as (i & _ & Hi & Hq).
  exists (key a i). split.
  - unfold quantile. rewrite alpha_check_pass by done. simpl. exact Hq.
  - unfold key. by apply nth_In.
Qed.

Lemma quantile_unweighted_member_witness :
  exists v,
    quantile (np := Instances.numpy_stable) (Arr1 [3; 1; 2; 1]) (1 # 2) None = Ok v /\
    In v [3; 1; 2; 1].
Proof.
  apply (quantile_unweighted_member (np := Instances.numpy_stable)
           [3; 1; 2; 1] (1 # 2)).
  - reflexivity.
  - reflexivity.
  - discriminate.
Defined.

(** X5.  Without weights too the quantile does not decrease when [alpha]
    grows. *)
Theorem quantile_unweighted_monotone {np : Numpy} (a : list Q) (alpha1 alpha2 v1 v2 : Q) :
  0 < alpha1 -> alpha1 <= alpha2 -> alpha2 < 1 ->
  quantile (Arr1 a) alpha1 None = Ok v1 ->
  quantile (Arr1 a) alpha2 None = Ok v2 ->
  v1 <= v2.
Proof.
  intros H0 H12 H1 Hq1 Hq2.
  assert (a <> []) as Hne.
  { intros ->. unfold quantile in Hq1.
    rewrite alpha_check_pass in Hq1 by (done || lra). done. }
  destruct (np_quantile_higher_at a alpha1) as (i1 & Hp1 & _ & Hv1); try done; try lra.
  destruct (np_quantile_higher_at a alpha2) as (i2 & Hp2 & _ & Hv2); try done; try lra.
  unfold quantile in Hq1, Hq2.
  rewrite alpha_check_pass in Hq1 by (done || lra).
  rewrite alpha_check_pass in Hq2 by (done || lra).
  simpl in Hq1, Hq2. rewrite Hv1 in Hq1. rewrite Hv2 in Hq2. simplify_eq.
  eapply (sorted_lookup_le a (argsort a)); [apply argsort_of_sorted| |exact Hp1|exact Hp2].
  apply Z2Nat.inj_le.
  - apply (Z.le_trans _ (Qceiling 0)); [done|]. apply Qceiling_resp_le.
    assert (inject_Z 0 <= inject_Z (Z.of_nat (length a - 1)))
      by (rewrite <- Zle_Qle; lia).
    change (inject_Z 0) with 0 in *. nra.
  - apply (Z.le_trans _ (Qceiling 0)); [done|]. apply Qceiling_resp_le.
    assert (inject_Z 0 <= inject_Z (Z.of_nat (length a - 1)))
      by (rewrite <- Zle_Qle; lia).
    change (inject_Z 0) with 0 in *. nra.
  - apply Qceiling_resp_le.
    assert (inject_Z 0 <= inject_Z (Z.of_nat (length a - 1)))
      by (rewrite <- Zle_Qle; lia).
    change (inject_Z 0) with 0 in *. nra.
Qed.

Lemma quantile_unweighted_monotone_witness :
  quantile (np := Instances.numpy_stable) (Arr1 [3; 1; 2; 1]) (1 # 4) None = Ok 1 /\
  quantile (np := Instances.numpy_stable) (Arr1 [3; 1; 2; 1]) (1 # 2) None = Ok 2 /\
  1 <= 2.
Proof.
  split; [reflexivity|]. split; [reflexivity|].
  apply (quantile_unweighted_monotone (np := Instances.numpy_stable)
           [3; 1; 2; 1] (1 # 4) (1 # 2) 1 2).
  - reflexivity.
  - discriminate.
  - reflexivity.
  - reflexivity.
  - reflexivity.
Defined.

Lemma Qsum_const (c : Q) (l : list Q) :
  Forall (fun x => x == c) l -> Qsum l == inject_Z (Z.of_nat (length l)) * c.
Proof.
  induction 1 as [|x l Hx _ IH]; simpl length; simpl Qsum.
  - change (inject_Z (Z.of_nat 0)) with 0. ring.
  - rewrite Nat2Z.inj_succ, <- Z.add_1_l, inject_Z_plus, Hx, IH.
    change (inject_Z 1) with 1. ring.
Qed.

(** Two ascending orders of [a] hold the same value at every position. *)
Lemma sorted_position_value (a : list Q) (idxs1 idxs2 : list nat) (p j1 j2 : nat) :
  idxs1 ≡ₚ seq 0 (length a) -> StronglySorted (key_le a) idxs1 ->
  idxs2 ≡ₚ seq 0 (length a) -> StronglySorted (key_le a) idxs2 ->
  idxs1 !! p = Some j1 -> idxs2 !! p = Some j2 ->
  key a j1 == key a j2.
Proof.
  intros Hp1 Hs1 Hp2 Hs2 Hj1 Hj2.
  set (w := replicate (length a) 1).
  set (alpha := inject_Z (Z.of_nat (S p))).
  assert (Forall (Qle 0) w) as Hw by (apply Forall_replicate; discriminate).
  assert (p < length a)%nat as Hp.
  { apply lookup_lt_Some in Hj1. by rewrite Hp1, length_seq in Hj1. }
  assert (forall idxs k, idxs ≡ₚ seq 0 (length a) -> (k < length a)%nat ->
            cum_weight w idxs k == inject_Z (Z.of_nat (S k))) as Hcum.
  { intros idxs k Hperm Hk. unfold cum_weight. rewrite (Qsum_const 1).
    - rewrite length_map, length_take, Hperm, length_seq.
      replace (S k `min` length a)%nat with (S k) by lia. ring.
    - apply Forall_fmap, Forall_forall. intros j Hj. apply subseteq_take in Hj.
      rewrite Hperm in Hj. apply elem_of_seq in Hj.
      simpl. unfold key, w. erewrite nth_lookup_Some; [reflexivity|].
      apply lookup_replicate_2. lia. }
  assert (0 < alpha) as H0.
  { unfold alpha. change 0 with (inject_Z 0). rewrite <- Zlt_Qlt. lia. }
  assert (forall idxs, idxs ≡ₚ seq 0 (length a) ->
            alpha <= cum_weight w idxs p /\
            forall k', (k' < p)%nat -> cum_weight w idxs k' < alpha) as Hpos.
  { intros idxs Hperm. split.
    - rewrite Hcum by done. apply Qle_refl.
    - intros k' Hk'. rewrite Hcum by (done || lia).
      unfold alpha. rewrite <- Zlt_Qlt. lia. }
  destruct (Hpos idxs1 Hp1) as [Hge1 Hlt1]. destruct (Hpos idxs2 Hp2) as [Hge2 Hlt2].
  destruct (first_position_mass a w alpha idxs1 p j1) as [Hb1 Hu1]; try done.
  destruct (first_position_mass a w alpha idxs2 p j2) as [Hb2 Hu2]; try done.
  by eapply mass_bounds_unique.
Qed.

(** X6.  The source notes that giving every residual the weight [1 / n]
    would be equivalent to the unweighted branch.  It is not: with
    uniform weights [quantile] reads the sorted residuals at the first
    position whose rank reaches [alpha * n], without weights at position
    [ceil (alpha * (n - 1))], which is never earlier.  On a non-empty
    one-dimensional [a] whose uniform weights pass the normalisation
    check and add without rounding (as for a length that is a power of
    two), both calls return, and the weighted value is at most the
    unweighted one. *)
Theorem quantile_uniform_le_unweighted {np : Numpy} (a : list Q) (alpha : Q) :
  0 < alpha -> alpha < 1 -> a <> [] ->
  let w := replicate (length a) (1 / inject_Z (Z.of_nat (length a))) in
  np_isclose (np_sum w) 1 atol = true ->
  sums_exact a w ->
  exists v_w v_u,
    quantile (Arr1 a) alpha (Some (Arr1 w)) = Ok v_w /\
    quantile (Arr1 a) alpha None = Ok v_u /\
    v_w <= v_u.
Proof.
  intros H0 H1 Hne w Hclose Hexact.
  set (n := length a) in *.
  set (N := inject_Z (Z.of_nat n)).
  set (c := 1 / N) in *.
  assert (0 < n)%nat as Hn by (unfold n; destruct a; [done|simpl; lia]).
  assert (0 < N) as HN.
  { unfold N. change 0 with (inject_Z 0). rewrite <- Zlt_Qlt. lia. }
  assert (N * c == 1) as HNc by (unfold c; field; lra).
  assert (0 < c) as Hc by (unfold c; apply Qlt_shift_div_l; lra).
  assert (length w = length a) as Hlen by apply length_replicate.
  assert (Qsum w == 1) as Hsum.
  { rewrite (Qsum_const c); [by rewrite Hlen|].
    apply Forall_replicate. reflexivity. }
  destruct (quantile_exact_first a w alpha)
    as (k & i & v & Hk & Hv & Hge & Hlt & Hq); try done.
  { lra. }
  destruct (np_quantile_higher_at a alpha H0 H1 Hne) as (i' & Hp & Hi' & Hq').
  fold n in Hp. set (p := Z.to_nat (Qceiling (alpha * inject_Z (Z.of_nat (n - 1))))) in *.
  exists v, (key a i'). split; [done|]. split.
  { unfold quantile. rewrite alpha_check_pass by done. simpl. exact Hq'. }
  assert (p < n)%nat as Hpn by by apply higher_position_lt.
  (* the rank [p + 1] reaches [alpha * n] *)
  assert (alpha <= cum_weight w (np_argsort a) p) as Hreach.
  { unfold cum_weight. rewrite (Qsum_const c).
    2: { apply Forall_fmap, Forall_forall. intros j Hj. apply subseteq_take in Hj.
         simpl. unfold key. erewrite nth_lookup_Some; [reflexivity|].
         apply lookup_replicate_2.
         by apply (proj1 (Forall_forall _ _) (np_argsort_in_range a)). }
    rewrite length_map, length_take, np_argsort_length. fold n.
    replace (S p `min` n)%nat with (S p) by lia.
    assert (alpha * inject_Z (Z.of_nat (n - 1)) <= inject_Z (Z.of_nat p)) as Hceil.
    { unfold p. rewrite Z2Nat.id; [apply Qle_ceiling|].
      rewrite <- (Qceiling_Z 0). apply Qceiling_resp_le.
      assert (inject_Z 0 <= inject_Z (Z.of_nat (n - 1))) by (rewrite <- Zle_Qle; lia).
      change (inject_Z 0) with 0 in *. nra. }
    assert (inject_Z (Z.of_nat (n - 1)) == N - 1) as HN1.
    { unfold N. replace (Z.of_nat (n - 1)) with (Z.of_nat n - 1)%Z by lia.
      unfold Zminus. rewrite inject_Z_plus. reflexivity. }
    assert (inject_Z (Z.of_nat (S p)) == inject_Z (Z.of_nat p) + 1) as HSp.
    { rewrite Nat2Z.inj_succ, <- Z.add_1_r, inject_Z_plus. reflexivity. }
    rewrite HSp. rewrite HN1 in Hceil.
    assert (0 <= (inject_Z (Z.of_nat p) + 1 - alpha * N) * c) as Hprod
      by (apply Qmult_le_0_compat; lra).
    assert ((inject_Z (Z.of_nat p) + 1 - alpha * N) * c
            == (inject_Z (Z.of_nat p) + 1) * c - alpha * (N * c)) as Heq by ring.
    rewrite Heq, HNc in Hprod. lra. }
  assert (k <= p)%nat as Hkp.
  { destruct (decide (k <= p)%nat) as [|Hgt]; [done|].
    assert (cum_weight w (np_argsort a) p < alpha) by (apply Hlt; lia). lra. }
  rewrite <- (nth_lookup_Some a i 0 v Hv).
  (* both positions are read along ascending orders of [a] *)
  destruct (lookup_lt_is_Some_2 (np_argsort a) p) as [j Hj].
  { by rewrite np_argsort_length. }
  apply (Qle_trans _ (key a j)).
  - eapply (sorted_lookup_le a (np_argsort a) k p); eauto.
    apply np_argsort_sorted.
  - rewrite (sorted_position_value a (np_argsort a) (argsort a) p j i'); try done.
    + lra.
    + apply np_argsort_perm.
    + apply np_argsort_sorted.
    + apply argsort_Permutation.
    + apply argsort_of_sorted.
Qed.

Lemma quantile_uniform_le_unweighted_witness :
  exists v_w v_u,
    quantile (np := Instances.numpy_stable) (Arr1 [1; 2]) (1 # 2)
      (Some (Arr1 (replicate 2 (1 / inject_Z (Z.of_nat 2))))) = Ok v_w /\
    quantile (np := Instances.numpy_stable) (Arr1 [1; 2]) (1 # 2) None = Ok v_u /\
    v_w <= v_u.
Proof.
  apply (quantile_uniform_le_unweighted (np := Instances.numpy_stable)
           [1; 2] (1 # 2)).
  - reflexivity.
  - reflexivity.
  - discriminate.
  - vm_compute. reflexivity.
  - vm_compute. repeat constructor.
Defined.

(** The two differ on two residuals at [alpha = 1/2]: the smaller one
    with uniform weights, the larger one without weights. *)
Example quantile_uniform_differs :
  quantile (np := Instances.numpy_stable)
    (Arr1 [1; 2]) (1 # 2) (Some (Arr1 [1 # 2; 1 # 2])) = Ok 1 /\
  quantile (np := Instances.numpy_stable) (Arr1 [1; 2]) (1 # 2) None = Ok 2.
Proof. split; vm_compute; reflexivity. Qed.

(** X26.  Past the checks, the weighted branch answers as soon as some
    running sum reaches [alpha]: for a one-dimensional [a], [alpha]
    strictly between 0 and 1 and weights of the same length that pass the
    normalisation check, if some running sum that [np.cumsum] forms along
    the ascending order of [a] reaches [alpha], then [quantile] returns
    the residual at the first position of that order whose running sum
    reaches [alpha], an element of [a]. *)
Theorem quantile_first_reached {np : Numpy} (a w : list Q) (alpha : Q) :
  0 < alpha -> alpha < 1 ->
  length w = length a ->
  np_isclose (np_sum w) 1 atol = true ->
  reached a w alpha ->
  exists k i v c,
    np_argsort a ≡ₚ seq 0 (length a) /\
    StronglySorted Qle (map (key a) (np_argsort a)) /\
    np_argsort a !! k = Some i /\
    a !! i = Some v /\
    np_cumsum (map (key w) (np_argsort a)) !! k = Some c /\
    fl_ge c alpha = true /\
    (forall k' c', (k' < k)%nat ->
       np_cumsum (map (key w) (np_argsort a)) !! k' = Some c' ->
       fl_ge c' alpha = false) /\
    quantile (Arr1 a) alpha (Some (Arr1 w)) = Ok v /\
    In v a.
Proof.
  intros H0 H1 Hlen Hclose Hreach.
  destruct (quantile_weighted_first a w alpha)
    as (k & i & v & c & Hk & Hv & Hc & Hf & Hbefore & Hq); try done.
  exists k, i, v, c. repeat split; try done.
  - apply np_argsort_perm.
  - apply np_argsort_values_sorted.
  - apply list_elem_of_In. by eapply list_elem_of_lookup_2.
Qed.

Lemma quantile_first_reached_witness :
  exists k i v c,
    np_argsort (Numpy := Instances.numpy_stable) [3; 1; 2] ≡ₚ seq 0 3 /\
    StronglySorted Qle
      (map (key [3; 1; 2]) (np_argsort (Numpy := Instances.numpy_stable) [3; 1; 2])) /\
    np_argsort (Numpy := Instances.numpy_stable) [3; 1; 2] !! k = Some i /\
    [3; 1; 2] !! i = Some v /\
    np_cumsum (map (key [1 # 4; 1 # 4; 1 # 2])
                 (np_argsort (Numpy := Instances.numpy_stable) [3; 1; 2])) !! k
    = Some c /\
    fl_ge c (1 # 2) = true /\
    (forall k' c', (k' < k)%nat ->
       np_cumsum (map (key [1 # 4; 1 # 4; 1 # 2])
                    (np_argsort (Numpy := Instances.numpy_stable) [3; 1; 2])) !! k'
       = Some c' ->
       fl_ge c' (1 # 2) = false) /\
    quantile (np := Instances.numpy_stable)
      (Arr1 [3; 1; 2]) (1 # 2) (Some (Arr1 [1 # 4; 1 # 4; 1 # 2])) = Ok v /\
    In v [3; 1; 2].
Proof.
  apply (quantile_first_reached (np := Instances.numpy_stable)
           [3; 1; 2] [1 # 4; 1 # 4; 1 # 2] (1 # 2)).
  - reflexivity.
  - reflexivity.
  - reflexivity.
  - vm_compute. reflexivity.
  - vm_compute. apply Exists_cons_tl, Exists_cons_hd. reflexivity.
Defined.

(** X27.  C1 holds where the weights add without rounding.  For a
    one-dimensional [a], [alpha] strictly between 0 and 1 and a weight
    vector [w] of the same length, non-negative and summing to 1, that
    passes the normalisation check and whose running sums are exact,
    [quantile a alpha w] returns the residual at the first position [k]
    of the ascending order of [a] where the cumulative weight reaches or
    exceeds [alpha]; the returned value is an element of [a]. *)
Theorem quantile_exact_sums_correct {np : Numpy} (a w : list Q) (alpha : Q) :
  0 < alpha -> alpha < 1 ->
  length w = length a ->
  Forall (Qle 0) w ->
  Qsum w == 1 ->
  np_isclose (np_sum w) 1 atol = true ->
  sums_exact a w ->
  exists k i v,
    np_argsort a ≡ₚ seq 0 (length a) /\
    StronglySorted Qle (map (key a) (np_argsort a)) /\
    np_argsort a !! k = Some i /\
    a !! i = Some v /\
    alpha <= cum_weight w (np_argsort a) k /\
    (forall k', (k' < k)%nat -> cum_weight w (np_argsort a) k' < alpha) /\
    quantile (Arr1 a) alpha (Some (Arr1 w)) = Ok v /\
    In v a.
Proof.
  intros H0 H1 Hlen _ Hsum Hclose Hexact.
  destruct (quantile_exact_first a w alpha)
    as (k & i & v & Hk & Hv & Hge & Hlt & Hq); try done.
  { lra. }
  exists k, i, v. repeat split; try done.
  - apply np_argsort_perm.
  - apply np_argsort_values_sorted.
  - apply list_elem_of_In. by eapply list_elem_of_lookup_2.
Qed.

Lemma quantile_exact_sums_correct_witness :
  exists k i v,
    np_argsort (Numpy := Instances.numpy_stable) [3; 1; 2] ≡ₚ seq 0 3 /\
    StronglySorted Qle
      (map (key [3; 1; 2]) (np_argsort (Numpy := Instances.numpy_stable) [3; 1; 2])) /\
    np_argsort (Numpy := Instances.numpy_stable) [3; 1; 2] !! k = Some i /\
    [3; 1; 2] !! i = Some v /\
    (1 # 2) <= cum_weight [1 # 4; 1 # 4; 1 # 2]
                 (np_argsort (Numpy := Instances.numpy_stable) [3; 1; 2]) k /\
    (forall k', (k' < k)%nat ->
       cum_weight [1 # 4; 1 # 4; 1 # 2]
         (np_argsort (Numpy := Instances.numpy_stable) [3; 1; 2]) k' < 1 # 2) /\
    quantile (np := Instances.numpy_stable)
      (Arr1 [3; 1; 2]) (1 # 2) (Some (Arr1 [1 # 4; 1 # 4; 1 # 2])) = Ok v /\
    In v [3; 1; 2].
Proof.
  apply (quantile_exact_sums_correct (np := Instances.numpy_stable)
           [3; 1; 2] [1 # 4; 1 # 4; 1 # 2] (1 # 2)).
  - reflexivity.
  - reflexivity.
  - reflexivity.
  - repeat constructor; discriminate.
  - reflexivity.
  - vm_compute. reflexivity.
  - vm_compute. repeat constructor.
Defined.

End QuantileMore.

(** * Properties of the metrics *)

Module MetricsFacts.
Import Quantile Metrics.
Import QuantileFacts.
Local Open Scope Q_scope.

Lemma broadcast_same_length {A B C : Type} (f : A -> B -> C) xs ys :
  length xs = length ys -> broadcast f xs ys = Ok (zip_with f xs ys).
Proof. intros Hl. unfold broadcast. by rewrite Hl, Nat.eqb_refl. Qed.

Lemma zip_with_nth {A B C : Type} (f : A -> B -> C) xs ys dx dy :
  length xs = length ys ->
  zip_with f xs ys = map (fun i => f (nth i xs dx) (nth i ys dy)) (seq 0 (length xs)).
Proof.
  intros Hl. apply list_eq. intros i.
  rewrite lookup_zip_with, list_lookup_fmap.
  destruct (decide (i < length xs)%nat) as [Hi|Hi].
  - rewrite lookup_seq_lt by done. simpl.
    destruct (lookup_lt_is_Some_2 xs i Hi) as [x Hx].
    destruct (lookup_lt_is_Some_2 ys i) as [y Hy]; [lia|].
    rewrite Hx, Hy. simpl.
    by rewrite (nth_lookup_Some _ _ dx _ Hx), (nth_lookup_Some _ _ dy _ Hy).
  - rewrite lookup_seq_ge by lia. simpl.
    rewrite (proj2 (lookup_ge_None xs i)) by lia. done.
Qed.

Lemma nth_map_seq {C : Type} (g : nat -> C) (n i : nat) (d : C) :
  (i < n)%nat -> nth i (map g (seq 0 n)) d = g i.
Proof.
  intros Hi. apply nth_lookup_Some.
  rewrite list_lookup_fmap, lookup_seq_lt by done. done.
Qed.

Lemma covered_at_inside y lo hi i : covered_at y lo hi i = true <-> inside y lo hi i.
Proof.
  unfold covered_at, inside. rewrite andb_true_iff, !Qle_bool_iff. done.
Qed.

Lemma average_coverage_unfold y lo hi :
  length lo = length y -> length hi = length y ->
  average_coverage y lo hi
  = Ok (mean (map (fun i => as_float (covered_at y lo hi i)) (seq 0 (length y)))).
Proof.
  intros Hlo Hhi. unfold average_coverage.
  rewrite !broadcast_same_length by done. simpl.
  rewrite broadcast_same_length by (rewrite !length_zip_with; lia). simpl.
  do 2 f_equal.
  rewrite (zip_with_nth andb _ _ false false)
    by (rewrite !length_zip_with; lia).
  rewrite length_zip_with, Hlo, Nat.min_id, map_map.
  apply map_ext_in. intros i Hi%in_seq. f_equal.
  rewrite (zip_with_nth _ y lo 0 0), (zip_with_nth _ y hi 0 0) by done.
  rewrite !nth_map_seq by lia. done.
Qed.

(** Counting flags. *)
Lemma flags_sum_bounds (p : nat -> bool) (l : list nat) :
  0 <= Qsum (map (fun i => as_float (p i)) l) /\
  Qsum (map (fun i => as_float (p i)) l) <= inject_Z (Z.of_nat (length l)).
Proof.
  induction l as [|i l [IH0 IH1]]; simpl length;
    [simpl; change (inject_Z (Z.of_nat 0)) with 0; split; lra|].
  rewrite Nat2Z.inj_succ, <- Z.add_1_r, inject_Z_plus. simpl.
  unfold as_float at 1 3. change (inject_Z 1) with 1. destruct (p i); split; lra.
Qed.

Lemma flags_sum_all (p : nat -> bool) (l : list nat) :
  Qsum (map (fun i => as_float (p i)) l) == inject_Z (Z.of_nat (length l)) <->
  forall i, i ∈ l -> p i = true.
Proof.
  induction l as [|i l IH]; simpl length.
  - simpl. split; [|reflexivity]. intros _ i Hi. by apply elem_of_nil in Hi.
  - rewrite Nat2Z.inj_succ, <- Z.add_1_r, inject_Z_plus. simpl.
    change (inject_Z 1) with 1.
    destruct (flags_sum_bounds p l) as [H0 H1]. split.
    + intros Hs j [->|Hj]%elem_of_cons.
      * destruct (p i); [done|]. unfold as_float in Hs at 1. lra.
      * apply IH; [|done]. unfold as_float in Hs at 1. destruct (p i); lra.
    + intros Hall. rewrite (Hall i) by by left. unfold as_float at 1.
      assert (Qsum (map (fun i => as_float (p i)) l) == inject_Z (Z.of_nat (length l)))
        as Hl by (apply IH; intros j Hj; apply Hall; by right).
      lra.
Qed.

Lemma flags_sum_none (p : nat -> bool) (l : list nat) :
  Qsum (map (fun i => as_float (p i)) l) == 0 <-> forall i, i ∈ l -> p i = false.
Proof.
  induction l as [|i l IH]; simpl.
  - split; [|reflexivity]. intros _ i Hi. by apply elem_of_nil in Hi.
  - destruct (flags_sum_bounds p l) as [H0 H1]. split.
    + intros Hs j [->|Hj]%elem_of_cons.
      * destruct (p i); [|done]. unfold as_float in Hs at 1. lra.
      * apply IH; [|done]. unfold as_float in Hs at 1. destruct (p i); lra.
    + intros Hall. rewrite (Hall i) by by left. unfold as_float at 1.
      assert (Qsum (map (fun i => as_float (p i)) l) == 0)
        as Hl by (apply IH; intros j Hj; apply Hall; by right).
      lra.
Qed.

Lemma div_pos_facts (x d : Q) :
  0 < d ->
  (0 <= x -> 0 <= x / d) /\ (x <= d -> x / d <= 1) /\
  (x / d == 1 <-> x == d) /\ (x / d == 0 <-> x == 0).
Proof.
  intros Hd.
  assert (d * (x / d) == x) as Hmul by (apply Qmult_div_r; lra).
  repeat split.
  - intros Hx. apply Qle_shift_div_l; lra.
  - intros Hx. apply Qle_shift_div_r; lra.
  - intros H1. rewrite H1 in Hmul. lra.
  - intros Hx. rewrite Hx. apply Qmult_inv_r. lra.
  - intros H0. rewrite H0 in Hmul. lra.
  - intros Hx. rewrite Hx. unfold Qdiv. ring.
Qed.

Lemma average_coverage_bounds (y_true y_pred_lower y_pred_upper : list Q) :
  length y_pred_lower = length y_true ->
  length y_pred_upper = length y_true ->
  y_true <> [] ->
  exists c,
    average_coverage y_true y_pred_lower y_pred_upper = Ok (Finite c) /\
    0 <= c /\ c <= 1.
Proof.
  intros Hlo Hhi Hne.
  rewrite average_coverage_unfold by done.
  set (p := covered_at y_true y_pred_lower y_pred_upper).
  set (n := length y_true).
  assert (0 < n)%nat as Hn by (unfold n; destruct y_true; [done|simpl; lia]).
  set (flags := map (fun i => as_float (p i)) (seq 0 n)).
  assert (length flags = n) as Hfl by (unfold flags; by rewrite length_map, length_seq).
  assert (mean flags = Finite (Qsum flags / inject_Z (Z.of_nat n))) as ->.
  { unfold mean. rewrite Hfl. destruct flags; [simpl in Hfl; lia|done]. }
  assert (0 < inject_Z (Z.of_nat n)) as Hd.
  { change 0 with (inject_Z 0). rewrite <- Zlt_Qlt. lia. }
  destruct (div_pos_facts (Qsum flags) _ Hd) as (Hge & Hle & _).
  destruct (flags_sum_bounds p (seq 0 n)) as [Hs0 Hs1].
  rewrite length_seq in Hs1. fold flags in Hs0, Hs1.
  eexists. split; [reflexivity|]. split; [by apply Hge|by apply Hle].
Qed.


(** X7.  On non-empty arrays of one length, the average coverage is a
    fraction: between 0 and 1, equal to 1 exactly when every true value
    lies inside its interval, and to 0 exactly when none does. *)
Theorem average_coverage_fraction (y_true y_pred_lower y_pred_upper : list Q) :
  length y_pred_lower = length y_true ->
  length y_pred_upper = length y_true ->
  y_true <> [] ->
  exists c,
    average_coverage y_true y_pred_lower y_pred_upper = Ok (Finite c) /\
    0 <= c /\ c <= 1 /\
    (c == 1 <-> forall i, (i < length y_true)%nat ->
                  inside y_true y_pred_lower y_pred_upper i) /\
    (c == 0 <-> forall i, (i < length y_true)%nat ->
                  ~ inside y_true y_pred_lower y_pred_upper i).
Proof.
  intros Hlo Hhi Hne.
  rewrite average_coverage_unfold by done.
  set (p := covered_at y_true y_pred_lower y_pred_upper).
  set (n := length y_true).
  assert (0 < n)%nat as Hn by (unfold n; destruct y_true; [done|simpl; lia]).
  set (flags := map (fun i => as_float (p i)) (seq 0 n)).
  assert (length flags = n) as Hfl by (unfold flags; by rewrite length_map, length_seq).
  assert (mean flags = Finite (Qsum flags / inject_Z (Z.of_nat n))) as ->.
  { unfold mean. rewrite Hfl. destruct flags; [simpl in Hfl; lia|done]. }
  assert (0 < inject_Z (Z.of_nat n)) as Hd.
  { change 0 with (inject_Z 0). rewrite <- Zlt_Qlt. lia. }
  destruct (div_pos_facts (Qsum flags) _ Hd) as (Hge & Hle & Hone & Hzero).
  destruct (flags_sum_bounds p (seq 0 n)) as [Hs0 Hs1].
  rewrite length_seq in Hs1. fold flags in Hs0, Hs1.
  eexists. split; [reflexivity|]. split; [by apply Hge|]. split; [by apply Hle|].
  split.
  - rewrite Hone. unfold flags.
    pose proof (flags_sum_all p (seq 0 n)) as Hall'.
    rewrite length_seq in Hall'. rewrite Hall'.
    split.
    + intros Hall i Hi. apply covered_at_inside, Hall, elem_of_seq. lia.
    + intros Hall i Hi%elem_of_seq. apply covered_at_inside, Hall. lia.
  - rewrite Hzero. unfold flags. rewrite flags_sum_none. split.
    + intros Hall i Hi Hin%covered_at_inside.
      assert (p i = false) as Hp by (apply Hall, elem_of_seq; lia).
      unfold p in Hp. congruence.
    + intros Hall i Hi%elem_of_seq.
      destruct (p i) eqn:E; [|done].
      exfalso. apply (Hall i); [lia|]. by apply covered_at_inside.
Qed.

Lemma average_coverage_fraction_witness :
  exists c,
    average_coverage [1; 5; 3] [0; 0; 0] [2; 2; 4] = Ok (Finite c) /\
    0 <= c /\ c <= 1 /\
    (c == 1 <-> forall i, (i < 3)%nat -> inside [1; 5; 3] [0; 0; 0] [2; 2; 4] i) /\
    (c == 0 <-> forall i, (i < 3)%nat -> ~ inside [1; 5; 3] [0; 0; 0] [2; 2; 4] i).
Proof.
  apply (average_coverage_fraction [1; 5; 3] [0; 0; 0] [2; 2; 4]).
  - reflexivity.
  - reflexivity.
  - discriminate.
Defined.

(** X8.  The average coverage error is the coverage less the target
    [1 - alpha]: it lies between [-(1 - alpha)] and [alpha], and is
    non-negative exactly when the coverage reaches the target. *)
Theorem ace_range (y_true y_pred_lower y_pred_upper : list Q) (alpha : Q) :
  length y_pred_lower = length y_true ->
  length y_pred_upper = length y_true ->
  y_true <> [] ->
  exists c e,
    average_coverage y_true y_pred_lower y_pred_upper = Ok (Finite c) /\
    ace y_true y_pred_lower y_pred_upper alpha = Ok (Finite e) /\
    e == c - (1 - alpha) /\
    - (1 - alpha) <= e /\ e <= alpha /\
    (0 <= e <-> 1 - alpha <= c).
Proof.
  intros Hlo Hhi Hne.
  destruct (average_coverage_bounds y_true y_pred_lower y_pred_upper)
    as (c & Hc & H0 & H1); try done.
  exists c, (c - (1 - alpha)). split; [done|].
  split; [unfold ace; by rewrite Hc|].
  split; [reflexivity|]. split; [lra|]. split; [lra|]. split; intros; lra.
Qed.

Lemma ace_range_witness :
  exists c e,
    average_coverage [1; 5; 3] [0; 0; 0] [2; 2; 4] = Ok (Finite c) /\
    ace [1; 5; 3] [0; 0; 0] [2; 2; 4] (1 # 10) = Ok (Finite e) /\
    e == c - (1 - (1 # 10)) /\
    - (1 - (1 # 10)) <= e /\ e <= 1 # 10 /\
    (0 <= e <-> 1 - (1 # 10) <= c).
Proof.
  apply (ace_range [1; 5; 3] [0; 0; 0] [2; 2; 4] (1 # 10)).
  - reflexivity.
  - reflexivity.
  - discriminate.
Defined.

Lemma zip_with_flip {A B C : Type} (f : A -> B -> C) xs ys :
  zip_with f xs ys = zip_with (fun y x => f x y) ys xs.
Proof.
  revert ys. induction xs as [|x xs IH]; intros [|y ys]; simpl; try done.
  by rewrite IH.
Qed.

Lemma sharpness_unfold lo hi :
  length lo = length hi ->
  sharpness lo hi = Ok (mean (zip_with (fun u l => Qabs (u - l)) hi lo)).
Proof. intros Hl. unfold sharpness. by rewrite broadcast_same_length. Qed.

(** X9.  On non-empty arrays of one length, the sharpness is a mean absolute
    width: it is not negative, it does not change when the two bounds
    are exchanged, and it is zero exactly when the bounds coincide
    everywhere. *)
Theorem sharpness_width (y_pred_lower y_pred_upper : list Q) :
  length y_pred_lower = length y_pred_upper ->
  y_pred_lower <> [] ->
  exists s,
    sharpness y_pred_lower y_pred_upper = Ok (Finite s) /\
    sharpness y_pred_upper y_pred_lower = Ok (Finite s) /\
    0 <= s /\
    (s == 0 <-> forall i, (i < length y_pred_lower)%nat ->
                  key y_pred_lower i == key y_pred_upper i).
Proof.
  intros Hl Hne.
  rewrite (sharpness_unfold y_pred_lower y_pred_upper) by done.
  rewrite (sharpness_unfold y_pred_upper y_pred_lower) by done.
  set (n := length y_pred_lower).
  assert (0 < n)%nat as Hn by (unfold n; destruct y_pred_lower; [done|simpl; lia]).
  assert (zip_with (fun u l => Qabs (u - l)) y_pred_lower y_pred_upper
          = zip_with (fun u l => Qabs (u - l)) y_pred_upper y_pred_lower) as Hswap.
  { rewrite (zip_with_flip _ y_pred_upper y_pred_lower).
    apply zip_with_ext; try done. intros u l. apply Qabs_Qminus. }
  rewrite <- Hswap.
  rewrite (zip_with_nth _ y_pred_lower y_pred_upper 0 0) by done. fold n.
  set (width := map (fun i => Qabs (nth i y_pred_lower 0 - nth i y_pred_upper 0))
                    (seq 0 n)).
  assert (length width = n) as Hw by (unfold width; by rewrite length_map, length_seq).
  assert (mean width = Finite (Qsum width / inject_Z (Z.of_nat n))) as ->.
  { unfold mean. rewrite Hw. destruct width; [simpl in Hw; lia|done]. }
  assert (0 < inject_Z (Z.of_nat n)) as Hd.
  { change 0 with (inject_Z 0). rewrite <- Zlt_Qlt. lia. }
  assert (Forall (Qle 0) width) as Hnonneg.
  { apply Forall_fmap, Forall_forall. intros i _. apply Qabs_nonneg. }
  destruct (div_pos_facts (Qsum width) _ Hd) as (Hge & _ & _ & Hzero).
  eexists. split; [reflexivity|]. split; [reflexivity|].
  split; [by apply Hge, Qsum_nonneg|].
  rewrite Hzero, (EnbPIFacts.Qsum_zero_iff width Hnonneg).
  unfold width. rewrite Forall_fmap, Forall_forall. unfold key. split.
  - intros Hall i Hi. specialize (Hall i). unfold compose in Hall. cbn beta in Hall.
    assert (Qabs (nth i y_pred_lower 0 - nth i y_pred_upper 0) == 0) as Hz
      by (apply Hall, elem_of_seq; lia).
    revert Hz. apply Qabs_case; intros; lra.
  - intros Hall i Hi%elem_of_seq. unfold compose. cbn beta.
    assert (nth i y_pred_lower 0 == nth i y_pred_upper 0) as Heq
      by (apply Hall; lia).
    apply Qabs_case; intros; lra.
Qed.

Lemma sharpness_width_witness :
  exists s,
    sharpness [0; 1] [2; 4] = Ok (Finite s) /\
    sharpness [2; 4] [0; 1] = Ok (Finite s) /\
    0 <= s /\
    (s == 0 <-> forall i, (i < 2)%nat -> key [0; 1] i == key [2; 4] i).
Proof.
  apply (sharpness_width [0; 1] [2; 4]).
  - reflexivity.
  - discriminate.
Defined.

End MetricsFacts.

(** * Properties of [ConformalPredictor.fit] *)

Module ConformalFitFacts.
Import Conformalization ConformalFit.
Import ConformalizationFacts.

Section Fit.
Context `{Training}.

Lemma holds_folds_dom (agg : CrossValCpAggregator) (m : nat) :
  holds_folds agg m ->
  dom (_predictors agg) = dom (_calibrators agg) /\ size (_predictors agg) = m.
Proof.
  intros [Hp Hc].
  assert (forall A (d : gmap nat A),
            (forall k, is_Some (d !! k) <-> k < m) -> dom d = set_seq 0 m) as Hdom.
  { intros A d Hd. apply set_eq. intros k.
    rewrite elem_of_dom, elem_of_set_seq, Hd. lia. }
  split.
  - by rewrite (Hdom _ _ Hp), (Hdom _ _ Hc).
  - rewrite <- size_dom, (Hdom _ _ Hp). apply size_set_seq.
Qed.

Lemma holds_folds_append (agg : CrossValCpAggregator) (i : nat) p c :
  holds_folds agg i ->
  holds_folds (append_calibrator (append_predictor agg i p) i c) (S i).
Proof.
  intros [Hp Hc]. split; intros k; simpl.
  - destruct (decide (i = k)) as [->|Hne].
    + rewrite lookup_insert_eq. split; [lia|by eexists].
    + rewrite lookup_insert_ne by done. rewrite Hp. lia.
  - destruct (decide (i = k)) as [->|Hne].
    + rewrite lookup_insert_eq. split; [lia|by eexists].
    + rewrite lookup_insert_ne by done. rewrite Hc. lia.
Qed.

(** The core loop keeps the two dictionaries on the same fold indices,
    whatever way it ends. *)
Lemma fit_folds_invariant train i splits p c agg :
  holds_folds agg i ->
  exists m,
    i <= m /\ m <= i + length splits /\
    holds_folds (fit_folds train i splits p c agg).1 m /\
    method (fit_folds train i splits p c agg).1 = method agg /\
    K (fit_folds train i splits p c agg).1 = K agg /\
    ((fit_folds train i splits p c agg).2 = FitDone -> m = i + length splits).
Proof.
  revert i p c agg. induction splits as [|[[[X_fit y_fit] X_calib] y_calib] splits IH];
    intros i p c agg Hagg; simpl.
  - exists i. repeat split; try done; try lia; apply Hagg.
  - destruct (train_fold train p X_fit y_fit) as [p'|e]; simpl.
    2: { exists i. repeat split; try done; try lia; apply Hagg. }
    destruct (calibrate_fold p' c X_calib y_calib) as [c'|e]; simpl.
    2: { exists i. repeat split; try done; try lia; apply Hagg. }
    destruct (IH (S i) p' c'
                (append_calibrator (append_predictor agg i p') i
                   (default no_calibrator c')))
      as (m & Hlo & Hhi & Hm & Hmeth & HK & Hdone).
    { by apply holds_folds_append. }
    exists m. split; [lia|]. split; [lia|]. split; [done|].
    split; [done|]. split; [done|]. intros Hd. specialize (Hdone Hd). lia.
Qed.

Lemma init_cases (n : nat) (m : string) :
  (str_in m "cv+" = false /\ CrossValCpAggregator_init n m = Raise TypeError) \/
  (str_in m "cv+" = true /\
   CrossValCpAggregator_init n m
   = Ok {| K := n; _predictors := ∅; _calibrators := ∅; method := m |}).
Proof.
  unfold CrossValCpAggregator_init. destruct (str_in m "cv+"); [by right|by left].
Qed.

Lemma holds_folds_empty (n : nat) (m : string) :
  holds_folds {| K := n; _predictors := ∅; _calibrators := ∅; method := m |} 0.
Proof.
  split; intros k; simpl; rewrite lookup_empty; split; try lia; by intros [? ?].
Qed.

Lemma fit_done_aggregator (self self' : ConformalPredictor) (X : Features)
    (y : Labels) :
  fit self X y = (self', FitDone) ->
  exists agg,
    self' = set_cv_cp_agg self agg /\
    holds_folds agg (length (splitter_call (splitter self) X y)) /\
    method agg = cp_method self.
Proof.
  unfold fit. set (splits := splitter_call (splitter self) X y).
  destruct (init_cases (length splits) (cp_method self)) as [[_ ->]|[_ ->]];
    [done|].
  destruct ((1 <? length splits) && negb (train self)); [done|].
  destruct (fit_folds_invariant (train self) 0 splits (predictor self)
              (calibrator self)
              {| K := length splits; _predictors := ∅; _calibrators := ∅;
                 method := cp_method self |})
    as (m & _ & _ & Hm & Hmeth & _ & Hdone).
  { apply holds_folds_empty. }
  destruct (fit_folds _ _ _ _ _ _) as [agg' out]. simpl in *.
  intros [= <- ->]. specialize (Hdone eq_refl). simpl in Hdone. subst m.
  by exists agg'.
Qed.

(** X10.  However [fit] ends, the instance is in one of two states.  Either the
    method is not a substring of ["cv+"], the construction of the
    aggregator has raised [TypeError] and the instance is untouched; or
    the instance holds an aggregator whose predictors and calibrators
    have exactly the fold indices [0 .. m - 1], for some [m] up to the
    number of splits, and all of them when [fit] ended normally. *)
Theorem fit_aggregator_invariant (self : ConformalPredictor) (X : Features)
    (y : Labels) :
  let splits := splitter_call (splitter self) X y in
  (str_in (cp_method self) "cv+" = false /\
   fit self X y = (self, FitRaise TypeError)) \/
  (str_in (cp_method self) "cv+" = true /\
   exists agg m,
     (fit self X y).1 = set_cv_cp_agg self agg /\
     m <= length splits /\
     holds_folds agg m /\
     method agg = cp_method self /\
     ((fit self X y).2 = FitDone -> m = length splits)).
Proof.
  intros splits. unfold fit. fold splits.
  destruct (init_cases (length splits) (cp_method self)) as [[Hs ->]|[Hs ->]].
  - by left.
  - right. split; [done|].
    destruct ((1 <? length splits) && negb (train self)).
    + eexists _, 0. split; [reflexivity|]. split; [lia|].
      split; [apply holds_folds_empty|]. split; [done|]. done.
    + destruct (fit_folds_invariant (train self) 0 splits (predictor self)
                  (calibrator self)
                  {| K := length splits; _predictors := ∅; _calibrators := ∅;
                     method := cp_method self |})
        as (m & _ & Hhi & Hm & Hmeth & _ & Hdone).
      { apply holds_folds_empty. }
      destruct (fit_folds _ _ _ _ _ _) as [agg' out]. simpl in *.
      exists agg', m. split; [done|]. split; [lia|]. split; [done|].
      split; [done|]. intros Hd. specialize (Hdone Hd). lia.
Qed.

(** The core loop from fold [i] on does not touch the entries of the
    folds before [i]. *)
Lemma fit_folds_frame train i splits p c agg k :
  k < i ->
  _predictors (fit_folds train i splits p c agg).1 !! k = _predictors agg !! k /\
  _calibrators (fit_folds train i splits p c agg).1 !! k = _calibrators agg !! k.
Proof.
  revert i p c agg.
  induction splits as [|[[[X_fit y_fit] X_calib] y_calib] splits IH];
    intros i p c agg Hk; simpl; [done|].
  destruct (train_fold train p X_fit y_fit) as [p'|e]; simpl; [|done].
  destruct (calibrate_fold p' c X_calib y_calib) as [c'|e]; simpl; [|done].
  destruct (IH (S i) p' c'
              (append_calibrator (append_predictor agg i p') i
                 (default no_calibrator c')) ltac:(lia)) as [-> ->].
  simpl. rewrite !lookup_insert_ne by lia. done.
Qed.

Lemma calibrate_fold_Some p c0 X_calib y_calib r :
  calibrate_fold p (Some c0) X_calib y_calib = Ok r ->
  exists c y_pred y_pred_lo y_pred_hi var_pred,
    r = Some c /\
    predictor_predict p X_calib = Ok (y_pred, y_pred_lo, y_pred_hi, var_pred) /\
    calibrator_fit c0 y_calib y_pred X_calib var_pred y_pred_lo y_pred_hi = Ok c.
Proof.
  unfold calibrate_fold.
  destruct (predictor_predict p X_calib) as [[[[yp lo] hi] v]|e]; simpl; [|done].
  destruct (calibrator_fit c0 y_calib yp X_calib v lo hi) as [c|e] eqn:Hc;
    simpl; [|done].
  intros [= <-]. by exists c, yp, lo, hi, v.
Qed.

(** What the core loop stores for the fold of each split, when it ends
    normally and there is a calibrator. *)
Lemma fit_folds_pairs train i splits p c0 agg agg' :
  fit_folds train i splits p (Some c0) agg = (agg', FitDone) ->
  forall j X_fit y_fit X_calib y_calib,
    splits !! j = Some (X_fit, y_fit, X_calib, y_calib) ->
    exists pj cj c_prev y_pred y_pred_lo y_pred_hi var_pred,
      _predictors agg' !! (i + j) = Some pj /\
      _calibrators agg' !! (i + j) = Some cj /\
      train_chain train p (take (S j) splits) = Ok pj /\
      predictor_predict pj X_calib = Ok (y_pred, y_pred_lo, y_pred_hi, var_pred) /\
      calibrator_fit c_prev y_calib y_pred X_calib var_pred y_pred_lo y_pred_hi
      = Ok cj.
Proof.
  revert i p c0 agg.
  induction splits as [|[[[Xf yf] Xc] yc] splits IH];
    intros i p c0 agg Hfit j X_fit y_fit X_calib y_calib Hj; [done|].
  cbn [fit_folds] in Hfit.
  destruct (train_fold train p Xf yf) as [p'|e] eqn:Htrain; [|done].
  destruct (calibrate_fold p' (Some c0) Xc yc) as [c'|e] eqn:Hcal; [|done].
  destruct (calibrate_fold_Some _ _ _ _ _ Hcal)
    as (c1 & yp & lo & hi & v & -> & Hpred & Hcfit).
  simpl in Hfit.
  destruct j as [|j].
  - simpl in Hj. injection Hj as <- <- <- <-.
    destruct (fit_folds_frame train (S i) splits p' (Some c1)
                (append_calibrator (append_predictor agg i p') i c1) i ltac:(lia))
      as [Hp Hc].
    rewrite Hfit in Hp, Hc. simpl in Hp, Hc.
    rewrite lookup_insert_eq in Hp. rewrite lookup_insert_eq in Hc.
    exists p', c1, c0, yp, lo, hi, v.
    rewrite Nat.add_0_r. split; [done|]. split; [done|].
    split; [|done]. simpl. by rewrite Htrain.
  - simpl in Hj.
    destruct (IH (S i) p' c1 _ Hfit j _ _ _ _ Hj)
      as (pj & cj & c_prev & yp' & lo' & hi' & v' & Hp & Hc & Hchain & Hpr & Hcf).
    exists pj, cj, c_prev, yp', lo', hi', v'.
    replace (i + S j) with (S i + j) by lia.
    split; [done|]. split; [done|]. split; [|done].
    change (take (S (S j)) ((Xf, yf, Xc, yc) :: splits))
      with ((Xf, yf, Xc, yc) :: take (S j) splits).
    simpl. rewrite Htrain. done.
Qed.

(** X11.  A conformal predictor built with a calibrator, after a [fit] that
    ended normally: for every split [k] the aggregator holds a predictor
    and a calibrator under the key [k]; the predictor is the state of the
    one local predictor after the training step of the splits [0 .. k]
    in turn (each fold refits the object the fold before it has left, not
    a new copy of [self.predictor]); and the calibrator was fitted on the
    calibration labels of split [k] against that predictor's predictions
    on the calibration features of split [k]. *)
Theorem fit_fold_pairs (self self' : ConformalPredictor) (X : Features)
    (y : Labels) (c0 : Calibrator) :
  fit self X y = (self', FitDone) ->
  calibrator self = Some c0 ->
  let splits := splitter_call (splitter self) X y in
  exists agg,
    _cv_cp_agg self' = Some agg /\
    forall k X_fit y_fit X_calib y_calib,
      splits !! k = Some (X_fit, y_fit, X_calib, y_calib) ->
      exists pk ck c_prev y_pred y_pred_lo y_pred_hi var_pred,
        _predictors agg !! k = Some pk /\
        _calibrators agg !! k = Some ck /\
        train_chain (train self) (predictor self) (take (S k) splits) = Ok pk /\
        predictor_predict pk X_calib = Ok (y_pred, y_pred_lo, y_pred_hi, var_pred) /\
        calibrator_fit c_prev y_calib y_pred X_calib var_pred y_pred_lo y_pred_hi
        = Ok ck.
Proof.
  intros Hfit Hcal splits. unfold fit in Hfit. fold splits in Hfit.
  destruct (CrossValCpAggregator_init (length splits) (cp_method self))
    as [agg0|e]; [|done].
  destruct ((1 <? length splits) && negb (train self)); [done|].
  rewrite Hcal in Hfit.
  destruct (fit_folds (train self) 0 splits (predictor self) (Some c0) agg0)
    as [agg' out] eqn:Hfolds.
  injection Hfit as <- ->.
  exists agg'. split; [done|].
  intros k X_fit y_fit X_calib y_calib Hk.
  apply (fit_folds_pairs _ _ _ _ _ _ _ Hfolds k _ _ _ _ Hk).
Qed.

(** X12.  With [train = False], a [fit] that ended normally has at most one
    split, and what it stores for it is [self.predictor] as given, which
    is trained: nothing was fitted. *)
Theorem fit_without_training (self self' : ConformalPredictor) (X : Features)
    (y : Labels) :
  fit self X y = (self', FitDone) ->
  train self = false ->
  let splits := splitter_call (splitter self) X y in
  length splits <= 1 /\
  exists agg,
    _cv_cp_agg self' = Some agg /\
    forall k, k < length splits ->
      _predictors agg !! k = Some (predictor self) /\
      predictor_is_trained (predictor self) = true.
Proof.
  intros Hfit Htrain splits. unfold fit in Hfit. fold splits in Hfit.
  rewrite Htrain in Hfit.
  destruct (CrossValCpAggregator_init (length splits) (cp_method self))
    as [agg0|e]; [|done].
  destruct (Nat.ltb_spec 1 (length splits)) as [?|Hle]; simpl in Hfit; [done|].
  split; [lia|].
  destruct splits as [|[[[Xf yf] Xc] yc] [|? ?]]; simpl in *; [| |lia].
  - injection Hfit as <-. eexists. split; [reflexivity|]. intros k ?. lia.
  - unfold train_fold in Hfit. simpl in Hfit.
    destruct (predictor_is_trained (predictor self)) eqn:Htr; simpl in Hfit;
      [|done].
    destruct (calibrate_fold (predictor self) (calibrator self) Xc yc) as [c'|e];
      simpl in Hfit; [|done].
    injection Hfit as <-. eexists. split; [reflexivity|].
    intros k Hk. assert (k = 0) as -> by lia. simpl.
    by rewrite lookup_insert_eq.
Qed.

(** X13.  A conformal predictor built with a calibrator, after a [fit] that
    ended normally: [predict] is past both its own "not fitted" check and
    the aggregator's assertion.  With one split it is the single-fold
    path; with any other number of splits it is the cv+ path if the
    method is ["cv+"] and else raises [RuntimeError], which is where a
    method such as ["cv"] is finally refused.  The accessors return one
    entry per fold.  (Without a calibrator the dictionary of calibrators
    holds [None], on which the calls of [predict] and of the accessors
    fail; the statement leaves that case out.) *)
Theorem predict_after_fit (self self' : ConformalPredictor) (X : Features)
    (y : Labels) :
  fit self X y = (self', FitDone) ->
  is_Some (calibrator self) ->
  let n := length (splitter_call (splitter self) X y) in
  exists agg,
    _cv_cp_agg self' = Some agg /\
    holds_folds agg n /\
    (forall X' alpha,
       predict self' X' alpha =
       if n =? 1 then predict_single agg X' alpha
       else if String.eqb (cp_method self) "cv+" then
         '(y_lo, y_hi) ←
           CvPlusCalibrator_calibrate (_calibrators agg) X' (_predictors agg) alpha;
         Ok (Prediction None y_lo y_hi None)
       else Raise RuntimeError) /\
    (exists d, get_residuals self' = Ok (ResidualsDict d) /\
               forall k, is_Some (d !! k) <-> k < n) /\
    (exists d, get_weights self' = Ok (WeightsDict d) /\
               forall k, is_Some (d !! k) <-> k < n).
Proof.
  intros Hfit _ n.
  destruct (fit_done_aggregator self self' X y Hfit) as (agg & -> & Hm & Hmeth).
  fold n in Hm.
  destruct (holds_folds_dom agg n Hm) as [Hdom Hsize].
  exists agg. split; [done|]. split; [done|]. split; [|split].
  - intros X' alpha. unfold predict. simpl. unfold agg_predict.
    rewrite bool_decide_eq_true_2 by done. simpl. by rewrite Hsize, Hmeth.
  - eexists. split; [reflexivity|]. intros k. unfold agg_get_residuals.
    rewrite lookup_fmap, fmap_is_Some. apply Hm.
  - eexists. split; [reflexivity|]. intros k. unfold agg_get_weights.
    rewrite lookup_fmap, fmap_is_Some. apply Hm.
Qed.

(** X14.  A skip-training predictor ([train = False]) given several splits:
    [fit] raises, but only after it has stored a new, empty aggregator.
    From then on the instance no longer answers "not fitted": [predict]
    takes the cv+ path on empty dictionaries and the accessors return
    empty dictionaries. *)
Theorem fit_inconsistent_leaves_aggregator (self : ConformalPredictor)
    (X : Features) (y : Labels) :
  train self = false ->
  1 < length (splitter_call (splitter self) X y) ->
  cp_method self = "cv+"%string ->
  (fit self X y).2 = FitInconsistent /\
  (forall X' alpha,
     predict (fit self X y).1 X' alpha =
     ('(y_lo, y_hi) ← CvPlusCalibrator_calibrate ∅ X' ∅ alpha;
      Ok (Prediction None y_lo y_hi None))) /\
  get_residuals (fit self X y).1 = Ok (ResidualsDict ∅) /\
  get_weights (fit self X y).1 = Ok (WeightsDict ∅).
Proof.
  intros Htrain Hsplits Hmeth. unfold fit. rewrite Hmeth, Htrain.
  change (CrossValCpAggregator_init ?n "cv+")
    with (Ok {| K := n; _predictors := ∅; _calibrators := ∅; method := "cv+" |}).
  cbn match.
  destruct (Nat.ltb_spec 1 (length (splitter_call (splitter self) X y))) as [_|?];
    [|lia].
  simpl. split; [done|]. split; [|split].
  - intros X' alpha. unfold predict, agg_predict. simpl.
    rewrite bool_decide_eq_true_2 by done. done.
  - unfold get_residuals, agg_get_residuals. simpl. by rewrite fmap_empty.
  - unfold get_weights, agg_get_weights. simpl. by rewrite fmap_empty.
Qed.

End Fit.

Lemma fit_fold_pairs_witness :
  let self' := (fit (H0 := Instances.constant_training) Instances.cp_training
                  0%Q 3%Q).1 in
  let splits := [(0%Q, 3%Q, 0%Q, 3%Q); (0%Q, 3%Q, 0%Q, 3%Q)] in
  exists agg,
    _cv_cp_agg self' = Some agg /\
    forall k X_fit y_fit X_calib y_calib,
      splits !! k = Some (X_fit, y_fit, X_calib, y_calib) ->
      exists pk ck c_prev y_pred y_pred_lo y_pred_hi var_pred,
        _predictors agg !! k = Some pk /\
        _calibrators agg !! k = Some ck /\
        train_chain (H0 := Instances.constant_training) true 0%Q
          (take (S k) splits) = Ok pk /\
        predictor_predict (Collaborators := Instances.constant_canvas) pk X_calib
        = Ok (y_pred, y_pred_lo, y_pred_hi, var_pred) /\
        calibrator_fit (Training := Instances.constant_training)
          c_prev y_calib y_pred X_calib var_pred y_pred_lo y_pred_hi
        = Ok ck.
Proof.
  apply (fit_fold_pairs (H0 := Instances.constant_training)
           Instances.cp_training _ 0%Q 3%Q 1%Q).
  - reflexivity.
  - reflexivity.
Defined.

Lemma fit_without_training_witness :
  let self' := (fit (H0 := Instances.holdout_training) Instances.cp_skip_training
                  0%Q 3%Q).1 in
  1 <= 1 /\
  exists agg,
    _cv_cp_agg self' = Some agg /\
    forall k, k < 1 ->
      _predictors agg !! k = Some 0%Q /\
      predictor_is_trained (Training := Instances.holdout_training) 0%Q = true.
Proof.
  apply (fit_without_training (H0 := Instances.holdout_training)
           Instances.cp_skip_training _ 0%Q 3%Q).
  - reflexivity.
  - reflexivity.
Defined.

Lemma predict_after_fit_witness :
  let self' := (fit (H0 := Instances.constant_training) Instances.cp_training
                  0%Q 3%Q).1 in
  exists agg,
    _cv_cp_agg self' = Some agg /\
    holds_folds agg 2 /\
    (forall X' alpha,
       predict self' X' alpha =
       if 2 =? 1 then predict_single agg X' alpha
       else if String.eqb "cv+" "cv+" then
         '(y_lo, y_hi) ←
           CvPlusCalibrator_calibrate (Collaborators := Instances.constant_canvas)
             (_calibrators agg) X' (_predictors agg) alpha;
         Ok (Prediction None y_lo y_hi None)
       else Raise RuntimeError) /\
    (exists d, get_residuals self' = Ok (ResidualsDict d) /\
               forall k, is_Some (d !! k) <-> k < 2) /\
    (exists d, get_weights self' = Ok (WeightsDict d) /\
               forall k, is_Some (d !! k) <-> k < 2).
Proof.
  apply (predict_after_fit (H0 := Instances.constant_training)
           Instances.cp_training _ 0%Q 3%Q).
  - reflexivity.
  - eexists. reflexivity.
Defined.

Lemma fit_inconsistent_leaves_aggregator_witness :
  (fit (H0 := Instances.constant_training) Instances.cp_skip_training 0%Q 3%Q).2
  = FitInconsistent /\
  (forall X' alpha,
     predict (fit (H0 := Instances.constant_training)
                Instances.cp_skip_training 0%Q 3%Q).1 X' alpha =
     ('(y_lo, y_hi) ←
        CvPlusCalibrator_calibrate (Collaborators := Instances.constant_canvas)
          ∅ X' ∅ alpha;
      Ok (Prediction None y_lo y_hi None))) /\
  get_residuals (fit (H0 := Instances.constant_training)
                   Instances.cp_skip_training 0%Q 3%Q).1 = Ok (ResidualsDict ∅) /\
  get_weights (fit (H0 := Instances.constant_training)
                 Instances.cp_skip_training 0%Q 3%Q).1 = Ok (WeightsDict ∅).
Proof.
  apply (fit_inconsistent_leaves_aggregator (H0 := Instances.constant_training)
           Instances.cp_skip_training 0%Q 3%Q).
  - reflexivity.
  - simpl. lia.
  - reflexivity.
Defined.

End ConformalFitFacts.

(** * Further properties of [EnbPI] *)

Module EnbPIMore.
Import Quantile EnbPI.
Import QuantileFacts EnbPIFacts.

Section Sampling.
Context `{Collaborators}.

Lemma sample_bootstrap_length fuel rs T g boot oob_units g' :
  draw_valid ->
  sample_bootstrap fuel rs T g = Some (boot, oob_units, g') ->
  length boot = T.
Proof.
  intros Hvalid. revert g. induction fuel as [|fuel IH]; intros g; simpl; [done|].
  destruct (resample rs T g) as [boot1 g1] eqn:Hdraw.
  destruct (Nat.eqb_spec (length (setdiff1d (seq 0 T) boot1)) 0) as [|Hne];
    [by apply IH|].
  intros [= <- <- <-].
  unfold resample in Hdraw. destruct rs as [seed|].
  - injection Hdraw as <- _. apply Hvalid.
  - pose proof (Hvalid g T) as Hv. rewrite Hdraw in Hv. apply Hv.
Qed.

Lemma sample_all_shape fuel rs T bs bd od g bd' od' g' :
  draw_valid ->
  sample_all fuel rs T bs bd od g = Some (bd', od', g') ->
  map_Forall (fun _ boot => length boot = T) bd ->
  map_Forall (fun _ oob => oob <> []) od ->
  map_Forall (fun _ boot => length boot = T) bd' /\
  map_Forall (fun _ oob => oob <> []) od'.
Proof.
  intros Hvalid. revert bd od g.
  induction bs as [|b bs IH]; intros bd od g; simpl.
  - by intros [= <- <- <-].
  - destruct (sample_bootstrap _ _ _ _) as [[[boot oob_units] g1]|] eqn:Hb; [|done].
    pose proof (sample_bootstrap_length _ _ _ _ _ _ _ Hvalid Hb) as Hlen.
    apply sample_bootstrap_Some in Hb as (_ & Hne & _); [|done].
    intros Hrec Hbd Hod. apply IH in Hrec; [done| |]; by apply map_Forall_insert_2.
Qed.

(** X15.  With a single training sample and at least one bootstrap model,
    the sampling loop of the first model never ends, with or without a
    seed and whatever the generator draws: the bootstrap set is the
    training set and its out-of-bag set is empty at every turn, so that
    [fit] neither returns nor raises. *)
Theorem fit_single_sample_never_ends (self : EnbPI) (X_train : list Sample)
    (y_train : list Q) :
  draw_valid ->
  length X_train = 1 ->
  0 < B self ->
  forall fuel g, fit fuel self X_train y_train g = None.
Proof.
  intros Hvalid HT HB fuel g. unfold fit.
  destruct (B self) as [|B'] eqn:EB; [lia|].
  change (seq 0 (S B')) with (0 :: seq 1 B').
  rewrite sample_all_stuck; [done|].
  rewrite HT. by apply sample_bootstrap_single_sample.
Qed.

(** What [fit_sampled] has done when it returns. *)
Lemma fit_sampled_inv self X_train y_train boot_dict oob_dict
    (σ σ' : gmap nat (list Q)) self' :
  fit_sampled self X_train y_train boot_dict oob_dict σ = (Ok self', σ') ->
  exists m ps bp old,
    build_oob_matrix oob_dict (length X_train) (B self) = Ok m /\
    fit_boot_predictors self boot_dict X_train y_train = Ok ps /\
    boot_predictions ps (B self) X_train = Ok bp /\
    σ !! residuals self = Some old /\
    σ' = <[residuals self := old ++ mad (loo_diagonal m bp) y_train]> σ /\
    residuals self' = residuals self /\
    B self' = B self /\
    _boot_dict self' = boot_dict /\
    _oob_dict self' = oob_dict /\
    _oob_matrix self' = Some m /\
    _boot_predictors self' = Some ps.
Proof.
  unfold fit_sampled. intros Hrun.
  apply bind_inv_ok in Hrun as (m & σ1 & Hm & Hrun).
  unfold lift in Hm. injection Hm as Hm <-.
  apply bind_inv_ok in Hrun as (ps & σ1 & Hps & Hrun).
  unfold lift in Hps. injection Hps as Hps <-.
  apply bind_inv_ok in Hrun as (bp & σ1 & Hbp & Hrun).
  unfold lift in Hbp. injection Hbp as Hbp <-.
  apply bind_inv_ok in Hrun as (new & σ1 & Hnew & Hrun).
  unfold lift, _compute_boot_residuals in Hnew. simpl in Hnew.
  injection Hnew as <- <-.
  apply bind_inv_ok in Hrun as ([] & σ1 & Hext & Hrun).
  unfold extend in Hext.
  destruct (σ !! residuals self) as [old|] eqn:Hold; [|done].
  injection Hext as <-.
  unfold mret, M_ret in Hrun. injection Hrun as <- <-.
  exists m, ps, bp, old. by repeat split.
Qed.

Lemma fit_sampled_raise self X_train y_train boot_dict oob_dict
    (σ σ' : gmap nat (list Q)) e :
  fit_sampled self X_train y_train boot_dict oob_dict σ = (Raise e, σ') ->
  σ' = σ.
Proof.
  unfold fit_sampled, mbind, M_bind, lift.
  destruct (build_oob_matrix _ _ _) as [m|?]; [|by intros [= _ <-]].
  destruct (fit_boot_predictors _ _ _ _) as [ps|?]; [|by intros [= _ <-]].
  destruct (boot_predictions _ _ _) as [bp|?]; [|by intros [= _ <-]].
  unfold _compute_boot_residuals. simpl.
  unfold extend. destruct (σ !! residuals self) as [old|]; [done|].
  by intros [= _ <-].
Qed.

(** X16.  When [fit] returns, it has stored for each of the [B] models a
    bootstrap set of [T] indices below [T], and as its out-of-bag set
    the indices below [T] that the bootstrap set leaves out, of which
    there is at least one. *)
Theorem fit_bootstrap_sets (self self' : EnbPI) (X_train : list Sample)
    (y_train : list Q) fuel g run g' (σ : gmap nat (list Q)) :
  draw_valid ->
  fit fuel self X_train y_train g = Some (run, g') ->
  (run σ).1 = Ok self' ->
  forall b, b < B self ->
    exists boot oob,
      _boot_dict self' !! b = Some boot /\
      _oob_dict self' !! b = Some oob /\
      length boot = length X_train /\
      Forall (fun i => i < length X_train) boot /\
      oob <> [] /\
      (forall i, i ∈ oob <-> i < length X_train /\ i ∉ boot).
Proof.
  intros Hvalid Hfit Hrun b Hb. unfold fit in Hfit.
  destruct (sample_all _ _ _ _ _ _ _) as [[[boot_dict oob_dict] g1]|] eqn:Hs; [|done].
  injection Hfit as <- <-.
  destruct (fit_sampled _ _ _ _ _ σ) as [r σ'] eqn:Hsampled. simpl in Hrun. subst r.
  apply fit_sampled_inv in Hsampled
    as (m & ps & bp & old & _ & _ & _ & _ & _ & _ & _ & -> & -> & _).
  destruct (sample_all_shape _ _ _ _ _ _ _ _ _ _ Hvalid Hs) as [Hlen Hne];
    [apply map_Forall_empty|apply map_Forall_empty|].
  apply sample_all_Some in Hs as (Hod & Hrange & Hdom);
    [|done|by rewrite fmap_empty|apply map_Forall_empty].
  destruct (proj2 (Hdom b)) as [boot Hboot].
  { right. apply elem_of_seq. lia. }
  exists boot, (setdiff1d (seq 0 (length X_train)) boot).
  assert (oob_dict !! b = Some (setdiff1d (seq 0 (length X_train)) boot)) as Hoob
    by by rewrite Hod, lookup_fmap, Hboot.
  split; [done|]. split; [done|]. split; [by apply (Hlen b)|].
  split; [by apply (Hrange b)|]. split; [by apply (Hne b)|].
  intros i. unfold setdiff1d. rewrite list_elem_of_filter, elem_of_seq.
  split; intros [? ?]; split; try done; lia.
Qed.

(** X17.  [fit] appends to the list object behind [self.residuals] and to
    nothing else: when it returns, that object holds what it held
    before, followed by the new residuals (those of the training labels
    against the out-of-bag combination of the bootstrap predictions), a
    second [fit] thus adding to the residuals of the first; when it
    raises, no list object has changed. *)
Theorem fit_extends_residuals (self : EnbPI) (X_train : list Sample)
    (y_train : list Q) fuel g run g' (σ : gmap nat (list Q)) (old : list Q) :
  fit fuel self X_train y_train g = Some (run, g') ->
  σ !! residuals self = Some old ->
  match run σ with
  | (Ok self', σ') =>
      residuals self' = residuals self /\
      exists m ps bp,
        _oob_matrix self' = Some m /\
        _boot_predictors self' = Some ps /\
        boot_predictions ps (B self) X_train = Ok bp /\
        σ' = <[residuals self := old ++ mad (loo_diagonal m bp) y_train]> σ
  | (Raise _, σ') => σ' = σ
  end.
Proof.
  intros Hfit Hold. unfold fit in Hfit.
  destruct (sample_all _ _ _ _ _ _ _) as [[[boot_dict oob_dict] g1]|]; [|done].
  injection Hfit as <- <-.
  destruct (fit_sampled _ _ _ _ _ σ) as [[self'|e] σ'] eqn:Hsampled.
  - apply fit_sampled_inv in Hsampled
      as (m & ps & bp & old' & _ & _ & Hbp & Hold' & -> & Hres & _ & _ & _ & Hm & Hps).
    rewrite Hold in Hold'. injection Hold' as <-.
    split; [done|]. by exists m, ps, bp.
  - by eapply fit_sampled_raise.
Qed.

End Sampling.

Section Weights.
Context `{Collaborators}.
Local Open Scope Q_scope.

(** X18.  The out-of-bag matrix gives every training sample uniform weights
    over the models for which it is out-of-bag.  When [fit] returns, the
    entry of row [i] and column [b] is positive if sample [i] is in the
    out-of-bag set of model [b] and zero if it is not, and the positive
    entries of a row are all equal. *)
Theorem fit_oob_weights (self self' : EnbPI) (X_train : list Sample)
    (y_train : list Q) fuel g run g' (σ : gmap nat (list Q)) :
  draw_valid ->
  fit fuel self X_train y_train g = Some (run, g') ->
  (run σ).1 = Ok self' ->
  exists m,
    _oob_matrix self' = Some m /\
    forall i b, (i < length X_train)%nat -> (b < B self)%nat ->
      exists row x oob,
        m !! i = Some row /\ row !! b = Some x /\
        _oob_dict self' !! b = Some oob /\
        (i ∈ oob -> 0 < x) /\
        (i ∉ oob -> x == 0) /\
        (forall b' x' oob',
           row !! b' = Some x' -> _oob_dict self' !! b' = Some oob' ->
           i ∈ oob -> i ∈ oob' -> x' == x).
Proof.
  intros Hvalid Hfit Hrun. unfold fit in Hfit.
  destruct (sample_all _ _ _ _ _ _ _) as [[[boot_dict oob_dict] g1]|] eqn:Hs; [|done].
  injection Hfit as <- <-.
  destruct (fit_sampled _ _ _ _ _ σ) as [r σ'] eqn:Hsampled. simpl in Hrun. subst r.
  apply fit_sampled_inv in Hsampled
    as (m & ps & bp & old & Hm & _ & _ & _ & _ & _ & _ & _ & Hod' & Hm' & _).
  rewrite Hod'. clear Hod'.
  apply sample_all_Some in Hs as (Hod & _ & Hdom);
    [|done|by rewrite fmap_empty|apply map_Forall_empty].
  assert (forall b, (b < B self)%nat -> is_Some (oob_dict !! b)) as Hdom_oob.
  { intros b Hb. rewrite Hod, lookup_fmap. apply fmap_is_Some, Hdom.
    right. apply elem_of_seq. lia. }
  exists m. split; [done|]. intros i b Hi Hb.
  unfold build_oob_matrix in Hm.
  destruct (oob_rows_cases oob_dict (length X_train) (B self) Hdom_oob)
    as [[Hr _]|[Hr Hnz]]; rewrite Hr in Hm; [done|].
  simpl in Hm. injection Hm as <-.
  destruct (Hdom_oob b Hb) as [oob Hoob].
  set (S := Qsum (indicator_row oob_dict (B self) i)).
  assert (0 < S) as HS.
  { pose proof (Qsum_nonneg _ (indicator_row_nonneg oob_dict (B self) i)) as Hge.
    specialize (Hnz i Hi). fold S in Hge, Hnz.
    destruct (Qlt_le_dec 0 S) as [|Hle]; [done|].
    exfalso. apply Hnz. lra. }
  assert (forall b', (b' < B self)%nat ->
            map (fun x => x / S) (indicator_row oob_dict (B self) i) !! b'
            = Some (indicator oob_dict i b' / S)) as Hentry.
  { intros b' Hb'. unfold indicator_row.
    rewrite !list_lookup_fmap, lookup_seq_lt by done. done. }
  exists (map (fun x => x / S) (indicator_row oob_dict (B self) i)),
         (indicator oob_dict i b / S), oob.
  split.
  { unfold normalize_rows. rewrite !list_lookup_fmap, lookup_seq_lt by done. done. }
  split; [by apply Hentry|]. split; [done|].
  unfold indicator at 1 2 3. rewrite Hoob. split; [|split].
  - intros Hin. rewrite bool_decide_eq_true_2 by done.
    apply Qlt_shift_div_l; lra.
  - intros Hnin. rewrite bool_decide_eq_false_2 by done. unfold Qdiv. ring.
  - intros b' x' oob' Hx' Hoob' Hin Hin'.
    assert (b' < B self)%nat as Hb'.
    { apply lookup_lt_Some in Hx'.
      unfold indicator_row in Hx'. by rewrite !length_map, length_seq in Hx'. }
    rewrite Hentry in Hx' by done. injection Hx' as <-.
    unfold indicator. rewrite Hoob'. by rewrite !bool_decide_eq_true_2.
Qed.

End Weights.

Section Between.
Context `{Collaborators}.
Local Open Scope Q_scope.

Lemma mapR_inv {A B : Type} (f : A -> result B) (l : list A) (r : list B) :
  mapR f l = Ok r ->
  length r = length l /\
  forall k x, l !! k = Some x -> exists y, r !! k = Some y /\ f x = Ok y.
Proof.
  revert r. induction l as [|a l IH]; intros r; simpl.
  - intros [= <-]. split; [done|]. intros k x Hk. done.
  - destruct (f a) as [y|e] eqn:Hfa; simpl; [|done].
    destruct (mapR f l) as [r'|e]; simpl; [|done].
    intros [= <-]. destruct (IH r' eq_refl) as [Hlen Hlook].
    split; [simpl; by rewrite Hlen|].
    intros [|k] x Hk; simpl in *.
    + injection Hk as <-. by exists y.
    + by apply Hlook.
Qed.

(** A combination with non-negative weights lies between the weight
    sum times a lower and times an upper bound of the values. *)
Lemma dot_between (w v : list Q) (lo hi : Q) :
  length w = length v ->
  Forall (Qle 0) w ->
  Forall (fun x => lo <= x /\ x <= hi) v ->
  Qsum w * lo <= dot w v /\ dot w v <= Qsum w * hi.
Proof.
  unfold dot. revert v. induction w as [|x w IH]; intros [|y v] Hlen Hw Hv;
    try discriminate Hlen.
  { simpl. lra. }
  simpl in Hlen. cbn [zip_with Qsum].
  apply Forall_cons in Hw as [Hx Hw]. apply Forall_cons in Hv as [[Hy1 Hy2] Hv].
  destruct (IH v) as [IH1 IH2]; [lia|done|done|].
  assert (x * lo <= x * y).
  { rewrite (Qmult_comm x lo), (Qmult_comm x y). by apply Qmult_le_compat_r. }
  assert (x * y <= x * hi).
  { rewrite (Qmult_comm x y), (Qmult_comm x hi). by apply Qmult_le_compat_r. }
  split; lra.
Qed.

Lemma Qsum_between (l : list Q) (lo hi : Q) :
  Forall (fun x => lo <= x /\ x <= hi) l ->
  inject_Z (Z.of_nat (length l)) * lo <= Qsum l /\
  Qsum l <= inject_Z (Z.of_nat (length l)) * hi.
Proof.
  induction 1 as [|x l [Hx1 Hx2] _ [IH1 IH2]]; simpl length; simpl Qsum.
  - change (inject_Z (Z.of_nat 0)) with 0. lra.
  - rewrite Nat2Z.inj_succ, <- Z.add_1_l, inject_Z_plus.
    change (inject_Z 1) with 1. split; lra.
Qed.

(** X19.  With the default aggregation [np.mean], the ensemble prediction of
    a batch is within the range of the bootstrap models: for an instance
    whose out-of-bag matrix has rows of non-negative weights summing to
    1, as [fit] leaves it, [predict_batch] returns one value per sample
    of the batch, and the value for sample [j] lies between any lower
    and upper bound of what the [B] bootstrap models predict for
    sample [j]. *)
Theorem predict_batch_between (self : EnbPI) (preds : list Predictor)
    (X_batch : list Sample) (m : list (list Q)) (lo hi : nat -> Q) :
  _oob_matrix self = Some m ->
  m <> [] ->
  Forall (fun row => length row = B self /\ Forall (Qle 0) row /\ Qsum row == 1) m ->
  agg_func_loo self = np_mean_axis0 ->
  (B self <= length preds)%nat ->
  (forall b p, (b < B self)%nat -> preds !! b = Some p ->
     length (predictor_predict p X_batch) = length X_batch /\
     forall j v, predictor_predict p X_batch !! j = Some v ->
                 lo j <= v /\ v <= hi j) ->
  exists y_pred,
    predict_batch self preds X_batch = Ok y_pred /\
    length y_pred = length X_batch /\
    forall j v, y_pred !! j = Some v -> lo j <= v /\ v <= hi j.
Proof.
  intros Hm Hne Hrows Hagg HB Hpreds.
  set (n := length X_batch).
  (* at least one model *)
  assert (0 < B self)%nat as HBpos.
  { destruct m as [|row m']; [done|].
    apply Forall_cons in Hrows as [(Hl & _ & Hs) _].
    destruct row; [simpl in Hs; exfalso; revert Hs; discriminate|].
    simpl in Hl. lia. }
  (* the predictions of the bootstrap models *)
  destruct (boot_predictions_returns preds (B self) X_batch HB) as [bp Hbp].
  destruct (mapR_inv _ _ _ Hbp) as [Hbplen Hbplook].
  rewrite length_seq in Hbplen.
  assert (forall b r, bp !! b = Some r ->
            length r = n /\
            forall j v, r !! j = Some v -> lo j <= v /\ v <= hi j) as Hbprow.
  { intros b r Hr.
    assert (b < B self)%nat as Hb by (apply lookup_lt_Some in Hr; lia).
    destruct (Hbplook b b) as (r' & Hr' & Hf); [by apply lookup_seq_lt|].
    rewrite Hr in Hr'. injection Hr' as <-.
    unfold getitem in Hf. destruct (preds !! b) as [p|] eqn:Hp; [|done].
    simpl in Hf. injection Hf as <-. by apply (Hpreds b p). }
  assert (match bp with [] => 0%nat | r :: _ => length r end = n) as Hn.
  { destruct bp as [|r bp']; [simpl in Hbplen; lia|].
    by apply (Hbprow 0%nat r). }
  (* the combination through the matrix *)
  set (loo := map (fun row => map (fun c => dot row (column c bp)) (seq 0 n)) m).
  assert (_compute_loo_predictions self bp = Ok loo) as Hloo.
  { unfold _compute_loo_predictions, get_oob_matrix. rewrite Hm. simpl.
    unfold matmul. rewrite Hn.
    replace (forallb _ m) with true; [done|].
    symmetry. apply forallb_forall. intros row Hrow%list_elem_of_In.
    apply Nat.eqb_eq. rewrite Hbplen.
    by apply (proj1 (Forall_forall _ _) Hrows row). }
  assert (forall j row, (j < n)%nat -> row ∈ m ->
            lo j <= dot row (column j bp) /\ dot row (column j bp) <= hi j) as Hdot.
  { intros j row Hj Hrow.
    destruct (proj1 (Forall_forall _ _) Hrows row Hrow) as (Hl & Hw & Hs).
    destruct (dot_between row (column j bp) (lo j) (hi j)) as [H1 H2].
    - unfold column. by rewrite length_map, Hl.
    - done.
    - unfold column. apply Forall_fmap, Forall_forall. intros r Hr.
      apply list_elem_of_lookup in Hr as [b Hr].
      destruct (Hbprow b r Hr) as [Hlen Hbound]. simpl.
      destruct (lookup_lt_is_Some_2 r j) as [v Hv]; [lia|].
      rewrite (nth_lookup_Some _ _ _ _ Hv). by apply Hbound.
    - rewrite Hs in H1, H2. split; lra. }
  (* the mean over the training samples *)
  assert (match loo with [] => 0%nat | r :: _ => length r end = n) as Hn'.
  { unfold loo. destruct m as [|row m']; [done|].
    cbn [map]. by rewrite length_map, length_seq. }
  exists (np_mean_axis0 loo). split; [|split].
  - unfold predict_batch. rewrite Hbp. simpl. rewrite Hloo. simpl. by rewrite Hagg.
  - unfold np_mean_axis0. rewrite Hn'. by rewrite length_map, length_seq.
  - unfold np_mean_axis0. rewrite Hn'. intros j v Hv.
    assert (j < n)%nat as Hj.
    { apply lookup_lt_Some in Hv. by rewrite length_map, length_seq in Hv. }
    rewrite list_lookup_fmap, lookup_seq_lt in Hv by done.
    simpl in Hv. injection Hv as <-.
    assert (length loo = length m) as Hlen by (unfold loo; by rewrite length_map).
    destruct (Qsum_between (column j loo) (lo j) (hi j)) as [H1 H2].
    { unfold column, loo. apply Forall_fmap, Forall_fmap, Forall_forall.
      intros row Hrow. simpl. rewrite MetricsFacts.nth_map_seq by done.
      by apply Hdot. }
    assert (length (column j loo) = length loo) as Hcl
      by (unfold column; apply length_map).
    rewrite Hcl in H1, H2.
    assert (0 < inject_Z (Z.of_nat (length loo))) as Hpos.
    { change 0 with (inject_Z 0). rewrite <- Zlt_Qlt. rewrite Hlen.
      destruct m; [done|simpl; lia]. }
    split.
    + apply Qle_shift_div_l; [done|]. lra.
    + apply Qle_shift_div_r; [done|]. lra.
Qed.

End Between.

Section Predict.
Context `{Collaborators}.

Lemma predict_fst self X_test alpha y_true s (σ : gmap nat (list Q)) current :
  σ !! residuals self = Some current ->
  (predict self X_test alpha y_true s σ).1
  = predict_pure self X_test alpha y_true s current.
Proof.
  intros Hcur.
  destruct (predict_refines self X_test alpha y_true s σ current Hcur)
    as (σ' & -> & _).
  done.
Qed.

Lemma predict_unallocated self X_test alpha y_true s (σ : gmap nat (list Q)) :
  σ !! residuals self = None ->
  (predict self X_test alpha y_true s σ).1 = Raise SystemError.
Proof.
  intros Hcur.
  assert (predict self X_test alpha y_true s σ = (Raise SystemError, σ)) as ->; [|done].
  unfold predict. apply bind_raise. unfold read. by rewrite Hcur.
Qed.

(** X20.  Before [fit], [predict] never returns a value, whatever its
    arguments: [_boot_predictors] is still [None].  The error is the
    [RuntimeError] of the sanity check only when the quantile of the
    residuals and the batch plan have been computed first. *)
Theorem predict_before_fit (self : EnbPI) (X_test : list Sample) (alpha : Q)
    (y_true : option (list Q)) (s : option Z) (σ : gmap nat (list Q))
    (current : list Q) :
  _boot_predictors self = None ->
  σ !! residuals self = Some current ->
  exists e,
    (predict self X_test alpha y_true s σ).1 = Raise e /\
    (returns (np_quantile_linear current (1 - alpha)) ->
     returns (batch_plan X_test y_true s) ->
     e = RuntimeError).
Proof.
  intros Hnone Hcur. rewrite (predict_fst _ _ _ _ _ _ _ Hcur).
  unfold predict_pure. rewrite Hnone.
  destruct (np_quantile_linear current (1 - alpha)) as [q|e]; simpl.
  2: { exists e. split; [done|]. by intros [? ?]. }
  destruct (batch_plan X_test y_true s) as [[n s']|e]; simpl.
  2: { exists e. split; [done|]. by intros _ [? ?]. }
  by exists RuntimeError.
Qed.

(** X21.  In the single-batch mode the true values do not reach the output:
    whatever [predict] returns when given [y_true] and no [s], it
    returns without [y_true], for any [s]. *)
Theorem predict_single_batch_ignores_truth (self : EnbPI)
    (X_test : list Sample) (alpha : Q) (y_true : list Q) (s : option Z)
    (σ : gmap nat (list Q)) (out : list Q * list Q * list Q) :
  (predict self X_test alpha (Some y_true) None σ).1 = Ok out ->
  (predict self X_test alpha None s σ).1 = Ok out.
Proof.
  destruct (σ !! residuals self) as [current|] eqn:Hcur.
  2: { by rewrite predict_unallocated. }
  rewrite !(predict_fst _ _ _ _ _ _ _ Hcur). unfold predict_pure.
  destruct (np_quantile_linear current (1 - alpha)) as [q|e]; simpl; [|done].
  destruct (_boot_predictors self) as [preds|]; simpl; [|done].
  unfold process_batch_pure.
  destruct (predict_batch self preds _) as [y_pred_batch|e]; simpl; [|done].
  destruct (_compute_pi y_pred_batch q) as [lower upper].
  destruct (np_quantile_linear _ _) as [q'|e]; simpl; [|done].
  done.
Qed.

(** X22.  A batch size that is negative, or larger than the number of true
    values, gives no batch at all: on a fitted instance with residuals,
    [predict] returns three empty arrays, whatever the test samples. *)
Theorem predict_no_batch (self : EnbPI) (X_test : list Sample) (alpha : Q)
    (y_true : list Q) (s : Z) (σ : gmap nat (list Q)) (current : list Q) :
  σ !! residuals self = Some current ->
  returns (np_quantile_linear current (1 - alpha)) ->
  is_Some (_boot_predictors self) ->
  (s < 0 \/ Z.of_nat (length y_true) < s)%Z ->
  (predict self X_test alpha (Some y_true) (Some s) σ).1 = Ok ([], [], []).
Proof.
  intros Hcur [q Hq] [preds Hpreds] Hs.
  rewrite (predict_fst _ _ _ _ _ _ _ Hcur). unfold predict_pure.
  rewrite Hq, Hpreds. simpl.
  destruct (Z.eqb_spec s 0) as [->|Hs0]; [lia|].
  assert (Z.to_nat (Z.of_nat (length y_true) / s) = 0) as ->; [|done].
  assert (Z.of_nat (length y_true) / s <= 0)%Z; [|lia].
  destruct Hs as [Hneg|Hbig].
  - pose proof (Z.div_mod (Z.of_nat (length y_true)) s Hs0) as Hdm.
    pose proof (Z.mod_neg_bound (Z.of_nat (length y_true)) s Hneg) as Hb.
    nia.
  - rewrite Z.div_small; lia.
Qed.

End Predict.

Lemma fit_single_sample_never_ends_witness :
  fit (H := Instances.mean_ensemble) 1000 Instances.ensemble0 [0%Q] [1%Q] 0 = None.
Proof.
  apply (fit_single_sample_never_ends (H := Instances.mean_ensemble)
           Instances.ensemble0 [0%Q] [1%Q]).
  - exact counter_draw_valid.
  - reflexivity.
  - simpl. lia.
Defined.

Lemma fit_bootstrap_sets_witness :
  exists boot oob,
    _boot_dict Instances.ensemble3 !! 1 = Some boot /\
    _oob_dict Instances.ensemble3 !! 1 = Some oob /\
    length boot = 3 /\
    Forall (fun i => i < 3) boot /\
    oob <> [] /\
    (forall i, i ∈ oob <-> i < 3 /\ i ∉ boot).
Proof.
  apply (fit_bootstrap_sets (H := Instances.mean_ensemble)
           Instances.ensemble0 Instances.ensemble3
           Instances.train_X Instances.train_y 5 0
           (fit_sampled Instances.ensemble0 Instances.train_X Instances.train_y
              Instances.drawn_boot Instances.drawn_oob)
           3 Instances.store0).
  - exact counter_draw_valid.
  - reflexivity.
  - reflexivity.
  - simpl. lia.
Defined.

Lemma fit_extends_residuals_witness :
  match fit_sampled Instances.ensemble0 Instances.train_X Instances.train_y
          Instances.drawn_boot Instances.drawn_oob Instances.store123 with
  | (Ok self', σ') =>
      residuals self' = 0 /\
      exists m ps bp,
        _oob_matrix self' = Some m /\
        _boot_predictors self' = Some ps /\
        boot_predictions ps 3 Instances.train_X = Ok bp /\
        σ' = <[0 := [1; 2; 3]%Q ++ mad (Collaborators := Instances.mean_ensemble)
                                   (loo_diagonal m bp) Instances.train_y]>
               Instances.store123
  | (Raise _, σ') => σ' = Instances.store123
  end.
Proof.
  apply (fit_extends_residuals (H := Instances.mean_ensemble)
           Instances.ensemble0 Instances.train_X Instances.train_y 5 0
           (fit_sampled Instances.ensemble0 Instances.train_X Instances.train_y
              Instances.drawn_boot Instances.drawn_oob)
           3 Instances.store123 [1; 2; 3]%Q).
  - reflexivity.
  - reflexivity.
Defined.

Lemma fit_oob_weights_witness :
  exists m,
    _oob_matrix Instances.ensemble3 = Some m /\
    forall i b, i < 3 -> b < 3 ->
      exists row x oob,
        m !! i = Some row /\ row !! b = Some x /\
        _oob_dict Instances.ensemble3 !! b = Some oob /\
        (i ∈ oob -> (0 < x)%Q) /\
        (i ∉ oob -> (x == 0)%Q) /\
        (forall b' x' oob',
           row !! b' = Some x' -> _oob_dict Instances.ensemble3 !! b' = Some oob' ->
           i ∈ oob -> i ∈ oob' -> (x' == x)%Q).
Proof.
  apply (fit_oob_weights (H := Instances.mean_ensemble)
           Instances.ensemble0 Instances.ensemble3
           Instances.train_X Instances.train_y 5 0
           (fit_sampled Instances.ensemble0 Instances.train_X Instances.train_y
              Instances.drawn_boot Instances.drawn_oob)
           3 Instances.store0).
  - exact counter_draw_valid.
  - reflexivity.
  - reflexivity.
Defined.

Lemma predict_batch_between_witness :
  exists y_pred,
    predict_batch (H := Instances.mean_ensemble) Instances.ensemble2 [1; 3]%Q
      [0; 0]%Q = Ok y_pred /\
    length y_pred = 2 /\
    forall j v, y_pred !! j = Some v -> (1 <= v)%Q /\ (v <= 3)%Q.
Proof.
  apply (predict_batch_between (H := Instances.mean_ensemble)
           Instances.ensemble2 [1; 3]%Q [0; 0]%Q [[1; 0]; [0; 1]]%Q
           (fun _ => 1%Q) (fun _ => 3%Q)).
  - reflexivity.
  - discriminate.
  - repeat constructor; discriminate.
  - reflexivity.
  - simpl. lia.
  - intros [|[|b]] p Hb Hp; [| |simpl in Hb; lia]; simpl in Hp;
      injection Hp as <-; (split; [reflexivity|]);
      intros [|[|j]] v Hv; simpl in Hv; try discriminate Hv;
      injection Hv as <-; split; discriminate.
Defined.

Lemma predict_before_fit_witness :
  exists e,
    (predict (H := Instances.mean_ensemble) Instances.ensemble0 [0; 0]%Q (1 # 2)%Q
       None None Instances.store123).1 = Raise e /\
    (returns (np_quantile_linear [1; 2; 3]%Q (1 - (1 # 2))%Q) ->
     returns (batch_plan [0; 0]%Q None None) ->
     e = RuntimeError).
Proof.
  apply (predict_before_fit (H := Instances.mean_ensemble) Instances.ensemble0
           [0; 0]%Q (1 # 2)%Q None None Instances.store123 [1; 2; 3]%Q).
  - reflexivity.
  - reflexivity.
Defined.

Lemma predict_single_batch_ignores_truth_witness :
  (predict (H := Instances.mean_ensemble) Instances.ensemble2 [0; 0]%Q (1 # 2)%Q
     None (Some 7%Z) Instances.store123).1
  = Ok ([4 # 2; 4 # 2]%Q, [0 # 4; 0 # 4]%Q, [16 # 4; 16 # 4]%Q).
Proof.
  apply (predict_single_batch_ignores_truth (H := Instances.mean_ensemble)
           Instances.ensemble2 [0; 0]%Q (1 # 2)%Q [1; 5]%Q (Some 7%Z)
           Instances.store123).
  vm_compute. reflexivity.
Defined.

Lemma predict_no_batch_witness :
  (predict (H := Instances.mean_ensemble) Instances.ensemble2 [0; 0]%Q (1 # 2)%Q
     (Some [1; 5]%Q) (Some 3%Z) Instances.store123).1 = Ok ([], [], []).
Proof.
  apply (predict_no_batch (H := Instances.mean_ensemble) Instances.ensemble2
           [0; 0]%Q (1 # 2)%Q [1; 5]%Q 3%Z Instances.store123 [1; 2; 3]%Q).
  - reflexivity.
  - eexists. vm_compute. reflexivity.
  - eexists. reflexivity.
  - right. simpl. lia.
Defined.

End EnbPIMore.

(** * Properties of the plotting functions *)

Module PlottingFacts.
Import Quantile Metrics Plotting.
Import QuantileFacts MetricsFacts.
Local Open Scope Q_scope.

Lemma boolean_index_length_eq {A B : Type} (xs : list A) (ys : list B) mask :
  length xs = length ys ->
  length (boolean_index xs mask) = length (boolean_index ys mask).
Proof.
  revert ys mask. induction xs as [|x xs IH]; intros [|y ys] [|b mask] Hl;
    simpl in *; try done.
  destruct b; simpl; auto.
Qed.

Lemma boolean_index_split_length {A : Type} (xs : list A) mask :
  length mask = length xs ->
  (length (boolean_index xs mask) + length (boolean_index xs (map negb mask))
   = length xs)%nat.
Proof.
  revert mask. induction xs as [|x xs IH]; intros [|b mask] Hl; simpl in *; try done.
  specialize (IH mask ltac:(lia)). destruct b; simpl; lia.
Qed.

(** The points selected by a mask are the points at its set bits. *)
Lemma elem_of_zip_boolean_index {A B : Type} (xs : list A) (ys : list B) mask x y :
  length xs = length ys ->
  (x, y) ∈ zip (boolean_index xs mask) (boolean_index ys mask) <->
  exists i, xs !! i = Some x /\ ys !! i = Some y /\ mask !! i = Some true.
Proof.
  revert ys mask. induction xs as [|x0 xs IH]; intros [|y0 ys] [|b mask] Hl;
    simpl in *; try done.
  - split; [by intros ?%elem_of_nil|by intros (i & ? & _)].
  - split; [by intros ?%elem_of_nil|by intros (i & ? & _)].
  - split; [by intros ?%elem_of_nil|by intros (i & _ & _ & ?)].
  - specialize (IH ys mask ltac:(lia)). destruct b; simpl.
    + rewrite elem_of_cons, IH. split.
      * intros [[= -> ->]|(i & ? & ? & ?)]; [by exists 0%nat|by exists (S i)].
      * intros ([|i] & Hx & Hy & Hm); simpl in *.
        -- left. congruence.
        -- right. by exists i.
    + rewrite IH. split.
      * intros (i & ? & ? & ?). by exists (S i).
      * intros ([|i] & Hx & Hy & Hm); simpl in *; [done|]. by exists i.
Qed.

Lemma arange_length n : length (arange n) = n.
Proof. unfold arange. by rewrite length_map, length_seq. Qed.

Lemma arange_lookup n i x :
  arange n !! i = Some x <-> (i < n)%nat /\ x = inject_Z (Z.of_nat i).
Proof.
  unfold arange. rewrite list_lookup_fmap. split.
  - intros Hx. destruct (seq 0 n !! i) as [j|] eqn:Hj; [|done].
    apply lookup_seq in Hj as [-> ?]. simpl in Hx. by injection Hx as <-.
  - intros [Hi ->]. by rewrite lookup_seq_lt.
Qed.

(** With arrays of one length, the miscoverage mask is the complement
    of the covered flags. *)
Lemma miscovered_same_length y lo hi :
  length lo = length y -> length hi = length y ->
  miscovered y lo hi
  = Ok (map (fun i => negb (covered_at y lo hi i)) (seq 0 (length y))).
Proof.
  intros Hlo Hhi. unfold miscovered.
  rewrite (broadcast_same_length _ y hi) by done. simpl.
  rewrite (broadcast_same_length _ y lo) by done. simpl.
  rewrite broadcast_same_length by (rewrite !length_zip_with; lia).
  f_equal.
  rewrite (zip_with_nth _ y hi 0 0), (zip_with_nth _ y lo 0 0) by done.
  rewrite (zip_with_nth orb _ _ false false) by (by rewrite !length_map).
  rewrite length_map, length_seq.
  apply map_ext_in. intros i Hi%in_seq.
  rewrite !(nth_map_seq _ _ _ false) by lia.
  unfold covered_at, key.
  destruct (Qle_bool (nth i lo 0) (nth i y 0)), (Qle_bool (nth i y 0) (nth i hi 0)); done.
Qed.

(** X23.  Called without a [loc] keyword argument, [plot_prediction_interval]
    raises [KeyError] before any call to matplotlib: its first test of
    ["loc" not in kwargs] reads [kwargs["loc"]] in the branch where the
    key is missing. *)
Theorem plot_prediction_interval_needs_loc (y_true : list Q)
    (y_pred_lower y_pred_upper X y_pred : option (list Q))
    (save_path : option string) (sort_X : bool) (kwargs : gmap string pyobj) :
  kwargs !! "loc" = None ->
  plot_prediction_interval y_true y_pred_lower y_pred_upper X y_pred save_path
    sort_X kwargs
  = ([], Raise KeyError).
Proof. intros Hloc. unfold plot_prediction_interval. by rewrite Hloc. Qed.

Lemma plot_prediction_interval_needs_loc_witness :
  plot_prediction_interval [1; 5] (Some [0; 0]) (Some [2; 2]) None None None false ∅
  = ([], Raise KeyError).
Proof.
  apply (plot_prediction_interval_needs_loc [1; 5] (Some [0; 0]) (Some [2; 2])
           None None None false ∅).
  reflexivity.
Defined.

Lemma plot_same_length x y fmt color label :
  length x = length y -> plot x y fmt color label = ([plt_plot x y fmt color label], Ok ()).
Proof. intros Hl. unfold plot. by rewrite Hl, Nat.eqb_refl. Qed.

Lemma mask_index_same_length {A : Type} (xs : list A) mask :
  length mask = length xs -> mask_index xs mask = Ok (boolean_index xs mask).
Proof. intros Hl. unfold mask_index. by rewrite Hl, Nat.eqb_refl. Qed.

(** The calls [plot_prediction_interval] makes for arrays of one length,
    no abscissa and a [loc]. *)
Lemma plot_prediction_interval_calls y_true lo hi y_pred save_path sort_X
    (kwargs : gmap string pyobj) l :
  kwargs !! "loc" = Some l ->
  length lo = length y_true ->
  length hi = length y_true ->
  (forall p, y_pred = Some p -> length p = length y_true) ->
  let n := length y_true in
  let mis := map (fun i => negb (covered_at y_true lo hi i)) (seq 0 n) in
  plot_prediction_interval y_true (Some lo) (Some hi) None y_pred save_path
    sort_X kwargs
  = ([plt_figure (default (PyTuple 15 6) (kwargs !! "figsize"));
      plt_rcParams "font.family" (PyStr "Times New Roman");
      plt_rcParams "ytick.labelsize" (PyInt 15);
      plt_rcParams "xtick.labelsize" (PyInt 15);
      plt_rcParams "axes.labelsize" (PyInt 15);
      plt_rcParams "legend.fontsize" (PyInt 16);
      plt_plot (boolean_index (arange n) (map negb mis))
        (boolean_index y_true (map negb mis))
        (Some "darkgreen") None (Some "Observation (inside PI)");
      plt_plot (boolean_index (arange n) mis) (boolean_index y_true mis)
        None (Some "red") (Some "Observation (outside PI)");
      plt_plot (arange n) hi (Some "--") (Some "blue") None;
      plt_plot (arange n) lo (Some "--") (Some "blue") None;
      plt_fill_between (arange n) hi lo (Some "Prediction Interval")]
     ++ match y_pred with
        | Some p => [plt_plot (arange n) p None (Some "k") (Some "Prediction")]
        | None => []
        end
     ++ [plt_xlabel "X"; plt_ylabel "Y"; plt_legend (Some l);
         match save_path with
         | Some path => if String.eqb path "" then plt_show else plt_savefig path
         | None => plt_show
         end],
     Ok ()).
Proof.
  intros Hloc Hlo Hhi Hp n mis. subst n.
  assert (length mis = length y_true) as Hmis
    by (unfold mis; by rewrite length_map, length_seq).
  unfold plot_prediction_interval. rewrite Hloc.
  cbv [compute call mbind P_bind mret P_ret]. cbn beta iota.
  rewrite miscovered_same_length by done. fold mis. cbn beta iota.
  rewrite !mask_index_same_length
    by (rewrite ?length_map, ?arange_length; done).
  cbn beta iota.
  rewrite (plot_same_length (boolean_index (arange _) (map negb mis)))
    by (apply boolean_index_length_eq; by rewrite arange_length).
  rewrite (plot_same_length (boolean_index (arange _) mis))
    by (apply boolean_index_length_eq; by rewrite arange_length).
  rewrite (plot_same_length (arange _) hi) by (by rewrite arange_length).
  rewrite (plot_same_length (arange _) lo) by (by rewrite arange_length).
  unfold fill_between. rewrite arange_length, Hhi, Hlo, Nat.eqb_refl.
  cbv [call]. cbn beta iota.
  destruct y_pred as [p|].
  - rewrite (plot_same_length (arange _) p)
      by (rewrite arange_length; symmetry; by apply Hp).
    destruct save_path as [path|]; [destruct (String.eqb path "")|]; reflexivity.
  - destruct save_path as [path|]; [destruct (String.eqb path "")|]; reflexivity.
Qed.

Lemma Qsum_flags_count {A : Type} (xs : list A) (mask : list bool) :
  length mask = length xs ->
  Qsum (map as_float mask) == inject_Z (Z.of_nat (length (boolean_index xs mask))).
Proof.
  revert mask. induction xs as [|x xs IH]; intros [|b mask] Hl; simpl in *; try done.
  specialize (IH mask ltac:(lia)). rewrite IH. destruct b; simpl as_float.
  - cbn [length]. rewrite Nat2Z.inj_succ, <- Z.add_1_l, inject_Z_plus.
    change (inject_Z 1) with 1. ring.
  - ring.
Qed.

(** X24.  Given a [loc], both bounds, no abscissa and arrays of one length,
    [plot_prediction_interval] returns, places the legend at
    [kwargs["loc"]] (the ["upper left"] assigned first is never used),
    and draws every sample exactly once at its index: in the series
    "inside PI" if the true value lies within its interval and in the
    series "outside PI" if not.  The share of the samples drawn as
    inside is the average coverage. *)
Theorem plot_prediction_interval_partition (y_true lo hi : list Q)
    (y_pred : option (list Q)) (save_path : option string) (sort_X : bool)
    (kwargs : gmap string pyobj) (l : pyobj) :
  kwargs !! "loc" = Some l ->
  length lo = length y_true ->
  length hi = length y_true ->
  (forall p, y_pred = Some p -> length p = length y_true) ->
  exists calls x_in y_in x_out y_out,
    plot_prediction_interval y_true (Some lo) (Some hi) None y_pred save_path
      sort_X kwargs = (calls, Ok ()) /\
    plt_plot x_in y_in (Some "darkgreen") None (Some "Observation (inside PI)")
      ∈ calls /\
    plt_plot x_out y_out None (Some "red") (Some "Observation (outside PI)")
      ∈ calls /\
    plt_legend (Some l) ∈ calls /\
    (length y_in + length y_out = length y_true)%nat /\
    (forall i y, y_true !! i = Some y ->
       ((inject_Z (Z.of_nat i), y) ∈ zip x_in y_in <-> inside y_true lo hi i) /\
       ((inject_Z (Z.of_nat i), y) ∈ zip x_out y_out <-> ~ inside y_true lo hi i)) /\
    (y_true <> [] ->
     exists c, average_coverage y_true lo hi = Ok (Finite c) /\
               c == inject_Z (Z.of_nat (length y_in))
                    / inject_Z (Z.of_nat (length y_true))).
Proof.
  intros Hloc Hlo Hhi Hp.
  set (n := length y_true).
  set (mis := map (fun i => negb (covered_at y_true lo hi i)) (seq 0 n)).
  assert (length mis = n) as Hmis by (unfold mis; by rewrite length_map, length_seq).
  assert (forall i, (i < n)%nat ->
            mis !! i = Some (negb (covered_at y_true lo hi i))) as Hbit.
  { intros i Hi. unfold mis. by rewrite list_lookup_fmap, lookup_seq_lt. }
  assert (forall (mask : list bool) i y, y_true !! i = Some y ->
            (inject_Z (Z.of_nat i), y)
              ∈ zip (boolean_index (arange n) mask) (boolean_index y_true mask)
            <-> mask !! i = Some true) as Hpoint.
  { intros mask i y Hy.
    rewrite elem_of_zip_boolean_index by (by rewrite arange_length). split.
    - intros (j & [Hj Heq]%arange_lookup & _ & Hm).
      injection Heq as Heq. apply Nat2Z.inj in Heq. by subst j.
    - intros Hm. exists i. split; [|done]. apply arange_lookup.
      split; [|done]. by apply lookup_lt_Some in Hy. }
  eexists _, (boolean_index (arange n) (map negb mis)),
    (boolean_index y_true (map negb mis)),
    (boolean_index (arange n) mis), (boolean_index y_true mis).
  split; [by apply plot_prediction_interval_calls|].
  split; [rewrite !elem_of_app, !elem_of_cons; tauto|].
  split; [rewrite !elem_of_app, !elem_of_cons; tauto|].
  split; [rewrite !elem_of_app, !elem_of_cons; tauto|].
  split.
  { pose proof (boolean_index_split_length y_true mis Hmis) as Hs.
    unfold n in *. lia. }
  split.
  - intros i y Hy.
    assert (i < n)%nat as Hi by (by apply lookup_lt_Some in Hy).
    rewrite !Hpoint by done. rewrite list_lookup_fmap, (Hbit i Hi). simpl.
    rewrite <- covered_at_inside.
    destruct (covered_at y_true lo hi i); simpl; split; split; intros Hx;
      solve [done | discriminate Hx | exfalso; by apply Hx].
  - intros Hne.
    rewrite average_coverage_unfold by done. fold n.
    assert (map as_float (map negb mis)
            = map (fun i => as_float (covered_at y_true lo hi i)) (seq 0 n)) as Hflags.
    { unfold mis. rewrite !map_map. apply map_ext. intros i.
      by rewrite negb_involutive. }
    rewrite <- Hflags.
    assert (length (map as_float (map negb mis)) = n) as Hfl
      by (by rewrite !length_map).
    unfold mean. destruct (map as_float (map negb mis)) as [|f fs] eqn:E.
    { simpl in Hfl. destruct y_true; [done|]. unfold n in Hfl. simpl in Hfl. lia. }
    eexists. split; [reflexivity|]. rewrite Hfl. rewrite <- E.
    rewrite (Qsum_flags_count y_true) by (by rewrite length_map). reflexivity.
Qed.

Lemma plot_prediction_interval_partition_witness :
  exists calls x_in y_in x_out y_out,
    plot_prediction_interval [1; 5; 3] (Some [0; 0; 0]) (Some [2; 2; 4]) None None
      None false {["loc" := PyStr "best"]} = (calls, Ok ()) /\
    plt_plot x_in y_in (Some "darkgreen") None (Some "Observation (inside PI)")
      ∈ calls /\
    plt_plot x_out y_out None (Some "red") (Some "Observation (outside PI)")
      ∈ calls /\
    plt_legend (Some (PyStr "best")) ∈ calls /\
    (length y_in + length y_out = 3)%nat /\
    (forall i y, [1; 5; 3] !! i = Some y ->
       ((inject_Z (Z.of_nat i), y) ∈ zip x_in y_in
        <-> inside [1; 5; 3] [0; 0; 0] [2; 2; 4] i) /\
       ((inject_Z (Z.of_nat i), y) ∈ zip x_out y_out
        <-> ~ inside [1; 5; 3] [0; 0; 0] [2; 2; 4] i)) /\
    ([1; 5; 3] <> [] ->
     exists c, average_coverage [1; 5; 3] [0; 0; 0] [2; 2; 4] = Ok (Finite c) /\
               c == inject_Z (Z.of_nat (length y_in)) / inject_Z (Z.of_nat 3)).
Proof.
  apply (plot_prediction_interval_partition [1; 5; 3] [0; 0; 0] [2; 2; 4] None None
           false {["loc" := PyStr "best"]} (PyStr "best")).
  - reflexivity.
  - reflexivity.
  - reflexivity.
  - discriminate.
Defined.

Lemma fancy_index_nth {A : Type} (d : A) (xs : list A) (idxs : list nat) :
  Forall (fun i => (i < length xs)%nat) idxs ->
  fancy_index xs idxs = Ok (map (fun i => nth i xs d) idxs).
Proof.
  unfold fancy_index. induction 1 as [|i idxs Hi _ IH]; [done|].
  cbn [mapR map].
  assert (getitem xs i = Ok (nth i xs d)) as ->.
  { unfold getitem. destruct (lookup_lt_is_Some_2 xs i Hi) as [x Hx].
    rewrite Hx. f_equal. symmetry. by apply nth_lookup_Some. }
  rewrite IH. done.
Qed.

Lemma np_sub_same_length xs ys :
  length xs = length ys -> np_sub xs ys = Ok (zip_with Qminus xs ys).
Proof. apply broadcast_same_length. Qed.

Lemma plot_sorted_pi_calls y_true lo hi X y_pred (kwargs : gmap string pyobj) :
  length lo = length y_true ->
  length hi = length y_true ->
  (forall p, y_pred = Some p -> length p = length y_true) ->
  (forall x, X = Some x -> length x = length y_true) ->
  let n := length y_true in
  let p := centre lo hi y_pred in
  let order := argsort (zip_with (fun u l => Qabs (u - l)) hi lo) in
  let xs := default (arange n) X in
  let ps := map (key p) order in
  let ys := map (key y_true) order in
  let mis :=
    map (fun i => nth i (map (fun i => negb (covered_at y_true lo hi i)) (seq 0 n))
                    false) order in
  plot_sorted_pi y_true lo hi X y_pred kwargs
  = ([plt_figure (default (PyTuple 15 6) (kwargs !! "figsize"));
      plt_plot xs (zip_with Qminus ps ps) None (Some "black") (Some "Prediction");
      plt_plot (boolean_index xs (map negb mis))
        (zip_with Qminus (boolean_index ys (map negb mis))
           (boolean_index ps (map negb mis)))
        None (Some "darkgreen") (Some "Observation (inside PI)");
      plt_plot (boolean_index xs mis)
        (zip_with Qminus (boolean_index ys mis) (boolean_index ps mis))
        None (Some "red") (Some "Observation (outside PI)");
      plt_plot xs (zip_with Qminus (map (key lo) order) ps)
        (Some "--") (Some "blue") (Some "Prediction Interval Bounds");
      plt_plot xs (zip_with Qminus (map (key hi) order) ps)
        (Some "--") (Some "blue") None;
      plt_legend None;
      plt_show],
     Ok ()).
Proof.
  intros Hlo Hhi Hp HX n p order xs ps ys mis.
  assert (length p = n) as Hpn.
  { unfold p, centre. destruct y_pred as [q|]; simpl; [by apply Hp|].
    rewrite length_map, length_zip_with. lia. }
  assert (length xs = n) as Hxs.
  { unfold xs. destruct X as [x|]; simpl; [by apply HX|apply arange_length]. }
  assert (length order = n) as Horder.
  { unfold order. rewrite argsort_length, length_zip_with. lia. }
  assert (Forall (fun i => (i < n)%nat) order) as Hrange.
  { unfold order. eapply Forall_impl; [apply argsort_in_range|].
    intros i Hi. simpl in Hi. rewrite length_zip_with in Hi. lia. }
  assert (length ps = n) as Hps by (unfold ps; by rewrite length_map).
  assert (length ys = n) as Hys by (unfold ys; by rewrite length_map).
  assert (length mis = n) as Hmis by (unfold mis; by rewrite length_map).
  unfold plot_sorted_pi.
  assert (match y_pred with
          | Some y_pred0 => Ok y_pred0
          | None => total ← broadcast Qplus hi lo; Ok (map (fun t => t / 2) total)
          end = Ok p) as ->.
  { unfold p, centre. destruct y_pred as [q|]; simpl; [done|].
    by rewrite broadcast_same_length by lia. }
  cbv [compute call mbind P_bind mret P_ret]. cbn beta iota.
  rewrite broadcast_same_length by lia. cbn beta iota. fold order.
  rewrite (fancy_index_in_range p order) by (by rewrite Hpn). fold ps.
  cbn beta iota.
  rewrite (np_sub_same_length ps ps) by done. cbn beta iota.
  rewrite Hlo. fold n. fold xs.
  rewrite (plot_same_length xs (zip_with Qminus ps ps))
    by (rewrite length_zip_with; lia).
  cbn beta iota.
  rewrite miscovered_same_length by done. fold n. cbn beta iota.
  rewrite (fancy_index_nth false) by (by rewrite length_map, length_seq).
  fold mis. cbn beta iota.
  rewrite (fancy_index_in_range y_true order) by done. fold ys.
  rewrite !mask_index_same_length by (rewrite ?length_map; lia).
  cbn beta iota.
  rewrite !np_sub_same_length
    by (apply boolean_index_length_eq; lia).
  cbn beta iota.
  rewrite (plot_same_length (boolean_index xs (map negb mis)))
    by (rewrite length_zip_with;
        rewrite <- (boolean_index_length_eq ys ps) by lia;
        rewrite Nat.min_id; apply boolean_index_length_eq; lia).
  rewrite (plot_same_length (boolean_index xs mis))
    by (rewrite length_zip_with;
        rewrite <- (boolean_index_length_eq ys ps) by lia;
        rewrite Nat.min_id; apply boolean_index_length_eq; lia).
  cbn beta iota.
  rewrite (fancy_index_in_range lo order) by (by rewrite Hlo).
  rewrite (fancy_index_in_range hi order) by (by rewrite Hhi).
  cbn beta iota.
  rewrite !np_sub_same_length by (rewrite length_map; lia).
  cbn beta iota.
  rewrite !(plot_same_length xs)
    by (rewrite length_zip_with, length_map; lia).
  reflexivity.
Qed.

(** X25.  For arrays of one length, [plot_sorted_pi] returns, and the series
    it draws are relative to the prediction: the series "Prediction" is
    zero throughout (it is the prediction less itself), and the two
    bound series are the interval bounds less the prediction, ordered by
    ascending interval width.  When no prediction is given the middle of
    the interval stands for it, and the two bound series mirror each
    other. *)
Theorem plot_sorted_pi_series (y_true lo hi : list Q) (X y_pred : option (list Q))
    (kwargs : gmap string pyobj) :
  length lo = length y_true ->
  length hi = length y_true ->
  (forall p, y_pred = Some p -> length p = length y_true) ->
  (forall x, X = Some x -> length x = length y_true) ->
  exists calls xs zero lower upper,
    plot_sorted_pi y_true lo hi X y_pred kwargs = (calls, Ok ()) /\
    plt_plot xs zero None (Some "black") (Some "Prediction") ∈ calls /\
    plt_plot xs lower (Some "--") (Some "blue") (Some "Prediction Interval Bounds")
      ∈ calls /\
    plt_plot xs upper (Some "--") (Some "blue") None ∈ calls /\
    length zero = length y_true /\
    length lower = length y_true /\
    length upper = length y_true /\
    Forall (fun z => z == 0) zero /\
    (forall k k' l u l' u',
       (k <= k')%nat ->
       lower !! k = Some l -> upper !! k = Some u ->
       lower !! k' = Some l' -> upper !! k' = Some u' ->
       Qabs (u - l) <= Qabs (u' - l')) /\
    (y_pred = None ->
     forall k l u, lower !! k = Some l -> upper !! k = Some u -> l == - u).
Proof.
  intros Hlo Hhi Hp HX.
  set (n := length y_true).
  set (p := centre lo hi y_pred).
  set (width := zip_with (fun u l => Qabs (u - l)) hi lo).
  set (order := argsort width).
  set (ps := map (key p) order).
  assert (length order = n) as Horder.
  { unfold order, width. rewrite argsort_length, length_zip_with. lia. }
  assert (Forall (fun i => (i < n)%nat) order) as Hrange.
  { unfold order. eapply Forall_impl; [apply argsort_in_range|].
    intros i Hi. simpl in Hi. unfold width in Hi.
    rewrite length_zip_with in Hi. lia. }
  assert (length ps = n) as Hps by (unfold ps; by rewrite length_map).
  (* entry [k] of a bound series *)
  assert (forall (b : list Q) k v,
            zip_with Qminus (map (key b) order) ps !! k = Some v ->
            exists i, order !! k = Some i /\ (i < n)%nat /\
                      v = key b i - key p i) as Hentry.
  { intros b k v Hv. apply lookup_zip_with_Some in Hv as (x & y & -> & Hx & Hy).
    unfold ps in Hy. rewrite list_lookup_fmap in Hx, Hy.
    destruct (order !! k) as [i|] eqn:Hi; [|done].
    simpl in Hx, Hy. injection Hx as <-. injection Hy as <-.
    exists i. split; [done|]. split; [|done].
    eapply (proj1 (Forall_lookup _ _) Hrange); eauto. }
  assert (forall i, (i < n)%nat -> key width i = Qabs (key hi i - key lo i)) as Hwidth.
  { intros i Hi. unfold width, key.
    rewrite (zip_with_nth _ hi lo 0 0) by lia.
    rewrite nth_map_seq by lia. done. }
  eexists _, (default (arange n) X), (zip_with Qminus ps ps),
    (zip_with Qminus (map (key lo) order) ps),
    (zip_with Qminus (map (key hi) order) ps).
  split; [by apply plot_sorted_pi_calls|].
  split; [rewrite !elem_of_cons; tauto|].
  split; [rewrite !elem_of_cons; tauto|].
  split; [rewrite !elem_of_cons; tauto|].
  split; [rewrite length_zip_with; lia|].
  split; [rewrite length_zip_with, length_map; lia|].
  split; [rewrite length_zip_with, length_map; lia|].
  split; [|split].
  - apply Forall_forall. intros z Hz.
    apply elem_of_lookup_zip_with in Hz as (k & x & y & -> & Hx & Hy).
    rewrite Hx in Hy. injection Hy as <-. ring.
  - intros k k' l u l' u' Hkk Hl Hu Hl' Hu'.
    destruct (Hentry lo k l Hl) as (i & Hi & Hin & ->).
    destruct (Hentry hi k u Hu) as (i0 & Hi0 & _ & ->).
    destruct (Hentry lo k' l' Hl') as (j & Hj & Hjn & ->).
    destruct (Hentry hi k' u' Hu') as (j0 & Hj0 & _ & ->).
    rewrite Hi in Hi0. injection Hi0 as <-.
    rewrite Hj in Hj0. injection Hj0 as <-.
    assert (key hi i - key p i - (key lo i - key p i) == key hi i - key lo i)
      as -> by ring.
    assert (key hi j - key p j - (key lo j - key p j) == key hi j - key lo j)
      as -> by ring.
    rewrite <- !Hwidth by done.
    eapply (sorted_lookup_le width order k k'); eauto.
    apply argsort_of_sorted.
  - intros -> k l u Hl Hu.
    destruct (Hentry lo k l Hl) as (i & Hi & Hin & ->).
    destruct (Hentry hi k u Hu) as (i0 & Hi0 & _ & ->).
    rewrite Hi in Hi0. injection Hi0 as <-.
    assert (key p i = (key hi i + key lo i) / 2) as ->.
    { unfold p, centre, key. simpl.
      rewrite (zip_with_nth _ hi lo 0 0) by lia.
      rewrite map_map. rewrite nth_map_seq by lia. done. }
    field.
Qed.

Lemma plot_sorted_pi_series_witness :
  exists calls xs zero lower upper,
    plot_sorted_pi [1; 5; 3] [0; 0; 0] [2; 6; 4] None None ∅ = (calls, Ok ()) /\
    plt_plot xs zero None (Some "black") (Some "Prediction") ∈ calls /\
    plt_plot xs lower (Some "--") (Some "blue") (Some "Prediction Interval Bounds")
      ∈ calls /\
    plt_plot xs upper (Some "--") (Some "blue") None ∈ calls /\
    length zero = 3%nat /\
    length lower = 3%nat /\
    length upper = 3%nat /\
    Forall (fun z => z == 0) zero /\
    (forall k k' l u l' u',
       (k <= k')%nat ->
       lower !! k = Some l -> upper !! k = Some u ->
       lower !! k' = Some l' -> upper !! k' = Some u' ->
       Qabs (u - l) <= Qabs (u' - l')) /\
    (@None (list Q) = None ->
     forall k l u, lower !! k = Some l -> upper !! k = Some u -> l == - u).
Proof.
  apply (plot_sorted_pi_series [1; 5; 3] [0; 0; 0] [2; 6; 4] None None ∅).
  - reflexivity.
  - reflexivity.
  - discriminate.
  - discriminate.
Defined.

End PlottingFacts.
